(** * Morse-code LED driver: a shallow embedding of [morsecode.c]

    The driver turns the bytes written to [/dev/morse-code] into LED pulses
    and, while flashing, decodes the pulse runs back into dots and dashes
    that are pushed on a bounded byte fifo; [read] drains that fifo.

    The embedding keeps the structure of the C file: the letter table, the
    helpers [queue_lock], [queue_unlock], [put_valid_morsecode_into_queue],
    [flash_morsecode], [process_morsecode], [is_letter], [is_morsecode_char]
    and the two file operations [my_read] and [my_write].  Kernel services
    (kfifo, mutex, LED trigger, msleep, user-memory copies) are given the
    behaviour their kernel documentation states. *)

From Stdlib Require Import String Ascii ZArith List Bool Lia Arith.
Import ListNotations.

Open Scope Z_scope.

(** ** Constants of the C file *)

Definition INTER_WORD_DOTTIMES : Z := 7.
Definition INTER_LETTER_DOTTIMES : Z := 3.
Definition BITS_IN_A_BYTE : Z := 8.
Definition ONES_IN_A_DOT : Z := 1.
Definition ONES_IN_A_DASH : Z := 3.
Definition DOT_SYMBOL : ascii := "."%char.
Definition DASH_SYMBOL : ascii := "-"%char.
Definition SEPARATOR_SYMBOL : ascii := " "%char.
Definition NEWLINE : ascii := "010"%char.
Definition QUEUE_SIZE : Z := Z.shiftl 1 15.
Definition SIZEOF_UNSIGNED_SHORT : Z := 2.
Definition USHORT_MODULUS : Z := 2 ^ (SIZEOF_UNSIGNED_SHORT * BITS_IN_A_BYTE).

Definition MIN_DOT_TIME : Z := 1.
Definition MAX_DOT_TIME : Z := 2000.
Definition DEFAULT_DOT_TIME : Z := 200.

(** errno values of the kernel ([EINTR] is what an interrupted
    [mutex_lock_interruptible] returns, negated). *)
Definition EINTR : Z := 4.
Definition EFAULT : Z := 14.

(** The table, one [unsigned short] per letter, A first. *)
Definition letter_to_morsecode_bits_map : list Z :=
  [ 0xB800; 0xEA80; 0xEBA0; 0xEA00; 0x8000; 0xAE80; 0xEE80; 0xAA00; 0xA000;
    0xBBB8; 0xEB80; 0xBA80; 0xEE00; 0xE800; 0xEEE0; 0xBBA0; 0xEEB8; 0xBA00;
    0xA800; 0xE000; 0xAE00; 0xAB80; 0xBB80; 0xEAE0; 0xEBB8; 0xEEA0 ].

(** ** Characters

    A C [char] is a byte; the driver only compares it with ['a'], ['z'],
    ['A'], ['Z'] and [' '].  Bytes above 127 fail all of these tests whether
    [char] is signed or not, so the unsigned code of the byte is enough. *)

Definition code (ch : ascii) : nat := nat_of_ascii ch.

Definition is_lower (ch : ascii) : bool :=
  (code "a" <=? code ch)%nat && (code ch <=? code "z")%nat.

Definition is_upper (ch : ascii) : bool :=
  (code "A" <=? code ch)%nat && (code ch <=? code "Z")%nat.

Definition is_space (ch : ascii) : bool := (code ch =? code " ")%nat.

Definition is_letter (ch : ascii) : bool := is_lower ch || is_upper ch.

Definition is_morsecode_char (ch : ascii) : bool := is_letter ch || is_space ch.

(** ** Observable effects and driver state *)

Inductive led_brightness : Type := LED_OFF | LED_FULL.

(** What the driver does to the outside world, in the order it does it.
    [EvLock b] is one call of [mutex_lock_interruptible]; [b] tells whether
    the mutex was acquired.  [EvPut c b] is one [kfifo_put] of [c]; [b] tells
    whether the fifo stored it. *)
Inductive event : Type :=
| EvLed (b : led_brightness)
| EvSleep (ms : Z)
| EvLock (acquired : bool)
| EvUnlock
| EvPut (c : ascii) (stored : bool).

Record state : Type := mkState {
  flashed_codes_queue : list ascii;   (* the kfifo, oldest byte first *)
  trace : list event;                 (* effects so far, oldest first *)
  lock_attempts : nat;                (* calls of queue_lock so far *)
  f_pos : Z                           (* the file offset behind [ppos] *)
}.

Definition set_queue (q : list ascii) (s : state) : state :=
  mkState q (trace s) (lock_attempts s) (f_pos s).

Definition log (e : event) (s : state) : state :=
  mkState (flashed_codes_queue s) (trace s ++ [e]) (lock_attempts s) (f_pos s).

Definition count_attempt (s : state) : state :=
  mkState (flashed_codes_queue s) (trace s) (S (lock_attempts s)) (f_pos s).

Definition add_pos (n : Z) (s : state) : state :=
  mkState (flashed_codes_queue s) (trace s) (lock_attempts s) (f_pos s + n).

(** ** A state monad with a way to run out of loop fuel

    [None] is only produced by a loop whose fuel is exhausted; the totality
    lemmas below show that the fuel the driver functions pass is enough. *)

Definition M (A : Type) : Type := state -> option (A * state).

Definition ret {A : Type} (a : A) : M A := fun s => Some (a, s).

Definition bind {A B : Type} (c : M A) (k : A -> M B) : M B :=
  fun s => match c s with
           | Some (a, s') => k a s'
           | None => None
           end.

Definition out_of_fuel {A : Type} : M A := fun _ => None.

Declare Scope drv_scope.
Delimit Scope drv_scope with drv.
Notation "x <- c ;; k" := (bind c (fun x => k))
  (at level 100, c at next level, right associativity) : drv_scope.
Notation "c ;; k" := (bind c (fun _ => k))
  (at level 100, right associativity) : drv_scope.
Open Scope drv_scope.

Definition emit (e : event) : M unit := fun s => Some (tt, log e s).

(** ** Kernel services *)

Definition led_trigger_event (b : led_brightness) : M unit := emit (EvLed b).

Definition msleep (ms : Z) : M unit := emit (EvSleep ms).

Definition mutex_unlock : M unit := emit EvUnlock.

Definition kfifo_is_full (q : list ascii) : bool :=
  QUEUE_SIZE <=? Z.of_nat (length q).

(** [kfifo_put]: stores the byte and returns 1, or returns 0 and stores
    nothing when the fifo is full. *)
Definition kfifo_put (c : ascii) : M Z :=
  fun s =>
    let q := flashed_codes_queue s in
    if kfifo_is_full q
    then Some (0, log (EvPut c false) s)
    else Some (1, log (EvPut c true) (set_queue (q ++ [c]) s)).

Definition kfifo_is_empty : M bool :=
  fun s => Some (match flashed_codes_queue s with [] => true | _ => false end, s).

(** [kfifo_to_user]: moves at most [count] bytes, oldest first, to user
    memory.  A destination that cannot be written takes nothing and makes
    the call fail with [-EFAULT]; moving no byte at all never faults.  The
    result is the error code, the number of bytes copied and the bytes. *)
Definition kfifo_to_user (writable : bool) (count : nat)
  : M (Z * nat * list ascii) :=
  fun s =>
    let q := flashed_codes_queue s in
    let len := Nat.min count (length q) in
    if writable || (len =? 0)%nat
    then Some ((0, len, firstn len q), set_queue (skipn len q) s)
    else Some ((- EFAULT, 0%nat, []), s).

(** User memory handed to [write]: [buff i] is the byte at offset [i], or
    [None] where [copy_from_user] faults. *)
Definition user_buffer : Type := nat -> option ascii.

Definition user_string (str : list ascii) : user_buffer :=
  fun i => nth_error str i.

(** ** Module parameter *)

(** The check of [dottime] in [my_init]. *)
Definition my_init_dottime (dottime : Z) : Z :=
  if (dottime <? MIN_DOT_TIME) || (dottime >? MAX_DOT_TIME)
  then DEFAULT_DOT_TIME
  else dottime.

(** ** The driver *)

Section Driver.

(** [dottime] is the module parameter; [lock_ok n] tells whether the
    [n]-th call of [mutex_lock_interruptible] acquires the mutex ([true])
    or is interrupted by a signal ([false]). *)
Variable dottime : Z.
Variable lock_ok : nat -> bool.

Definition mutex_lock_interruptible : M Z :=
  fun s =>
    let ok := lock_ok (lock_attempts s) in
    Some (if ok then 0 else - EINTR, count_attempt (log (EvLock ok) s)).

Definition queue_lock : M Z := mutex_lock_interruptible.

Definition queue_unlock : M unit := mutex_unlock.

Definition put_valid_morsecode_into_queue (consecutive_ones_seen : Z) : M Z :=
  if (consecutive_ones_seen =? ONES_IN_A_DOT)
     || (consecutive_ones_seen =? ONES_IN_A_DASH)
  then
    r <- queue_lock ;;
    if negb (r =? 0) then ret (- EFAULT)
    else
      (if consecutive_ones_seen =? ONES_IN_A_DOT
       then (kfifo_put DOT_SYMBOL ;; ret tt)
       else if consecutive_ones_seen =? ONES_IN_A_DASH
            then (kfifo_put DASH_SYMBOL ;; ret tt)
            else ret tt) ;;
      queue_unlock ;;
      ret 0
  else ret 0.

(** [morsecode <<= 1] on an [unsigned short]. *)
Definition shl1 (morsecode : Z) : Z :=
  (Z.shiftl morsecode 1) mod USHORT_MODULUS.

(** The [while (morsecode != 0)] loop of [flash_morsecode] followed by the
    code after it.  [fuel] bounds the iterations. *)
Fixpoint flash_morsecode_loop (fuel : nat) (morsecode : Z)
         (consecutive_ones_seen : Z) : M Z :=
  if morsecode =? 0 then
    r <- put_valid_morsecode_into_queue consecutive_ones_seen ;;
    if negb (r =? 0) then ret (- EFAULT)
    else
      led_trigger_event LED_OFF ;;
      msleep dottime ;;
      ret 0
  else
    match fuel with
    | O => out_of_fuel
    | S fuel' =>
        let leftmost_bit :=
          (Z.shiftr morsecode (SIZEOF_UNSIGNED_SHORT * BITS_IN_A_BYTE - 1))
            mod 256 in
        if leftmost_bit =? 1 then
          led_trigger_event LED_FULL ;;
          msleep dottime ;;
          flash_morsecode_loop fuel' (shl1 morsecode)
                               (consecutive_ones_seen + 1)
        else
          r <- put_valid_morsecode_into_queue consecutive_ones_seen ;;
          if negb (r =? 0) then ret (- EFAULT)
          else
            led_trigger_event LED_OFF ;;
            msleep dottime ;;
            flash_morsecode_loop fuel' (shl1 morsecode) 0
    end.

(** One iteration per bit of an [unsigned short] is all the loop can do. *)
Definition flash_morsecode (morsecode : Z) : M Z :=
  flash_morsecode_loop (Z.to_nat (SIZEOF_UNSIGNED_SHORT * BITS_IN_A_BYTE))
                       morsecode 0.

Definition process_morsecode (ch : ascii) (is_not_first_char : bool) : M Z :=
  (* the code shared by both letter cases, after [letter_idx] is set *)
  let flash_letter (letter_idx : nat) : M Z :=
    r <- (if is_not_first_char
          then
            r <- queue_lock ;;
            if negb (r =? 0) then ret (- EFAULT)
            else
              kfifo_put SEPARATOR_SYMBOL ;;
              queue_unlock ;;
              msleep ((INTER_LETTER_DOTTIMES - 1) * dottime) ;;
              ret 0
          else ret 0) ;;
    if negb (r =? 0) then ret (- EFAULT)
    else
      let morsecode_bits := nth letter_idx letter_to_morsecode_bits_map 0 in
      r <- flash_morsecode morsecode_bits ;;
      if negb (r =? 0) then ret (- EFAULT) else ret 0 in
  if is_lower ch then flash_letter (code ch - code "a")%nat
  else if is_upper ch then flash_letter (code ch - code "A")%nat
  else if is_space ch then
    r <- queue_lock ;;
    if negb (r =? 0) then ret (- EFAULT)
    else
      kfifo_put SEPARATOR_SYMBOL ;;
      kfifo_put SEPARATOR_SYMBOL ;;
      queue_unlock ;;
      msleep ((INTER_WORD_DOTTIMES - INTER_LETTER_DOTTIMES) * dottime) ;;
      ret 0
  else ret 0.

(** *** File operations *)

(** [my_read]: the result is the value returned to the caller and the
    bytes that reached the user's buffer. *)
Definition my_read (writable : bool) (count : nat) : M (Z * list ascii) :=
  r <- queue_lock ;;
  if negb (r =? 0) then ret (- EFAULT, [])
  else
    empty <- kfifo_is_empty ;;
    (if negb empty then (kfifo_put NEWLINE ;; ret tt) else ret tt) ;;
    res <- kfifo_to_user writable count ;;
    let '(err, bytes_copied, bytes) := res in
    if negb (err =? 0) then
      queue_unlock ;;
      ret (- EFAULT, bytes)
    else
      queue_unlock ;;
      (fun s => Some (tt, add_pos (Z.of_nat bytes_copied) s)) ;;
      ret (Z.of_nat bytes_copied, bytes).

(** Both scanning loops of [my_write] (the one that trims the front of
    the buffer and the one that peeks past a space) read bytes from
    [idx] on, at most [n] of them, and stop at the first letter.  The
    result is the index reached, or [None] when [copy_from_user] faults. *)
Fixpoint scan_to_letter (n : nat) (buff : user_buffer) (idx : nat)
  : option nat :=
  match n with
  | O => Some idx
  | S n' =>
      match buff idx with
      | None => None
      | Some ch =>
          if negb (is_space ch) && is_letter ch then Some idx
          else scan_to_letter n' buff (S idx)
      end
  end.

(** [*ppos += count; return count;] *)
Definition write_done (count : nat) : M Z :=
  fun s => Some (Z.of_nat count, add_pos (Z.of_nat count) s).

(** The [while (buff_idx < count)] loop of [my_write] and the code after
    it. *)
Fixpoint my_write_loop (fuel : nat) (buff : user_buffer) (count : nat)
         (buff_idx : nat) (has_processed_first_char : bool) : M Z :=
  if (count <=? buff_idx)%nat then write_done count
  else
    match fuel with
    | O => out_of_fuel
    | S fuel' =>
        (* from [if (is_morsecode_char(ch))] to [buff_idx++] *)
        let rest (ch : ascii) (buff_idx : nat) : M Z :=
          if is_morsecode_char ch then
            r <- process_morsecode ch has_processed_first_char ;;
            if negb (r =? 0) then ret (- EFAULT)
            else my_write_loop fuel' buff count (S buff_idx) true
          else
            my_write_loop fuel' buff count (S buff_idx)
                          has_processed_first_char in
        match buff buff_idx with
        | None => ret (- EFAULT)
        | Some ch =>
            if is_space ch then
              match scan_to_letter (count - S buff_idx) buff (S buff_idx) with
              | None => ret (- EFAULT)
              | Some peek_buff_idx =>
                  if (count <=? peek_buff_idx)%nat then write_done count
                  else rest ch (peek_buff_idx - 1)%nat
              end
            else rest ch buff_idx
        end
    end.

Definition my_write (buff : user_buffer) (count : nat) : M Z :=
  match scan_to_letter count buff 0 with
  | None => ret (- EFAULT)
  | Some buff_idx => my_write_loop count buff count buff_idx false
  end.

End Driver.

(** ** Running the model on concrete inputs *)

Definition init_state : state := mkState [] [] 0 0.

Definition always_acquired : nat -> bool := fun _ => true.

Definition chars (s : string) : list ascii := list_ascii_of_string s.

(** One [write] of [str] followed by one [read] of at most [count] bytes. *)
Definition write_then_read (dottime : Z) (lock_ok : nat -> bool)
           (str : list ascii) (count : nat) : M (Z * list ascii) :=
  my_write dottime lock_ok (user_string str) (List.length str) ;;
  my_read lock_ok true count.

Definition queue_state (q : list ascii) : state := mkState q [] 0 0.

(** A fifo filled to its capacity with dots. *)
Definition full_of_dots : state :=
  queue_state (repeat DOT_SYMBOL (Z.to_nat QUEUE_SIZE)).

(** The third acquisition of the lock is interrupted. *)
Definition third_interrupted : nat -> bool := fun n => (n <? 2)%nat.

(** The bytes a [write_then_read] hands to the reader. *)
Definition bytes_read (res : option ((Z * list ascii) * state))
  : option (list ascii) :=
  option_map (fun r => snd (fst r)) res.


(** ** Notions the properties are stated with *)

(** International Morse code of the letters, A first. *)
Definition morse_alphabet : list string :=
  [ ".-"; "-..."; "-.-."; "-.."; "."; "..-."; "--."; "...."; ".."; ".---";
    "-.-"; ".-.."; "--"; "-."; "---"; ".--."; "--.-"; ".-."; "..."; "-";
    "..-"; "...-"; ".--"; "-..-"; "-.--"; "--.." ]%string.

(** Position of a letter in the alphabet, whatever its case. *)
Definition alphabet_index (ch : ascii) : nat :=
  if is_lower ch then (code ch - code "a")%nat else (code ch - code "A")%nat.

Definition morse (ch : ascii) : list ascii :=
  chars (nth (alphabet_index ch) morse_alphabet ""%string).

(** The [n] leading bits of a 16-bit pattern, most significant first. *)
Definition top_bits (n : nat) (morsecode : Z) : list bool :=
  map (fun i => Z.testbit morsecode (Z.of_nat (15 - i))) (seq 0 n).

(** All 16 bits of a pattern, most significant first. *)
Definition pattern_bits (morsecode : Z) : list bool := top_bits 16 morsecode.

(** Lengths of the maximal runs of 1 bits, in order; [cur] is the length of
    the run being read. *)
Fixpoint runs_from (cur : nat) (bits : list bool) : list nat :=
  match bits with
  | [] => if (cur =? 0)%nat then [] else [cur]
  | true :: rest => runs_from (S cur) rest
  | false :: rest => (if (cur =? 0)%nat then [] else [cur]) ++ runs_from 0 rest
  end.

Definition runs (bits : list bool) : list nat := runs_from 0 bits.

(** What a run of [n] ON pulses stands for. *)
Definition run_symbol (n : nat) : list ascii :=
  if (n =? 1)%nat then [DOT_SYMBOL]
  else if (n =? 3)%nat then [DASH_SYMBOL]
  else [].

(** The ASCII lower-case form of an upper-case letter. *)
Definition to_lower (ch : ascii) : ascii := ascii_of_nat (code ch + 32).

(** [join sep [l1; ...; ln]] is [l1 ++ sep ++ ... ++ sep ++ ln]. *)
Fixpoint join (sep : list ascii) (ls : list (list ascii)) : list ascii :=
  match ls with
  | [] => []
  | [l] => l
  | l :: rest => l ++ sep ++ join sep rest
  end.

(** The words of a text: the pieces between its spaces. *)
Fixpoint split_words (str : list ascii) : list (list ascii) :=
  match str with
  | [] => [[]]
  | ch :: rest =>
      if is_space ch then [] :: split_words rest
      else match split_words rest with
           | w :: ws => (ch :: w) :: ws
           | [] => [[ch]]
           end
  end.

(** A word: a non-empty run of letters. *)
Definition letter_word (w : list ascii) : bool :=
  negb (List.length w =? 0)%nat && forallb is_letter w.

(** A text of letters and single spaces that neither starts nor ends with
    a space: every piece between its spaces is a word. *)
Definition well_formed (str : list ascii) : bool :=
  forallb letter_word (split_words str).

(** The symbol stream the driver queues for a text: the dots and dashes of
    a letter side by side, one separator between the letters of a word,
    three separators between words. *)
Definition word_stream (w : list ascii) : list ascii :=
  join [SEPARATOR_SYMBOL] (map morse w).

Definition queued_stream (str : list ascii) : list ascii :=
  join [SEPARATOR_SYMBOL; SEPARATOR_SYMBOL; SEPARATOR_SYMBOL]
       (map word_stream (split_words str)).

(** The stream as the specification words it: one separator between any
    two symbols of a word, two separators between words. *)
Definition spec_word_stream (w : list ascii) : list ascii :=
  join [SEPARATOR_SYMBOL] (map (fun c => [c]) (concat (map morse w))).

Definition spec_stream (str : list ascii) : list ascii :=
  join [SEPARATOR_SYMBOL; SEPARATOR_SYMBOL]
       (map spec_word_stream (split_words str)).

(** Lengths of the maximal runs of separators in a stream. *)
Definition separator_runs (stream : list ascii) : list nat :=
  runs (map is_space stream).


(** The fifo after [kfifo_put] was called on each byte of [l] in turn:
    bytes that find the fifo full are dropped. *)
Definition fifo_puts (q l : list ascii) : list ascii :=
  fold_left (fun q c => if kfifo_is_full q then q else q ++ [c]) l q.

(** The fifo as [my_read] leaves it just before it copies: a newline behind
    the queued bytes when there are some and the fifo can take it. *)
Definition queue_before_copy (q : list ascii) : list ascii :=
  match q with
  | [] => []
  | _ => if kfifo_is_full q then q else q ++ [NEWLINE]
  end.

(** ** Auxiliary notions for the proofs about [my_write] *)

(** What [my_write] queues when it handles the bytes of [suf] one by one:
    two separators for a space, the code of a letter otherwise, with one
    separator in front unless it is the first character processed. *)
Fixpoint char_stream (has_processed_first_char : bool) (suf : list ascii)
  : list ascii :=
  match suf with
  | [] => []
  | ch :: rest =>
      (if is_space ch then [SEPARATOR_SYMBOL; SEPARATOR_SYMBOL]
       else (if has_processed_first_char then [SEPARATOR_SYMBOL] else [])
              ++ morse ch)
        ++ char_stream true rest
  end.

(** Letters and spaces only, every space directly followed by a letter. *)
Fixpoint regular (suf : list ascii) : bool :=
  match suf with
  | [] => true
  | ch :: rest =>
      (if is_space ch
       then match rest with
            | next :: _ => is_letter next
            | [] => false
            end
       else is_letter ch)
      && regular rest
  end.

(** A tail of a well-formed text: as [well_formed], but the first word may
    be empty (the tail may be empty or start with the space that ends a
    word). *)
Definition well_formed_tail (suf : list ascii) : bool :=
  match split_words suf with
  | w :: ws => forallb is_letter w && forallb letter_word ws
  | [] => false
  end.


(** The separator [char_stream] puts in front of a tail: none when the tail
    is empty or starts with a space, one before a letter that is not the
    first character processed. *)
Definition leading_separator (has_processed_first_char : bool)
           (suf : list ascii) : list ascii :=
  match suf with
  | [] => []
  | ch :: _ =>
      if is_space ch then []
      else if has_processed_first_char then [SEPARATOR_SYMBOL] else []
  end.


(** ** The operations that take the queue lock *)

Inductive operation : Type :=
| OpFlush (consecutive_ones_seen : Z)              (* put_valid_morsecode_into_queue *)
| OpFlash (morsecode : Z)                          (* flash_morsecode *)
| OpProcess (ch : ascii) (is_not_first_char : bool) (* process_morsecode *)
| OpRead (writable : bool) (count : nat)           (* my_read *)
| OpWrite (buff : user_buffer) (count : nat).      (* my_write *)

(** The value an operation returns to its caller. *)
Definition run (dottime : Z) (lock_ok : nat -> bool) (op : operation) : M Z :=
  match op with
  | OpFlush n => put_valid_morsecode_into_queue lock_ok n
  | OpFlash m => flash_morsecode dottime lock_ok m
  | OpProcess ch b => process_morsecode dottime lock_ok ch b
  | OpRead w count => r <- my_read lock_ok w count ;; ret (fst r)
  | OpWrite buff count => my_write dottime lock_ok buff count
  end.

Definition interrupted : event := EvLock false.

(** [evs] ends with the one interrupted acquisition it contains. *)
Definition stops_at_interrupt (evs : list event) : Prop :=
  exists pre, evs = pre ++ [interrupted] /\ ~ In interrupted pre.

(** How a run from [s] to [s'] with result [r] deals with the lock: either
    no acquisition was interrupted, or the run returned [-EFAULT] and the
    interrupted acquisition is the last thing it did. *)
Definition lock_safe (lock_ok : nat -> bool) (r : Z) (s s' : state) : Prop :=
  exists evs,
    trace s' = trace s ++ evs
    /\ (~ In interrupted evs
        \/ (r = - EFAULT
            /\ stops_at_interrupt evs
            /\ exists n, lock_attempts s' = S n /\ lock_ok n = false)).

Definition safe (lock_ok : nat -> bool) (c : M Z) : Prop :=
  forall s r s', c s = Some (r, s') -> lock_safe lock_ok r s s'.

(** A step that never touches the lock. *)
Definition quiet {A : Type} (c : M A) : Prop :=
  forall s a s',
    c s = Some (a, s') ->
    lock_attempts s' = lock_attempts s
    /\ exists evs, trace s' = trace s ++ evs /\ ~ In interrupted evs.


(** A computation that returns from every state (its loops have enough
    fuel). *)
Definition total {A : Type} (c : M A) : Prop :=
  forall s, exists a s', c s = Some (a, s').

(** The arguments an operation can be called with: [flash_morsecode] takes
    an [unsigned short]. *)
Definition valid (op : operation) : Prop :=
  match op with
  | OpFlash m => 0 <= m < 65536
  | _ => True
  end.


(** ** The characters [my_write] hands to [process_morsecode] *)

(** The bytes of a buffer that [my_write] processes, in order.  While
    [skipping] (at the front of the buffer and behind a space) every byte
    up to the next letter is passed over.  Otherwise a letter is processed,
    a space is processed if a letter follows somewhere behind it and ends
    the processing if none does, and any other byte is ignored. *)
Fixpoint norm (skipping : bool) (suf : list ascii) : list ascii :=
  match suf with
  | [] => []
  | ch :: rest =>
      if is_letter ch then ch :: norm false rest
      else if skipping then norm true rest
      else if is_space ch
           then if existsb is_letter rest then ch :: norm true rest else []
           else norm false rest
  end.

Definition normalize (str : list ascii) : list ascii := norm true str.

(** [process_morsecode] called on each character of [l] in turn, stopping
    at the first call that fails. *)
Fixpoint process_chars (dottime : Z) (lock_ok : nat -> bool)
         (has_processed_first_char : bool) (l : list ascii) : M Z :=
  match l with
  | [] => ret 0
  | ch :: rest =>
      r <- process_morsecode dottime lock_ok ch has_processed_first_char ;;
      if negb (r =? 0) then ret (- EFAULT)
      else process_chars dottime lock_ok true rest
  end.


(** ** Critical sections *)

(** The symbols the producer side of the driver puts. *)
Definition symbol (c : ascii) : Prop :=
  c = DOT_SYMBOL \/ c = DASH_SYMBOL \/ c = SEPARATOR_SYMBOL.

Fixpoint kfifo_puts (cs : list ascii) : M unit :=
  match cs with
  | [] => ret tt
  | c :: rest => kfifo_put c ;; kfifo_puts rest
  end.

(** What the producer side does between a successful [queue_lock] and the
    return of [queue_unlock]: it puts some symbols. *)
Definition put_section (cs : list ascii) : M unit :=
  kfifo_puts cs ;; mutex_unlock.

Definition locked (s : state) : state := count_attempt (log (EvLock true) s).

(** [c] relates the state it starts from to the state it ends in by [R]. *)
Definition preserves {A : Type} (R : state -> state -> Prop) (c : M A) : Prop :=
  forall s a s', c s = Some (a, s') -> R s s'.


(** The locking discipline, checked along a run of events: the mutex is
    taken only when free and released only when held, a put happens only
    under the mutex, and the LED is switched and the caller sleeps only
    without it.  The result is whether the mutex is held at the end, or
    [None] if the run breaks the discipline. *)
Fixpoint lock_discipline (held : bool) (evs : list event) : option bool :=
  match evs with
  | [] => Some held
  | EvLock acquired :: rest =>
      if held then None else lock_discipline acquired rest
  | EvUnlock :: rest => if held then lock_discipline false rest else None
  | EvPut _ _ :: rest => if held then lock_discipline true rest else None
  | EvLed _ :: rest | EvSleep _ :: rest =>
      if held then None else lock_discipline false rest
  end.


(** A run from [s] to [s'] that keeps the locking discipline and leaves
    the mutex free. *)
Definition disciplined (s s' : state) : Prop :=
  exists evs,
    trace s' = trace s ++ evs /\ lock_discipline false evs = Some false.

(** A run from [s] to [s'] that only appended symbols to the fifo. *)
Definition appended (s s' : state) : Prop :=
  exists l,
    flashed_codes_queue s' = flashed_codes_queue s ++ l /\ Forall symbol l.

(** The operations of the producer side: all but [my_read]. *)
Definition producer (op : operation) : Prop :=
  match op with
  | OpRead _ _ => False
  | _ => True
  end.


(** ** Pulses and their timing *)

Definition is_pulse (e : event) : bool :=
  match e with
  | EvLed _ | EvSleep _ => true
  | _ => false
  end.

(** The LED switches and the sleeps of a run, in order. *)
Definition pulses (evs : list event) : list event := filter is_pulse evs.

Definition lit (b : led_brightness) : bool :=
  match b with
  | LED_FULL => true
  | LED_OFF => false
  end.

(** The state of the LED over time, one entry per dot time: a sleep of
    [ms] milliseconds holds the LED as it is for [ms / dottime] dot times. *)
Fixpoint timeline (dottime : Z) (led : led_brightness) (evs : list event)
  : list bool :=
  match evs with
  | [] => []
  | EvLed b :: rest => timeline dottime b rest
  | EvSleep ms :: rest =>
      repeat (lit led) (Z.to_nat (ms / dottime)) ++ timeline dottime led rest
  | _ :: rest => timeline dottime led rest
  end.

(** A list of bits without the 0 bits behind its last 1 bit. *)
Fixpoint strip_zeros (bits : list bool) : list bool :=
  match bits with
  | [] => []
  | b :: rest =>
      match strip_zeros rest with
      | [] => if b then [true] else []
      | rest' => b :: rest'
      end
  end.

(** The bits of a pattern up to its last 1 bit, most significant first. *)
Definition significant_bits (morsecode : Z) : list bool :=
  strip_zeros (pattern_bits morsecode).

(** What [flash_morsecode] does for one bit, and for a whole pattern. *)
Definition bit_pulse (dottime : Z) (b : bool) : list event :=
  [EvLed (if b then LED_FULL else LED_OFF); EvSleep dottime].

Definition flash_pulses (dottime : Z) (bits : list bool) : list event :=
  flat_map (bit_pulse dottime) bits ++ [EvLed LED_OFF; EvSleep dottime].

(** The pulses of the characters [my_write] processes. *)
Fixpoint char_pulses (dottime : Z) (has_processed_first_char : bool)
         (l : list ascii) : list event :=
  match l with
  | [] => []
  | ch :: rest =>
      (if is_space ch
       then [EvSleep ((INTER_WORD_DOTTIMES - INTER_LETTER_DOTTIMES) * dottime)]
       else (if has_processed_first_char
             then [EvSleep ((INTER_LETTER_DOTTIMES - 1) * dottime)]
             else [])
              ++ flash_pulses dottime
                   (significant_bits
                      (nth (alphabet_index ch) letter_to_morsecode_bits_map 0)))
        ++ char_pulses dottime true rest
  end.

(** [intercalate sep [l1; ...; ln]] is [l1 ++ sep ++ ... ++ sep ++ ln]. *)
Fixpoint intercalate {A : Type} (sep : list A) (ls : list (list A)) : list A :=
  match ls with
  | [] => []
  | [l] => l
  | l :: rest => l ++ sep ++ intercalate sep rest
  end.

(** Morse timing in dot times: a dot is on for one, a dash for three; the
    symbols of a letter are one apart, the letters of a word three, words
    seven; one more dot time of darkness ends the text. *)
Definition symbol_units (c : ascii) : list bool :=
  if Ascii.eqb c DASH_SYMBOL then [true; true; true] else [true].

Definition letter_timeline (ch : ascii) : list bool :=
  intercalate [false] (map symbol_units (morse ch)).

Definition word_timeline (w : list ascii) : list bool :=
  intercalate (repeat false (Z.to_nat INTER_LETTER_DOTTIMES))
              (map letter_timeline w).

Definition text_timeline (text : list ascii) : list bool :=
  match text with
  | [] => []
  | _ =>
      intercalate (repeat false (Z.to_nat INTER_WORD_DOTTIMES))
                  (map word_timeline (split_words text))
        ++ [false]
  end.

(** The darkness [my_write] adds between a letter and what follows it in
    the same write, beyond the dot time that ends the letter. *)
Fixpoint char_timeline (has_processed_first_char : bool) (l : list ascii)
  : list bool :=
  match l with
  | [] => []
  | ch :: rest =>
      (if is_space ch then repeat false 4
       else (if has_processed_first_char then repeat false 2 else [])
              ++ letter_timeline ch ++ [false])
        ++ char_timeline true rest
  end.


(** The darkness between a processed letter and a tail that starts with a
    letter: the three dot times between the letters of a word. *)
Definition letter_gap (suf : list ascii) : list bool :=
  match suf with
  | [] => []
  | ch :: _ => if is_space ch then [] else repeat false 3
  end.

(** The words of a text as a timeline, seven dark dot times apart. *)
Definition words_timeline (text : list ascii) : list bool :=
  intercalate (repeat false (Z.to_nat INTER_WORD_DOTTIMES))
              (map word_timeline (split_words text)).


(** ** Module initialisation and repeated reads *)

(** [my_init]: [INIT_KFIFO] empties the fifo, [dottime] is checked, and the
    value of [misc_register] is returned (the LED trigger is registered
    whatever that value is).  The result is the value returned, the
    [dottime] in force afterwards and the state. *)
Definition my_init (dottime : Z) (misc_register_result : Z) (s : state)
  : Z * Z * state :=
  (misc_register_result, my_init_dottime dottime, set_queue [] s).

(** [n] calls of [my_read] in a row, each for at most [count] bytes; the
    result is all the bytes copied, in order. *)
Fixpoint my_reads (lock_ok : nat -> bool) (count : nat) (n : nat)
  : M (list ascii) :=
  match n with
  | O => ret []
  | S n' =>
      r <- my_read lock_ok true count ;;
      rest <- my_reads lock_ok count n' ;;
      ret (snd r ++ rest)
  end.


(** A computation that fails only with [-EFAULT], and only after an
    interrupted acquisition of the lock. *)
Definition fails_only_interrupted (c : M Z) : Prop :=
  forall s r s',
    c s = Some (r, s') ->
    exists evs,
      trace s' = trace s ++ evs
      /\ (r = 0 \/ (r = - EFAULT /\ In interrupted evs)).


(** The words of a buffer, read off its bytes: drop every byte that is
    neither a letter nor a space, cut at the spaces, and keep the pieces
    that are not empty. *)
Definition nonempty (w : list ascii) : bool := negb (List.length w =? 0)%nat.

Definition words_of (str : list ascii) : list (list ascii) :=
  filter nonempty (split_words (filter is_morsecode_char str)).


(** * Properties *)

(** ** Basic facts about the state and the monad *)

Lemma bind_eq {A B : Type} (c : M A) (k : A -> M B) (s s' : state) (a : A) :
  c s = Some (a, s') -> bind c k s = k a s'.
Proof. intros H; unfold bind; rewrite H; reflexivity. Qed.

Lemma kfifo_put_room (c : ascii) (s : state) :
  kfifo_is_full (flashed_codes_queue s) = false ->
  kfifo_put c s
  = Some (1, log (EvPut c true) (set_queue (flashed_codes_queue s ++ [c]) s)).
Proof. intros H; unfold kfifo_put; rewrite H; reflexivity. Qed.

Lemma kfifo_put_full (c : ascii) (s : state) :
  kfifo_is_full (flashed_codes_queue s) = true ->
  kfifo_put c s = Some (0, log (EvPut c false) s).
Proof. intros H; unfold kfifo_put; rewrite H; reflexivity. Qed.

Lemma kfifo_is_full_false (q : list ascii) :
  kfifo_is_full q = false <-> Z.of_nat (List.length q) < QUEUE_SIZE.
Proof. unfold kfifo_is_full; rewrite Z.leb_gt; reflexivity. Qed.

Lemma kfifo_is_full_true (q : list ascii) :
  kfifo_is_full q = true <-> QUEUE_SIZE <= Z.of_nat (List.length q).
Proof. unfold kfifo_is_full; rewrite Z.leb_le; reflexivity. Qed.

Lemma firstn_min_length {A : Type} (n : nat) (l : list A) :
  firstn (Nat.min n (List.length l)) l = firstn n l.
Proof. now rewrite <- firstn_firstn, firstn_all. Qed.

Lemma skipn_min_length {A : Type} (n : nat) (l : list A) :
  skipn (Nat.min n (List.length l)) l = skipn n l.
Proof.
  destruct (Nat.le_ge_cases n (List.length l)) as [Hle | Hge].
  - now rewrite Nat.min_l.
  - rewrite Nat.min_r by assumption.
    now rewrite skipn_all, (skipn_all2 _ Hge).
Qed.

Lemma QUEUE_SIZE_value : QUEUE_SIZE = 32768.
Proof. reflexivity. Qed.

Section Properties.

Variable dottime : Z.
Variable lock_ok : nat -> bool.

Lemma queue_lock_acquired (s : state) :
  lock_ok (lock_attempts s) = true ->
  queue_lock lock_ok s = Some (0, count_attempt (log (EvLock true) s)).
Proof.
  intros H; unfold queue_lock, mutex_lock_interruptible; rewrite H; reflexivity.
Qed.

Lemma queue_lock_interrupted (s : state) :
  lock_ok (lock_attempts s) = false ->
  queue_lock lock_ok s = Some (- EINTR, count_attempt (log (EvLock false) s)).
Proof.
  intros H; unfold queue_lock, mutex_lock_interruptible; rewrite H; reflexivity.
Qed.

(** ** The flush of a run *)

(** C4: with the lock acquired and room in the fifo, the flush of a run of
    [n] ON pulses queues one dot when [n = 1], one dash when [n = 3], and
    returns 0; for every other [n] it returns 0 and leaves the whole state
    as it was (no lock taken, nothing queued, no error). *)
Theorem put_valid_morsecode_into_queue_decodes (n : Z) (s : state)
  (Hlock : n = 1 \/ n = 3 -> lock_ok (lock_attempts s) = true)
  (Hroom : n = 1 \/ n = 3 -> kfifo_is_full (flashed_codes_queue s) = false) :
  exists s',
    put_valid_morsecode_into_queue lock_ok n s = Some (0, s')
    /\ flashed_codes_queue s'
       = flashed_codes_queue s
           ++ (if n =? 1 then [DOT_SYMBOL]
               else if n =? 3 then [DASH_SYMBOL] else [])
    /\ (n <> 1 -> n <> 3 -> s' = s).
Proof.
  unfold put_valid_morsecode_into_queue, ONES_IN_A_DOT, ONES_IN_A_DASH.
  destruct (Z.eqb_spec n 1) as [-> | N1].
  - simpl. rewrite (bind_eq _ _ _ _ _ (queue_lock_acquired s (Hlock (or_introl eq_refl)))).
    simpl. unfold bind at 1 2.
    rewrite kfifo_put_room by (apply Hroom; now left).
    eexists; split; [reflexivity | split; [reflexivity | congruence]].
  - destruct (Z.eqb_spec n 3) as [-> | N3].
    + simpl. rewrite (bind_eq _ _ _ _ _ (queue_lock_acquired s (Hlock (or_intror eq_refl)))).
      simpl. unfold bind at 1 2.
      rewrite kfifo_put_room by (apply Hroom; now right).
      eexists; split; [reflexivity | split; [reflexivity | congruence]].
    + simpl. exists s. split; [reflexivity | split; [ | reflexivity]].
      now rewrite app_nil_r.
Qed.

(** ** Reading *)

(** What one [my_read] does once it holds the lock and the destination can
    be written. *)
Lemma my_read_acquired (count : nat) (s : state) :
  lock_ok (lock_attempts s) = true ->
  let q := queue_before_copy (flashed_codes_queue s) in
  let n := Nat.min count (List.length q) in
  exists s',
    my_read lock_ok true count s = Some ((Z.of_nat n, firstn n q), s')
    /\ flashed_codes_queue s' = skipn n q
    /\ lock_attempts s' = S (lock_attempts s)
    /\ trace s'
       = trace s ++ [EvLock true]
           ++ match flashed_codes_queue s with
              | [] => []
              | _ => [EvPut NEWLINE (negb (kfifo_is_full (flashed_codes_queue s)))]
              end
           ++ [EvUnlock].
Proof.
  intros Hl q n. unfold my_read.
  rewrite (bind_eq _ _ _ _ _ (queue_lock_acquired s Hl)). cbn [Z.eqb negb].
  destruct s as [q0 tr k pos]. cbn [flashed_codes_queue] in *.
  destruct q0 as [| c q0].
  - subst q n. cbn. rewrite Nat.min_0_r. cbn.
    eexists; repeat split; cbn; rewrite <- ?app_assoc; reflexivity.
  - unfold bind at 1. cbn [kfifo_is_empty flashed_codes_queue count_attempt log negb].
    unfold bind at 1 2. unfold kfifo_put.
    cbn [flashed_codes_queue count_attempt log].
    subst q n. unfold queue_before_copy.
    destruct (kfifo_is_full (c :: q0)); cbn -[firstn skipn Nat.min Z.of_nat];
      eexists; repeat split; cbn -[firstn skipn Nat.min Z.of_nat];
      rewrite <- ?app_assoc; reflexivity.
Qed.

Lemma queue_before_copy_room (q : list ascii) :
  q <> [] -> kfifo_is_full q = false -> queue_before_copy q = q ++ [NEWLINE].
Proof.
  intros Hne Hroom. destruct q as [| c q]; [congruence |].
  unfold queue_before_copy. now rewrite Hroom.
Qed.

Lemma queue_before_copy_full (q : list ascii) :
  kfifo_is_full q = true -> queue_before_copy q = q.
Proof.
  intros Hfull. destruct q as [| c q]; [reflexivity |].
  unfold queue_before_copy. now rewrite Hfull.
Qed.

(** C5, as the code has it: a [my_read] that gets the lock, on a fifo that
    holds some bytes but fewer than its capacity, puts exactly one newline
    behind the queued bytes before it copies, and returns the number of
    bytes it copied; on an empty fifo it returns 0, copies nothing and
    puts no newline. *)
Theorem my_read_newline_when_room (count : nat) (s : state)
  (Hlock : lock_ok (lock_attempts s) = true) :
  (flashed_codes_queue s <> [] ->
   kfifo_is_full (flashed_codes_queue s) = false ->
   exists out s',
     my_read lock_ok true count s = Some ((Z.of_nat (List.length out), out), s')
     /\ out = firstn count (flashed_codes_queue s ++ [NEWLINE])
     /\ out ++ flashed_codes_queue s' = flashed_codes_queue s ++ [NEWLINE]
     /\ trace s' = trace s ++ [EvLock true; EvPut NEWLINE true; EvUnlock])
  /\ (flashed_codes_queue s = [] ->
      exists s',
        my_read lock_ok true count s = Some ((0, []), s')
        /\ flashed_codes_queue s' = []
        /\ trace s' = trace s ++ [EvLock true; EvUnlock]).
Proof.
  destruct (my_read_acquired count s Hlock) as (s' & Hr & Hq & _ & Ht).
  split.
  - intros Hne Hroom.
    rewrite (queue_before_copy_room _ Hne Hroom) in Hr, Hq.
    exists (firstn count (flashed_codes_queue s ++ [NEWLINE])), s'.
    rewrite length_firstn.
    rewrite firstn_min_length in Hr. rewrite skipn_min_length in Hq.
    repeat split.
    + exact Hr.
    + rewrite Hq. apply firstn_skipn.
    + rewrite Ht, Hroom.
      destruct (flashed_codes_queue s); [congruence | reflexivity].
  - intros Hempty. rewrite Hempty in *. cbn in Hr, Hq, Ht.
    rewrite Nat.min_0_r in Hr, Hq. cbn in Hr, Hq.
    exists s'. repeat split; assumption.
Qed.

(** C10: when the fifo holds its full capacity, the newline that [my_read]
    puts is dropped, so the bytes copied are queued symbols only: the
    oldest [count] bytes of the fifo as it was, with a newline among them
    only if one was queued before. *)
Theorem my_read_full_queue_drops_newline (count : nat) (s : state)
  (Hlock : lock_ok (lock_attempts s) = true)
  (Hfull : kfifo_is_full (flashed_codes_queue s) = true) :
  exists out s',
    my_read lock_ok true count s = Some ((Z.of_nat (List.length out), out), s')
    /\ out = firstn count (flashed_codes_queue s)
    /\ flashed_codes_queue s' = skipn count (flashed_codes_queue s)
    /\ trace s' = trace s ++ [EvLock true; EvPut NEWLINE false; EvUnlock]
    /\ ((0 < count)%nat -> out <> [])
    /\ (~ In NEWLINE (flashed_codes_queue s) -> ~ In NEWLINE out).
Proof.
  destruct (my_read_acquired count s Hlock) as (s' & Hr & Hq & _ & Ht).
  rewrite (queue_before_copy_full _ Hfull) in Hr, Hq.
  rewrite firstn_min_length in Hr. rewrite skipn_min_length in Hq.
  exists (firstn count (flashed_codes_queue s)), s'.
  rewrite length_firstn. repeat split.
  - exact Hr.
  - exact Hq.
  - rewrite Ht, Hfull.
    apply kfifo_is_full_true in Hfull. rewrite QUEUE_SIZE_value in Hfull.
    destruct (flashed_codes_queue s); [cbn in Hfull; lia | reflexivity].
  - intros Hpos Hnil.
    apply kfifo_is_full_true in Hfull. rewrite QUEUE_SIZE_value in Hfull.
    destruct (flashed_codes_queue s); [cbn in Hfull; lia |].
    destruct count; [lia | discriminate].
  - intros Hno Hin. apply Hno.
    rewrite <- (firstn_skipn count (flashed_codes_queue s)).
    apply in_or_app. now left.
Qed.



(** ** Letters of either case *)

Lemma upper_to_lower (ch : ascii) :
  is_upper ch = true ->
  is_lower ch = false
  /\ is_lower (to_lower ch) = true
  /\ (code ch - code "A")%nat = (code (to_lower ch) - code "a")%nat.
Proof.
  destruct ch as [b0 b1 b2 b3 b4 b5 b6 b7].
  destruct b0, b1, b2, b3, b4, b5, b6, b7; intros H;
    try (vm_compute in H; discriminate H); repeat split; reflexivity.
Qed.

(** C9: [process_morsecode] takes the same table entry for an upper-case
    letter as for its lower-case form and then does the same with it, so
    both calls leave the same queue, the same pulses and the same result. *)
Theorem process_morsecode_case_insensitive
  (ch : ascii) (is_not_first_char : bool) (s : state)
  (Hupper : is_upper ch = true) :
  nth (code ch - code "A") letter_to_morsecode_bits_map 0
  = nth (code (to_lower ch) - code "a") letter_to_morsecode_bits_map 0
  /\ process_morsecode dottime lock_ok ch is_not_first_char s
     = process_morsecode dottime lock_ok (to_lower ch) is_not_first_char s.
Proof.
  destruct (upper_to_lower ch Hupper) as (Hl & Hl' & Hidx).
  split.
  - now rewrite Hidx.
  - unfold process_morsecode. rewrite Hl, Hl', Hupper, Hidx. reflexivity.
Qed.

(** ** Writing a buffer without letters *)

Lemma user_string_app (pre suf : list ascii) (ch : ascii) :
  user_string (pre ++ ch :: suf) (List.length pre) = Some ch.
Proof.
  unfold user_string. rewrite nth_error_app2 by lia.
  now rewrite Nat.sub_diag.
Qed.

Lemma scan_to_letter_no_letter (suf pre : list ascii) :
  forallb (fun ch => negb (is_letter ch)) suf = true ->
  scan_to_letter (List.length suf) (user_string (pre ++ suf)) (List.length pre)
  = Some (List.length pre + List.length suf)%nat.
Proof.
  revert pre. induction suf as [| ch suf IH]; intros pre Hno.
  - cbn. now rewrite Nat.add_0_r.
  - cbn in Hno. apply andb_prop in Hno. destruct Hno as [Hch Hsuf].
    cbn [List.length scan_to_letter]. rewrite user_string_app.
    apply negb_true_iff in Hch. rewrite Hch, andb_false_r.
    replace (pre ++ ch :: suf) with ((pre ++ [ch]) ++ suf)
      by now rewrite <- app_assoc.
    replace (S (List.length pre)) with (List.length (pre ++ [ch]))
      by (rewrite length_app; cbn; lia).
    rewrite (IH _ Hsuf). rewrite length_app. cbn. f_equal. lia.
Qed.

(** C8: a [my_write] of a buffer without any letter (empty, or made of
    spaces and other bytes only) takes no lock and queues nothing: it only
    advances the file offset and returns the byte count; on a fifo that
    was empty, the [my_read] that follows returns 0 and copies nothing. *)
Theorem my_write_without_letters (str : list ascii) (s : state)
  (Hno : forallb (fun ch => negb (is_letter ch)) str = true) :
  let s' := add_pos (Z.of_nat (List.length str)) s in
  my_write dottime lock_ok (user_string str) (List.length str) s
  = Some (Z.of_nat (List.length str), s')
  /\ flashed_codes_queue s' = flashed_codes_queue s
  /\ trace s' = trace s
  /\ (flashed_codes_queue s = [] ->
      lock_ok (lock_attempts s) = true ->
      forall count, exists s'',
        my_read lock_ok true count s' = Some ((0, []), s'')
        /\ flashed_codes_queue s'' = []).
Proof.
  intros s'. unfold my_write.
  pose proof (scan_to_letter_no_letter str [] Hno) as Hscan.
  cbn [app List.length Nat.add] in Hscan. rewrite Hscan.
  assert (Hloop : forall fuel b,
             my_write_loop dottime lock_ok fuel (user_string str)
                           (List.length str) (List.length str) b s
             = Some (Z.of_nat (List.length str), s')).
  { intros fuel b. destruct fuel; cbn [my_write_loop];
      rewrite Nat.leb_refl; reflexivity. }
  rewrite Hloop. repeat split.
  intros Hempty Hlock count.
  destruct (my_read_acquired count s' Hlock) as (s'' & Hr & Hq & _).
  cbn [s' add_pos flashed_codes_queue] in Hr, Hq.
  rewrite Hempty in Hr, Hq. cbn in Hr, Hq.
  rewrite Nat.min_0_r in Hr, Hq. cbn in Hr, Hq.
  exists s''. split; assumption.
Qed.


(** ** The pulse generator and its run-length decoder *)

Lemma fifo_puts_app (q l1 l2 : list ascii) :
  fifo_puts q (l1 ++ l2) = fifo_puts (fifo_puts q l1) l2.
Proof. unfold fifo_puts. apply fold_left_app. Qed.

Lemma fifo_puts_room (l q : list ascii) :
  Z.of_nat (List.length q) + Z.of_nat (List.length l) <= QUEUE_SIZE ->
  fifo_puts q l = q ++ l.
Proof.
  revert q. induction l as [| c l IH]; intros q Hroom.
  - cbn. now rewrite app_nil_r.
  - cbn [fifo_puts fold_left]. cbn [List.length] in Hroom.
    replace (kfifo_is_full q) with false
      by (symmetry; apply kfifo_is_full_false; lia).
    fold (fifo_puts (q ++ [c]) l). rewrite IH.
    + now rewrite <- app_assoc.
    + rewrite length_app. cbn [List.length]. lia.
Qed.

Lemma kfifo_put_queue (c : ascii) (s : state) :
  exists r s',
    kfifo_put c s = Some (r, s')
    /\ flashed_codes_queue s' = fifo_puts (flashed_codes_queue s) [c].
Proof.
  unfold kfifo_put, fifo_puts. cbn [fold_left].
  destruct (kfifo_is_full (flashed_codes_queue s));
    eexists; eexists; split; reflexivity.
Qed.

Lemma flat_map_run_symbol_flush (k : nat) (rest : list nat) :
  flat_map run_symbol ((if (k =? 0)%nat then [] else [k]) ++ rest)
  = run_symbol k ++ flat_map run_symbol rest.
Proof.
  destruct k as [| k]; [reflexivity |].
  cbn [Nat.eqb app flat_map]. reflexivity.
Qed.

Lemma top_bits_zero (n : nat) : top_bits n 0 = repeat false n.
Proof.
  unfold top_bits.
  rewrite (map_ext _ (fun _ => false)) by (intros; apply Z.testbit_0_l).
  rewrite map_const, length_seq. reflexivity.
Qed.

Lemma runs_from_zeros (n k : nat) :
  flat_map run_symbol (runs_from k (repeat false n)) = run_symbol k.
Proof.
  revert k. induction n as [| n IH]; intros k.
  - cbn. destruct k; [reflexivity | cbn; now rewrite app_nil_r].
  - cbn [repeat runs_from]. rewrite flat_map_run_symbol_flush, IH.
    cbn. now rewrite app_nil_r.
Qed.

Lemma shl1_range (m : Z) : 0 <= shl1 m < 65536.
Proof. unfold shl1. change USHORT_MODULUS with 65536. apply Z.mod_pos_bound. lia. Qed.

Lemma shl1_testbit (m : Z) (i : nat) :
  (i < 15)%nat ->
  Z.testbit (shl1 m) (Z.of_nat (15 - i)) = Z.testbit m (Z.of_nat (15 - S i)).
Proof.
  intros Hi. unfold shl1. change USHORT_MODULUS with (2 ^ 16).
  rewrite Z.mod_pow2_bits_low by lia.
  rewrite Z.shiftl_spec by lia.
  f_equal. lia.
Qed.

Lemma top_bits_succ (n : nat) (m : Z) :
  (n <= 15)%nat ->
  top_bits (S n) m = Z.testbit m 15 :: top_bits n (shl1 m).
Proof.
  intros Hn. unfold top_bits. cbn [seq map]. f_equal.
  rewrite <- seq_shift, map_map.
  apply map_ext_in. intros i Hi. apply in_seq in Hi.
  symmetry. apply shl1_testbit. lia.
Qed.

Lemma leftmost_bit_testbit (m : Z) :
  0 <= m < 65536 ->
  ((Z.shiftr m (SIZEOF_UNSIGNED_SHORT * BITS_IN_A_BYTE - 1)) mod 256 =? 1)
  = Z.testbit m 15.
Proof.
  intros Hm. change (SIZEOF_UNSIGNED_SHORT * BITS_IN_A_BYTE - 1) with 15.
  rewrite <- (Z.add_0_l 15) at 2. rewrite <- Z.shiftr_spec by lia.
  rewrite Z.bit0_odd, Z.shiftr_div_pow2 by lia.
  assert (Hd : 0 <= m / 2 ^ 15 < 2).
  { split; [apply Z.div_pos; lia | apply Z.div_lt_upper_bound; lia]. }
  assert (Hc : m / 2 ^ 15 = 0 \/ m / 2 ^ 15 = 1) by lia.
  destruct Hc as [-> | ->]; reflexivity.
Qed.


Lemma shl1_aligned (fuel : nat) (j : Z) :
  (fuel <= 15)%nat ->
  shl1 (2 ^ (16 - Z.of_nat (S fuel)) * j)
  = 2 ^ (16 - Z.of_nat fuel) * (j mod 2 ^ Z.of_nat fuel).
Proof.
  intros Hf. unfold shl1. change USHORT_MODULUS with (2 ^ 16).
  rewrite Z.shiftl_mul_pow2 by lia.
  replace (2 ^ (16 - Z.of_nat (S fuel)) * j * 2 ^ 1)
    with (2 ^ (16 - Z.of_nat fuel) * j).
  - replace (2 ^ 16) with (2 ^ (16 - Z.of_nat fuel) * 2 ^ Z.of_nat fuel).
    + apply Zmult_mod_distr_l.
    + rewrite <- Z.pow_add_r by lia. f_equal. lia.
  - replace (16 - Z.of_nat fuel) with (16 - Z.of_nat (S fuel) + 1) by lia.
    rewrite Z.pow_add_r by lia. ring.
Qed.

Lemma aligned_range (fuel : nat) (j : Z) :
  (fuel <= 16)%nat -> 0 <= j < 2 ^ Z.of_nat fuel ->
  0 <= 2 ^ (16 - Z.of_nat fuel) * j < 65536.
Proof.
  intros Hf Hj.
  assert (Hp : 0 < 2 ^ (16 - Z.of_nat fuel)) by (apply Z.pow_pos_nonneg; lia).
  split; [nia |].
  replace 65536 with (2 ^ (16 - Z.of_nat fuel) * 2 ^ Z.of_nat fuel).
  - nia.
  - rewrite <- Z.pow_add_r by lia.
    replace (16 - Z.of_nat fuel + Z.of_nat fuel) with 16 by lia. reflexivity.
Qed.

Section AllLocksAcquired.

Hypothesis Hok : forall n, lock_ok n = true.

Lemma put_valid_queue (k : nat) (s : state) :
  exists s',
    put_valid_morsecode_into_queue lock_ok (Z.of_nat k) s = Some (0, s')
    /\ flashed_codes_queue s' = fifo_puts (flashed_codes_queue s) (run_symbol k).
Proof.
  assert (Hput : forall c, exists s',
             bind (queue_lock lock_ok)
                  (fun r => if negb (r =? 0) then ret (- EFAULT)
                            else (kfifo_put c ;; ret tt) ;; queue_unlock ;; ret 0) s
             = Some (0, s')
             /\ flashed_codes_queue s' = fifo_puts (flashed_codes_queue s) [c]).
  { intros c.
    rewrite (bind_eq _ _ _ _ _ (queue_lock_acquired s (Hok _))).
    cbn [Z.eqb negb].
    destruct (kfifo_put_queue c (count_attempt (log (EvLock true) s)))
      as (r & s1 & Hp & Hq).
    unfold bind at 1 2. rewrite Hp.
    eexists; split; [reflexivity | exact Hq]. }
  unfold put_valid_morsecode_into_queue, ONES_IN_A_DOT, ONES_IN_A_DASH.
  destruct k as [| [| [| [| k]]]].
  - exists s; split; reflexivity.
  - apply Hput.
  - exists s; split; reflexivity.
  - apply Hput.
  - replace (Z.of_nat (S (S (S (S k)))) =? 1) with false by (symmetry; apply Z.eqb_neq; lia).
    replace (Z.of_nat (S (S (S (S k)))) =? 3) with false by (symmetry; apply Z.eqb_neq; lia).
    exists s; split; reflexivity.
Qed.

(** The code after the loop of [flash_morsecode]. *)
Lemma flash_exit_queue (fuel : nat) (k : nat) (s : state) :
  exists s',
    flash_morsecode_loop dottime lock_ok fuel 0 (Z.of_nat k) s = Some (0, s')
    /\ flashed_codes_queue s' = fifo_puts (flashed_codes_queue s) (run_symbol k).
Proof.
  destruct (put_valid_queue k s) as (s1 & Hp & Hq).
  destruct fuel; cbn [flash_morsecode_loop Z.eqb];
    rewrite (bind_eq _ _ _ _ _ Hp); cbn [Z.eqb negb];
    (eexists; split; [reflexivity | exact Hq]).
Qed.

(** The run-length decoder: with every lock acquired, the loop queues the
    symbol of each maximal run of 1 bits, in order. *)
Lemma flash_morsecode_loop_queue (fuel : nat) :
  forall (j : Z) (k : nat) (s : state),
    (fuel <= 16)%nat -> 0 <= j < 2 ^ Z.of_nat fuel ->
    let m := 2 ^ (16 - Z.of_nat fuel) * j in
    exists s',
      flash_morsecode_loop dottime lock_ok fuel m (Z.of_nat k) s = Some (0, s')
      /\ flashed_codes_queue s'
         = fifo_puts (flashed_codes_queue s)
                     (flat_map run_symbol (runs_from k (top_bits fuel m))).
Proof.
  induction fuel as [| fuel IH]; intros j k s Hf Hj m.
  - assert (j = 0) by (cbn in Hj; lia). subst j m.
    rewrite Z.mul_0_r. cbn [top_bits seq map runs_from].
    destruct (flash_exit_queue 0 k s) as (s' & He & Hq).
    exists s'; split; [exact He |]. rewrite Hq. f_equal.
    destruct k; [reflexivity | cbn; now rewrite app_nil_r].
  - destruct (Z.eq_dec m 0) as [Hz | Hnz].
    + rewrite Hz, top_bits_zero, runs_from_zeros. apply flash_exit_queue.
    + pose proof (aligned_range (S fuel) j Hf Hj) as Hrange. fold m in Hrange.
      cbn [flash_morsecode_loop].
      replace (m =? 0) with false by (symmetry; now apply Z.eqb_neq).
      rewrite (leftmost_bit_testbit m Hrange).
      rewrite top_bits_succ by lia.
      assert (Hj' : 0 <= j mod 2 ^ Z.of_nat fuel < 2 ^ Z.of_nat fuel).
      { apply Z.mod_pos_bound. apply Z.pow_pos_nonneg; lia. }
      assert (Hs : shl1 m = 2 ^ (16 - Z.of_nat fuel) * (j mod 2 ^ Z.of_nat fuel))
        by (unfold m; apply shl1_aligned; lia).
      clearbody m. rewrite Hs.
      destruct (Z.testbit m 15).
      * cbn [runs_from]. unfold bind at 1 2. cbn [led_trigger_event msleep emit].
        replace (Z.of_nat k + 1) with (Z.of_nat (S k)) by lia.
        destruct (IH _ (S k) (log (EvSleep dottime) (log (EvLed LED_FULL) s))
                     ltac:(lia) Hj') as (s' & He & Hq).
        exists s'; split; [exact He | exact Hq].
      * cbn [runs_from]. rewrite flat_map_run_symbol_flush, fifo_puts_app.
        destruct (put_valid_queue k s) as (s1 & Hp & Hq1).
        rewrite (bind_eq _ _ _ _ _ Hp). cbn [Z.eqb negb].
        unfold bind at 1 2. cbn [led_trigger_event msleep emit].
        destruct (IH _ 0%nat (log (EvSleep dottime) (log (EvLed LED_OFF) s1))
                     ltac:(lia) Hj') as (s' & He & Hq).
        exists s'; split; [exact He |]. rewrite Hq. cbn [flashed_codes_queue log].
        now rewrite Hq1.
Qed.

Lemma flash_morsecode_queue (m : Z) (s : state) :
  0 <= m < 65536 ->
  exists s',
    flash_morsecode dottime lock_ok m s = Some (0, s')
    /\ flashed_codes_queue s'
       = fifo_puts (flashed_codes_queue s)
                   (flat_map run_symbol (runs (pattern_bits m))).
Proof.
  intros Hm. unfold flash_morsecode, runs, pattern_bits.
  change (Z.to_nat (SIZEOF_UNSIGNED_SHORT * BITS_IN_A_BYTE)) with 16%nat.
  pose proof (flash_morsecode_loop_queue 16 m 0%nat s ltac:(lia)) as H.
  change (2 ^ Z.of_nat 16) with 65536 in H.
  change (2 ^ (16 - Z.of_nat 16)) with 1 in H.
  rewrite Z.mul_1_l in H. exact (H Hm).
Qed.

End AllLocksAcquired.


(** Every entry of the table is a 16-bit pattern whose runs of 1 bits spell
    the Morse code of its letter. *)
Lemma letter_table_runs (i : nat) :
  (i < 26)%nat ->
  let m := nth i letter_to_morsecode_bits_map 0 in
  let canon := chars (nth i morse_alphabet ""%string) in
  0 <= m < 65536
  /\ flat_map run_symbol (runs (pattern_bits m)) = canon
  /\ List.length (runs (pattern_bits m)) = List.length canon
  /\ (List.length canon <= 4)%nat.
Proof.
  intros Hi.
  do 26 (destruct i as [| i];
         [ cbv [nth letter_to_morsecode_bits_map morse_alphabet];
           split; [lia | vm_compute; repeat split; try reflexivity; lia] | ]).
  lia.
Qed.

(** C2: for each of the 26 letters, with every lock acquired and room for
    four symbols in the fifo, [flash_morsecode] on the letter's table entry
    queues exactly the Morse code of the letter, one symbol for each
    maximal run of 1 bits read from the most significant bit down.  The
    entry of R is 0xBA00, its runs are 1, 3, 1 and it queues [.-.]. *)
Theorem flash_morsecode_letter (i : nat) (s : state)
  (Hi : (i < 26)%nat)
  (Hok : forall n, lock_ok n = true)
  (Hroom : Z.of_nat (List.length (flashed_codes_queue s)) + 4 <= QUEUE_SIZE) :
  let m := nth i letter_to_morsecode_bits_map 0 in
  let canon := chars (nth i morse_alphabet ""%string) in
  (exists s',
      flash_morsecode dottime lock_ok m s = Some (0, s')
      /\ flashed_codes_queue s' = flashed_codes_queue s ++ canon)
  /\ canon = flat_map run_symbol (runs (pattern_bits m))
  /\ List.length canon = List.length (runs (pattern_bits m))
  /\ nth 17 letter_to_morsecode_bits_map 0 = 0xBA00
  /\ runs (pattern_bits 0xBA00) = [1; 3; 1]%nat
  /\ chars (nth 17 morse_alphabet ""%string)
     = [DOT_SYMBOL; DASH_SYMBOL; DOT_SYMBOL].
Proof.
  intros m canon.
  destruct (letter_table_runs i Hi) as (Hm & Hruns & Hlen & Hfour).
  fold m canon in Hm, Hruns, Hlen, Hfour.
  repeat split; try reflexivity; try congruence.
  destruct (flash_morsecode_queue Hok m s Hm) as (s' & Hf & Hq).
  exists s'. split; [exact Hf |].
  rewrite Hq, Hruns. apply fifo_puts_room. lia.
Qed.


(** ** Writing a text *)

Lemma is_lower_range (ch : ascii) :
  is_lower ch = true -> (97 <= code ch <= 122)%nat.
Proof.
  unfold is_lower. change (code "a") with 97%nat. change (code "z") with 122%nat.
  intros H. apply andb_prop in H. destruct H as [H1 H2].
  apply Nat.leb_le in H1, H2. lia.
Qed.

Lemma is_upper_range (ch : ascii) :
  is_upper ch = true -> (65 <= code ch <= 90)%nat.
Proof.
  unfold is_upper. change (code "A") with 65%nat. change (code "Z") with 90%nat.
  intros H. apply andb_prop in H. destruct H as [H1 H2].
  apply Nat.leb_le in H1, H2. lia.
Qed.

Lemma is_space_code (ch : ascii) : is_space ch = true -> code ch = 32%nat.
Proof.
  unfold is_space. change (code " ") with 32%nat. apply Nat.eqb_eq.
Qed.

Lemma is_space_not_letter (ch : ascii) :
  is_space ch = true -> is_lower ch = false /\ is_upper ch = false.
Proof.
  intros H. apply is_space_code in H.
  split.
  - destruct (is_lower ch) eqn:E; [apply is_lower_range in E; lia | reflexivity].
  - destruct (is_upper ch) eqn:E; [apply is_upper_range in E; lia | reflexivity].
Qed.

Lemma is_letter_not_space (ch : ascii) :
  is_letter ch = true -> is_space ch = false.
Proof.
  intros H. destruct (is_space ch) eqn:E; [| reflexivity].
  destruct (is_space_not_letter ch E) as [Hl Hu].
  unfold is_letter in H. rewrite Hl, Hu in H. discriminate.
Qed.

Lemma alphabet_index_bound (ch : ascii) :
  is_letter ch = true -> (alphabet_index ch < 26)%nat.
Proof.
  unfold is_letter, alphabet_index. intros H.
  change (code "a") with 97%nat. change (code "A") with 65%nat.
  destruct (is_lower ch) eqn:El.
  - apply is_lower_range in El. lia.
  - cbn in H. apply is_upper_range in H. lia.
Qed.

Lemma morse_runs (ch : ascii) :
  is_letter ch = true ->
  let m := nth (alphabet_index ch) letter_to_morsecode_bits_map 0 in
  0 <= m < 65536 /\ flat_map run_symbol (runs (pattern_bits m)) = morse ch.
Proof.
  intros H m.
  destruct (letter_table_runs _ (alphabet_index_bound ch H)) as (Hm & Hr & _).
  split; [exact Hm | exact Hr].
Qed.

Lemma morse_not_empty (ch : ascii) : is_letter ch = true -> morse ch <> [].
Proof.
  intros H. unfold morse.
  pose proof (alphabet_index_bound ch H) as Hi.
  generalize dependent (alphabet_index ch). intros i Hi.
  do 26 (destruct i as [| i]; [discriminate |]). lia.
Qed.


Section WritingText.

Hypothesis Hok : forall n, lock_ok n = true.

Lemma process_morsecode_letter (ch : ascii) (b : bool) (s : state) :
  is_letter ch = true ->
  exists s',
    process_morsecode dottime lock_ok ch b s = Some (0, s')
    /\ flashed_codes_queue s'
       = fifo_puts (flashed_codes_queue s)
                   ((if b then [SEPARATOR_SYMBOL] else []) ++ morse ch).
Proof.
  intros Hl.
  destruct (morse_runs ch Hl) as (Hm & Hruns).
  assert (Hsep : exists s1,
             (if b
              then
                r <- queue_lock lock_ok ;;
                if negb (r =? 0) then ret (- EFAULT)
                else
                  kfifo_put SEPARATOR_SYMBOL ;;
                  queue_unlock ;;
                  msleep ((INTER_LETTER_DOTTIMES - 1) * dottime) ;;
                  ret 0
              else ret 0) s = Some (0, s1)
             /\ flashed_codes_queue s1
                = fifo_puts (flashed_codes_queue s)
                            (if b then [SEPARATOR_SYMBOL] else [])).
  { destruct b.
    - rewrite (bind_eq _ _ _ _ _ (queue_lock_acquired s (Hok _))).
      cbn [Z.eqb negb].
      destruct (kfifo_put_queue SEPARATOR_SYMBOL
                                (count_attempt (log (EvLock true) s)))
        as (r & s1 & Hp & Hq).
      rewrite (bind_eq _ _ _ _ _ Hp).
      eexists; split; [reflexivity | exact Hq].
    - exists s; split; reflexivity. }
  destruct Hsep as (s1 & Hs1 & Hq1).
  destruct (flash_morsecode_queue Hok _ s1 Hm) as (s' & Hf & Hq).
  exists s'. split.
  - unfold process_morsecode, alphabet_index in *.
    destruct (is_lower ch) eqn:El.
    + rewrite (bind_eq _ _ _ _ _ Hs1). cbn [Z.eqb negb].
      rewrite (bind_eq _ _ _ _ _ Hf). reflexivity.
    + unfold is_letter in Hl. rewrite El in Hl. cbn in Hl. rewrite Hl.
      rewrite (bind_eq _ _ _ _ _ Hs1). cbn [Z.eqb negb].
      rewrite (bind_eq _ _ _ _ _ Hf). reflexivity.
  - rewrite Hq, Hq1, Hruns. symmetry. apply fifo_puts_app.
Qed.

Lemma process_morsecode_space (ch : ascii) (b : bool) (s : state) :
  is_space ch = true ->
  exists s',
    process_morsecode dottime lock_ok ch b s = Some (0, s')
    /\ flashed_codes_queue s'
       = fifo_puts (flashed_codes_queue s)
                   [SEPARATOR_SYMBOL; SEPARATOR_SYMBOL].
Proof.
  intros Hs. destruct (is_space_not_letter ch Hs) as [Hl Hu].
  unfold process_morsecode. rewrite Hl, Hu, Hs.
  rewrite (bind_eq _ _ _ _ _ (queue_lock_acquired s (Hok _))).
  cbn [Z.eqb negb].
  destruct (kfifo_put_queue SEPARATOR_SYMBOL
                            (count_attempt (log (EvLock true) s)))
    as (r1 & s1 & Hp1 & Hq1).
  destruct (kfifo_put_queue SEPARATOR_SYMBOL s1) as (r2 & s2 & Hp2 & Hq2).
  rewrite (bind_eq _ _ _ _ _ Hp1), (bind_eq _ _ _ _ _ Hp2).
  eexists; split; [reflexivity |].
  cbn [flashed_codes_queue log]. rewrite Hq2, Hq1. reflexivity.
Qed.

(** The main loop of [my_write] on a regular tail of the buffer. *)
Lemma my_write_loop_regular (suf : list ascii) :
  forall (pre : list ascii) (has : bool) (s : state) (fuel : nat),
    regular suf = true ->
    (List.length suf <= fuel)%nat ->
    exists s',
      my_write_loop dottime lock_ok fuel (user_string (pre ++ suf))
                    (List.length (pre ++ suf)) (List.length pre) has s
      = Some (Z.of_nat (List.length (pre ++ suf)), s')
      /\ flashed_codes_queue s'
         = fifo_puts (flashed_codes_queue s) (char_stream has suf).
Proof.
  induction suf as [| ch rest IH]; intros pre has s fuel Hreg Hfuel.
  - rewrite app_nil_r.
    exists (add_pos (Z.of_nat (List.length pre)) s).
    destruct fuel; cbn [my_write_loop]; rewrite Nat.leb_refl;
      split; reflexivity.
  - destruct fuel as [| fuel]; [cbn in Hfuel; lia |].
    cbn [List.length] in Hfuel.
    assert (Hcount : List.length (pre ++ ch :: rest)
                     = (List.length pre + S (List.length rest))%nat)
      by (rewrite length_app; reflexivity).
    assert (Hstep : pre ++ ch :: rest = (pre ++ [ch]) ++ rest)
      by now rewrite <- app_assoc.
    assert (Hlen : S (List.length pre) = List.length (pre ++ [ch]))
      by (rewrite length_app; cbn; lia).
    cbn [my_write_loop].
    replace (List.length (pre ++ ch :: rest) <=? List.length pre)%nat
      with false by (symmetry; apply Nat.leb_gt; lia).
    rewrite user_string_app.
    cbn [regular] in Hreg. apply andb_prop in Hreg. destruct Hreg as [Hch Hrest].
    cbn [char_stream]. rewrite fifo_puts_app.
    destruct (is_space ch) eqn:Hsp.
    + destruct rest as [| next rest']; [discriminate Hch |].
      (* the peek loop stops at once, on the letter behind the space *)
      replace (List.length (pre ++ ch :: next :: rest') - S (List.length pre))%nat
        with (S (List.length rest')) by (rewrite Hcount; cbn; lia).
      cbn [scan_to_letter].
      assert (Hnext : user_string (pre ++ ch :: next :: rest')
                                  (S (List.length pre)) = Some next)
        by (rewrite Hstep, Hlen; apply user_string_app).
      rewrite Hnext, Hch, (is_letter_not_space _ Hch). cbn [negb andb].
      replace (List.length (pre ++ ch :: next :: rest') <=? S (List.length pre))%nat
        with false by (symmetry; apply Nat.leb_gt; rewrite Hcount; cbn; lia).
      replace (S (List.length pre) - 1)%nat with (List.length pre) by lia.
      unfold is_morsecode_char. rewrite Hsp, orb_true_r.
      destruct (process_morsecode_space ch has s Hsp) as (s1 & Hp & Hq1).
      rewrite (bind_eq _ _ _ _ _ Hp). cbn [Z.eqb negb].
      rewrite Hstep, Hlen.
      destruct (IH (pre ++ [ch]) true s1 fuel Hrest ltac:(lia)) as (s' & Hw & Hq).
      exists s'. split; [exact Hw |]. now rewrite Hq, Hq1.
    + unfold is_morsecode_char. rewrite Hch. cbn [orb].
      destruct (process_morsecode_letter ch has s Hch) as (s1 & Hp & Hq1).
      rewrite (bind_eq _ _ _ _ _ Hp). cbn [Z.eqb negb].
      rewrite Hstep, Hlen.
      destruct (IH (pre ++ [ch]) true s1 fuel Hrest ltac:(lia)) as (s' & Hw & Hq).
      exists s'. split; [exact Hw |]. now rewrite Hq, Hq1.
Qed.

End WritingText.


(** ** Words of a text and the stream queued for them *)

Lemma join_cons (sep l : list ascii) (ls : list (list ascii)) :
  join sep (l :: ls)
  = l ++ match ls with [] => [] | _ => sep ++ join sep ls end.
Proof. destruct ls; cbn [join]; [now rewrite app_nil_r | reflexivity]. Qed.

Lemma split_words_not_nil (str : list ascii) : split_words str <> [].
Proof.
  destruct str as [| ch rest]; cbn [split_words]; [discriminate |].
  destruct (is_space ch); [discriminate |].
  destruct (split_words rest); discriminate.
Qed.

Lemma split_words_letter (ch : ascii) (rest : list ascii) :
  is_space ch = false ->
  exists w ws,
    split_words rest = w :: ws /\ split_words (ch :: rest) = (ch :: w) :: ws.
Proof.
  intros Hsp. cbn [split_words]. rewrite Hsp.
  destruct (split_words rest) as [| w ws] eqn:E.
  - now apply split_words_not_nil in E.
  - exists w, ws. split; reflexivity.
Qed.

(** How the first word of a tail shows in its first character. *)
Lemma first_word_head (rest w : list ascii) (ws : list (list ascii)) :
  split_words rest = w :: ws ->
  forallb is_letter w = true ->
  (w = [] /\ leading_separator true rest = [])
  \/ (exists c w' r,
         w = c :: w' /\ rest = c :: r /\ is_letter c = true
         /\ leading_separator true rest = [SEPARATOR_SYMBOL]).
Proof.
  intros Hsplit Hw. destruct rest as [| x r].
  - cbn in Hsplit. inversion Hsplit; subst. left. split; reflexivity.
  - destruct (is_space x) eqn:Hsp.
    + cbn [split_words] in Hsplit. rewrite Hsp in Hsplit.
      inversion Hsplit; subst. left. cbn. rewrite Hsp. split; reflexivity.
    + destruct (split_words_letter x r Hsp) as (w0 & ws0 & _ & E).
      rewrite E in Hsplit. inversion Hsplit; subst.
      right. exists x, w0, r. cbn in Hw. apply andb_prop in Hw.
      cbn. rewrite Hsp. repeat split; tauto.
Qed.

Lemma well_formed_tail_rest (ch : ascii) (rest : list ascii) :
  well_formed_tail (ch :: rest) = true ->
  well_formed_tail rest = true
  /\ (if is_space ch then well_formed rest = true else is_letter ch = true).
Proof.
  unfold well_formed_tail, well_formed. destruct (is_space ch) eqn:Hsp.
  - cbn [split_words]. rewrite Hsp. cbn [forallb andb]. intros H.
    split; [| exact H].
    destruct (split_words rest) as [| w ws] eqn:E;
      [now apply split_words_not_nil in E |].
    cbn [forallb] in H. apply andb_prop in H. destruct H as [Hw Hws].
    unfold letter_word in Hw. apply andb_prop in Hw. destruct Hw as [_ Hw].
    now rewrite Hw, Hws.
  - destruct (split_words_letter ch rest Hsp) as (w & ws & E1 & E2).
    rewrite E1, E2. cbn [forallb]. intros H.
    apply andb_prop in H. destruct H as [H Hws].
    apply andb_prop in H. destruct H as [Hch Hw].
    now rewrite Hw, Hws.
Qed.

Lemma well_formed_head (rest : list ascii) :
  well_formed rest = true ->
  exists c r, rest = c :: r /\ is_letter c = true
              /\ leading_separator true rest = [SEPARATOR_SYMBOL].
Proof.
  unfold well_formed. intros H.
  destruct (split_words rest) as [| w ws] eqn:E;
    [now apply split_words_not_nil in E |].
  cbn [forallb] in H. apply andb_prop in H. destruct H as [Hw _].
  unfold letter_word in Hw. apply andb_prop in Hw. destruct Hw as [Hne Hw].
  destruct (first_word_head rest w ws E Hw)
    as [[-> _] | (c & w' & r & _ & -> & Hc & Hlead)].
  - discriminate Hne.
  - exists c, r. repeat split; assumption.
Qed.

Lemma well_formed_is_tail (str : list ascii) :
  well_formed str = true -> well_formed_tail str = true.
Proof.
  unfold well_formed, well_formed_tail.
  destruct (split_words str) as [| w ws] eqn:E;
    [now apply split_words_not_nil in E |].
  cbn [forallb]. intros H. apply andb_prop in H. destruct H as [Hw Hws].
  unfold letter_word in Hw. apply andb_prop in Hw. destruct Hw as [_ Hw].
  now rewrite Hw, Hws.
Qed.

Lemma well_formed_tail_regular (suf : list ascii) :
  well_formed_tail suf = true -> regular suf = true.
Proof.
  induction suf as [| ch rest IH]; intros H; [reflexivity |].
  destruct (well_formed_tail_rest ch rest H) as [Hrest Hch].
  cbn [regular]. rewrite (IH Hrest), andb_true_r.
  destruct (is_space ch); [| exact Hch].
  destruct (well_formed_head rest Hch) as (c & r & -> & Hc & _). exact Hc.
Qed.

Lemma char_stream_words (suf : list ascii) :
  forall has,
    well_formed_tail suf = true ->
    char_stream has suf = leading_separator has suf ++ queued_stream suf.
Proof.
  induction suf as [| ch rest IH]; intros has H; [reflexivity |].
  destruct (well_formed_tail_rest ch rest H) as [Hrest Hch].
  cbn [char_stream leading_separator]. rewrite (IH true Hrest).
  unfold queued_stream. destruct (is_space ch) eqn:Hsp.
  - destruct (well_formed_head rest Hch) as (c & r & _ & _ & ->).
    cbn [split_words]. rewrite Hsp. cbn [map].
    rewrite join_cons.
    destruct (split_words rest) as [| w ws] eqn:E;
      [now apply split_words_not_nil in E |].
    reflexivity.
  - destruct (split_words_letter ch rest Hsp) as (w & ws & E1 & E2).
    rewrite E1, E2. cbn [map]. rewrite !join_cons.
    unfold well_formed_tail in Hrest. rewrite E1 in Hrest.
    apply andb_prop in Hrest. destruct Hrest as [Hw _].
    rewrite <- !app_assoc. f_equal.
    destruct (first_word_head rest w ws E1 Hw)
      as [[-> ->] | (c & w' & r & -> & _ & _ & ->)].
    + reflexivity.
    + unfold word_stream. cbn [map]. rewrite !join_cons.
      rewrite <- !app_assoc. reflexivity.
Qed.

Lemma queued_stream_not_empty (str : list ascii) :
  well_formed str = true -> queued_stream str <> [].
Proof.
  intros H. destruct (well_formed_head str H) as (c & r & -> & Hc & _).
  pose proof (is_letter_not_space c Hc) as Hsp.
  destruct (split_words_letter c r Hsp) as (w & ws & _ & E).
  unfold queued_stream. rewrite E. cbn [map]. rewrite join_cons.
  unfold word_stream. cbn [map]. rewrite join_cons.
  pose proof (morse_not_empty c Hc) as Hm.
  destruct (morse c); [congruence | discriminate].
Qed.


(** ** One [write] followed by one [read] *)

(** A well-formed text written to an empty fifo, then read back whole. *)
Lemma write_read_well_formed (str : list ascii) (count : nat) (s : state) :
  (forall n, lock_ok n = true) ->
  well_formed str = true ->
  flashed_codes_queue s = [] ->
  Z.of_nat (List.length (queued_stream str)) < QUEUE_SIZE ->
  (List.length (queued_stream str) < count)%nat ->
  exists s1 s2,
    my_write dottime lock_ok (user_string str) (List.length str) s
    = Some (Z.of_nat (List.length str), s1)
    /\ flashed_codes_queue s1 = queued_stream str
    /\ my_read lock_ok true count s1
       = Some ((Z.of_nat (List.length (queued_stream str) + 1),
                queued_stream str ++ [NEWLINE]), s2)
    /\ flashed_codes_queue s2 = [].
Proof.
  intros Hok Hwf Hempty Hroom Hcount.
  pose proof (well_formed_is_tail str Hwf) as Htail.
  destruct (well_formed_head str Hwf) as (c & r & Hstr & Hc & _).
  destruct (my_write_loop_regular Hok str [] false s (List.length str)
              (well_formed_tail_regular str Htail) (Nat.le_refl _))
    as (s1 & Hw & Hq1).
  cbn [app List.length] in Hw.
  rewrite (char_stream_words str false Htail), Hempty in Hq1.
  assert (Hlead : leading_separator false str = []).
  { rewrite Hstr. cbn. now destruct (is_space c). }
  rewrite Hlead in Hq1. cbn [app] in Hq1.
  rewrite fifo_puts_room in Hq1 by (cbn [List.length]; lia).
  cbn [app] in Hq1.
  destruct (my_read_acquired count s1 (Hok _)) as (s2 & Hr & Hq2 & _).
  rewrite Hq1 in Hr, Hq2.
  rewrite queue_before_copy_room in Hr, Hq2
    by (try apply queued_stream_not_empty; try apply kfifo_is_full_false;
        assumption).
  assert (Hmin : Nat.min count (List.length (queued_stream str ++ [NEWLINE]))
                 = List.length (queued_stream str ++ [NEWLINE])).
  { apply Nat.min_r. rewrite length_app. cbn [List.length]. lia. }
  rewrite Hmin in Hr, Hq2. rewrite firstn_all in Hr. rewrite skipn_all in Hq2.
  rewrite length_app in Hr. cbn [List.length] in Hr.
  exists s1, s2. repeat split; try assumption.
  unfold my_write.
  assert (Hscan : scan_to_letter (List.length str) (user_string str) 0 = Some 0%nat).
  { rewrite Hstr. cbn [List.length scan_to_letter user_string nth_error].
    now rewrite Hc, (is_letter_not_space c Hc). }
  rewrite Hscan. exact Hw.
Qed.

(** C1, as the code has it: for a text of letters and single spaces, with
    no space at either end, one [my_write] to an empty fifo followed by one
    [my_read] into a large enough buffer yields the dots and dashes of each
    letter side by side, one separator between the letters of a word and
    three separators at each word boundary, then one newline; nothing is
    left in the fifo. *)
Theorem my_write_then_read_stream (str : list ascii) (count : nat) (s : state)
  (Hok : forall n, lock_ok n = true)
  (Hwf : well_formed str = true)
  (Hempty : flashed_codes_queue s = [])
  (Hroom : Z.of_nat (List.length (queued_stream str)) < QUEUE_SIZE)
  (Hcount : (List.length (queued_stream str) < count)%nat) :
  exists s1 s2,
    my_write dottime lock_ok (user_string str) (List.length str) s
    = Some (Z.of_nat (List.length str), s1)
    /\ my_read lock_ok true count s1
       = Some ((Z.of_nat (List.length (queued_stream str) + 1),
                join [SEPARATOR_SYMBOL; SEPARATOR_SYMBOL; SEPARATOR_SYMBOL]
                     (map (fun w => join [SEPARATOR_SYMBOL] (map morse w))
                          (split_words str))
                  ++ [NEWLINE]), s2)
    /\ flashed_codes_queue s2 = [].
Proof.
  destruct (write_read_well_formed str count s Hok Hwf Hempty Hroom Hcount)
    as (s1 & s2 & Hw & _ & Hr & Hq).
  exists s1, s2. repeat split; assumption.
Qed.

(** C3, as the code has it: [SOS] written by one [my_write] to an empty
    fifo is read back as [... --- ...] followed by a newline: the three
    symbols of each letter side by side, one separator between letters. *)
Theorem my_write_SOS (count : nat) (s : state)
  (Hok : forall n, lock_ok n = true)
  (Hempty : flashed_codes_queue s = [])
  (Hcount : (12 <= count)%nat) :
  exists s1 s2,
    my_write dottime lock_ok (user_string (chars "SOS")) 3 s = Some (3, s1)
    /\ flashed_codes_queue s1 = chars "... --- ..."
    /\ my_read lock_ok true count s1
       = Some ((12, chars "... --- ..." ++ [NEWLINE]), s2)
    /\ flashed_codes_queue s2 = [].
Proof.
  destruct (write_read_well_formed (chars "SOS") count s Hok eq_refl Hempty)
    as (s1 & s2 & Hw & Hq1 & Hr & Hq2).
  - vm_compute. reflexivity.
  - change (List.length (queued_stream (chars "SOS"))) with 11%nat. lia.
  - exists s1, s2. repeat split; assumption.
Qed.


(** ** Every operation returns *)

Lemma total_ret {A : Type} (a : A) : total (ret a).
Proof. intros s. exists a, s. reflexivity. Qed.

Lemma total_bind {A B : Type} (c : M A) (k : A -> M B) :
  total c -> (forall a, total (k a)) -> total (bind c k).
Proof.
  intros Hc Hk s. destruct (Hc s) as (a & s1 & E).
  unfold bind. rewrite E. apply Hk.
Qed.

Lemma total_emit (e : event) : total (emit e).
Proof. intros s. eexists; eexists; reflexivity. Qed.

Lemma total_kfifo_put (c : ascii) : total (kfifo_put c).
Proof.
  intros s. unfold kfifo_put.
  destruct (kfifo_is_full (flashed_codes_queue s)); eexists; eexists; reflexivity.
Qed.

Lemma total_queue_lock : total (queue_lock lock_ok).
Proof. intros s. eexists; eexists; reflexivity. Qed.

Ltac total_step :=
  first [ apply total_ret | apply total_emit | apply total_kfifo_put
        | apply total_queue_lock
        | apply total_bind; [| intros ?] ].

Lemma total_put_valid (n : Z) :
  total (put_valid_morsecode_into_queue lock_ok n).
Proof.
  unfold put_valid_morsecode_into_queue.
  destruct ((n =? ONES_IN_A_DOT) || (n =? ONES_IN_A_DASH)); [| apply total_ret].
  apply total_bind; [apply total_queue_lock | intros r].
  destruct (negb (r =? 0)); [apply total_ret |].
  destruct (n =? ONES_IN_A_DOT); [| destruct (n =? ONES_IN_A_DASH)];
    repeat total_step.
Qed.

Lemma total_flash_morsecode_loop (fuel : nat) :
  forall j ones,
    (fuel <= 16)%nat -> 0 <= j < 2 ^ Z.of_nat fuel ->
    total (flash_morsecode_loop dottime lock_ok fuel
                                (2 ^ (16 - Z.of_nat fuel) * j) ones).
Proof.
  assert (Hexit : forall ones,
             total (r <- put_valid_morsecode_into_queue lock_ok ones ;;
                    if negb (r =? 0) then ret (- EFAULT)
                    else
                      led_trigger_event LED_OFF ;;
                      msleep dottime ;;
                      ret 0)).
  { intros ones. apply total_bind; [apply total_put_valid | intros r].
    destruct (negb (r =? 0)); repeat total_step. }
  induction fuel as [| fuel IH]; intros j ones Hf Hj.
  - assert (j = 0) by (cbn in Hj; lia). subst j. rewrite Z.mul_0_r.
    apply Hexit.
  - cbn [flash_morsecode_loop].
    destruct (2 ^ (16 - Z.of_nat (S fuel)) * j =? 0); [apply Hexit |].
    rewrite (shl1_aligned fuel j) by lia.
    assert (Hj' : 0 <= j mod 2 ^ Z.of_nat fuel < 2 ^ Z.of_nat fuel).
    { apply Z.mod_pos_bound. apply Z.pow_pos_nonneg; lia. }
    match goal with |- context [if ?c then _ else _] => destruct c end.
    + apply total_bind; [apply total_emit | intros _].
      apply total_bind; [apply total_emit | intros _].
      apply IH; [lia | exact Hj'].
    + apply total_bind; [apply total_put_valid | intros r].
      destruct (negb (r =? 0)); [apply total_ret |].
      apply total_bind; [apply total_emit | intros _].
      apply total_bind; [apply total_emit | intros _].
      apply IH; [lia | exact Hj'].
Qed.

Lemma total_flash_morsecode (m : Z) :
  0 <= m < 65536 -> total (flash_morsecode dottime lock_ok m).
Proof.
  intros Hm. unfold flash_morsecode.
  change (Z.to_nat (SIZEOF_UNSIGNED_SHORT * BITS_IN_A_BYTE)) with 16%nat.
  pose proof (total_flash_morsecode_loop 16 m 0 ltac:(lia)) as H.
  change (2 ^ Z.of_nat 16) with 65536 in H.
  change (2 ^ (16 - Z.of_nat 16)) with 1 in H.
  rewrite Z.mul_1_l in H. exact (H Hm).
Qed.

Lemma letter_table_range (idx : nat) :
  0 <= nth idx letter_to_morsecode_bits_map 0 < 65536.
Proof.
  do 26 (destruct idx as [| idx]; [cbn; lia |]). destruct idx; cbn; lia.
Qed.

Lemma total_process_morsecode (ch : ascii) (b : bool) :
  total (process_morsecode dottime lock_ok ch b).
Proof.
  assert (Hletter : forall idx,
             total
               (r <- (if b
                      then
                        r <- queue_lock lock_ok ;;
                        if negb (r =? 0) then ret (- EFAULT)
                        else
                          kfifo_put SEPARATOR_SYMBOL ;;
                          queue_unlock ;;
                          msleep ((INTER_LETTER_DOTTIMES - 1) * dottime) ;;
                          ret 0
                      else ret 0) ;;
                if negb (r =? 0) then ret (- EFAULT)
                else
                  r <- flash_morsecode dottime lock_ok
                         (nth idx letter_to_morsecode_bits_map 0) ;;
                  if negb (r =? 0) then ret (- EFAULT) else ret 0)).
  { intros idx. apply total_bind.
    - destruct b; [| apply total_ret].
      apply total_bind; [apply total_queue_lock | intros r].
      destruct (negb (r =? 0)); repeat total_step.
    - intros r. destruct (negb (r =? 0)); [apply total_ret |].
      apply total_bind;
        [apply total_flash_morsecode, letter_table_range | intros r'].
      destruct (negb (r' =? 0)); apply total_ret. }
  unfold process_morsecode.
  destruct (is_lower ch); [apply Hletter |].
  destruct (is_upper ch); [apply Hletter |].
  destruct (is_space ch); [| apply total_ret].
  apply total_bind; [apply total_queue_lock | intros r].
  destruct (negb (r =? 0)); repeat total_step.
Qed.

Lemma scan_to_letter_ge (n : nat) (buff : user_buffer) :
  forall idx p, scan_to_letter n buff idx = Some p -> (idx <= p)%nat.
Proof.
  induction n as [| n IH]; intros idx p H; cbn [scan_to_letter] in H.
  - injection H as <-. lia.
  - destruct (buff idx) as [ch |]; [| discriminate].
    destruct (negb (is_space ch) && is_letter ch).
    + injection H as <-. lia.
    + apply IH in H. lia.
Qed.

Lemma total_write_done (count : nat) : total (write_done count).
Proof. intros s. eexists; eexists; reflexivity. Qed.

Lemma total_my_write_loop (buff : user_buffer) (count : nat) (fuel : nat) :
  forall idx has,
    (count - idx <= fuel)%nat ->
    total (my_write_loop dottime lock_ok fuel buff count idx has).
Proof.
  induction fuel as [| fuel IH]; intros idx has Hfuel; cbn [my_write_loop];
    destruct (Nat.leb_spec count idx) as [Hle | Hlt];
    try apply total_write_done; [lia |].
  assert (Hrest : forall ch i,
             (idx <= i)%nat ->
             total
               (if is_morsecode_char ch
                then
                  r <- process_morsecode dottime lock_ok ch has ;;
                  if negb (r =? 0) then ret (- EFAULT)
                  else my_write_loop dottime lock_ok fuel buff count (S i) true
                else my_write_loop dottime lock_ok fuel buff count (S i) has)).
  { intros ch i Hi. destruct (is_morsecode_char ch); [| apply IH; lia].
    apply total_bind; [apply total_process_morsecode | intros r].
    destruct (negb (r =? 0)); [apply total_ret | apply IH; lia]. }
  destruct (buff idx) as [ch |]; [| apply total_ret].
  destruct (is_space ch); [| now apply Hrest].
  destruct (scan_to_letter (count - S idx) buff (S idx)) as [peek |] eqn:E;
    [| apply total_ret].
  apply scan_to_letter_ge in E.
  destruct (count <=? peek)%nat; [apply total_write_done |].
  apply Hrest. lia.
Qed.

Lemma total_my_write (buff : user_buffer) (count : nat) :
  total (my_write dottime lock_ok buff count).
Proof.
  unfold my_write.
  destruct (scan_to_letter count buff 0); [| apply total_ret].
  apply total_my_write_loop. lia.
Qed.

Lemma total_my_read (writable : bool) (count : nat) :
  total (my_read lock_ok writable count).
Proof.
  unfold my_read.
  apply total_bind; [apply total_queue_lock | intros r].
  destruct (negb (r =? 0)); [apply total_ret |].
  apply total_bind; [intros s; eexists; eexists; reflexivity | intros empty].
  apply total_bind.
  { destruct (negb empty); repeat total_step. }
  intros _. apply total_bind.
  { intros s. unfold kfifo_to_user.
    match goal with |- context [if ?c then _ else _] => destruct c end;
      eexists; eexists; reflexivity. }
  intros [[err bytes_copied] bytes].
  destruct (negb (err =? 0)); repeat total_step.
  intros s. eexists; eexists; reflexivity.
Qed.

Lemma total_run (op : operation) :
  valid op -> total (run dottime lock_ok op).
Proof.
  destruct op; cbn [run valid]; intros Hv.
  - apply total_put_valid.
  - now apply total_flash_morsecode.
  - apply total_process_morsecode.
  - apply total_bind; [apply total_my_read | intros; apply total_ret].
  - apply total_my_write.
Qed.


(** ** Interrupted lock acquisitions *)

Lemma quiet_ret {A : Type} (a : A) : quiet (ret a).
Proof.
  intros s a' s' H. injection H as <- <-. split; [reflexivity |].
  exists []. split; [now rewrite app_nil_r | intros []].
Qed.

Lemma quiet_emit (e : event) : e <> interrupted -> quiet (emit e).
Proof.
  intros He s a s' H. injection H as <- <-. split; [reflexivity |].
  exists [e]. split; [reflexivity |]. intros [Hin | []]. now apply He.
Qed.

Lemma quiet_kfifo_put (c : ascii) : quiet (kfifo_put c).
Proof.
  intros s a s' H. unfold kfifo_put in H.
  destruct (kfifo_is_full (flashed_codes_queue s));
    injection H as <- <-; (split; [reflexivity |]);
    eexists; (split; [reflexivity |]); intros [Hin | []]; discriminate Hin.
Qed.

Lemma quiet_bind {A B : Type} (c : M A) (k : A -> M B) :
  quiet c -> (forall a, quiet (k a)) -> quiet (bind c k).
Proof.
  intros Hc Hk s b s' H. unfold bind in H.
  destruct (c s) as [[a s1] |] eqn:E; [| discriminate].
  destruct (Hc _ _ _ E) as (Hn1 & evs1 & Ht1 & Hno1).
  destruct (Hk a _ _ _ H) as (Hn2 & evs2 & Ht2 & Hno2).
  split; [congruence |].
  exists (evs1 ++ evs2). split.
  - now rewrite Ht2, Ht1, app_assoc.
  - intros Hin. apply in_app_or in Hin. tauto.
Qed.

Lemma lock_safe_after_quiet (r : Z) (s s1 s' : state) (evs1 : list event) :
  trace s1 = trace s ++ evs1 -> ~ In interrupted evs1 ->
  lock_safe lock_ok r s1 s' -> lock_safe lock_ok r s s'.
Proof.
  intros Ht1 Hno1 (evs2 & Ht2 & Hcase).
  exists (evs1 ++ evs2). split; [now rewrite Ht2, Ht1, app_assoc |].
  destruct Hcase as [Hno2 | (Hr & (pre & Hpre & Hnopre) & Hn)].
  - left. intros Hin. apply in_app_or in Hin. tauto.
  - right. split; [exact Hr |]. split; [| exact Hn].
    exists (evs1 ++ pre). split.
    + now rewrite Hpre, app_assoc.
    + intros Hin. apply in_app_or in Hin. tauto.
Qed.

Lemma safe_ret (r : Z) : safe lock_ok (ret r).
Proof.
  intros s r' s' H. injection H as <- <-.
  exists []. split; [now rewrite app_nil_r | left; intros []].
Qed.

Lemma safe_bind_quiet {A : Type} (c : M A) (k : A -> M Z) :
  quiet c -> (forall a, safe lock_ok (k a)) -> safe lock_ok (bind c k).
Proof.
  intros Hc Hk s r s' H. unfold bind in H.
  destruct (c s) as [[a s1] |] eqn:E; [| discriminate].
  destruct (Hc _ _ _ E) as (_ & evs1 & Ht1 & Hno1).
  exact (lock_safe_after_quiet _ _ _ _ _ Ht1 Hno1 (Hk a _ _ _ H)).
Qed.

(** [r = c(); if (r) return -EFAULT; k] *)
Lemma safe_bind_check (c k : M Z) :
  safe lock_ok c -> safe lock_ok k ->
  safe lock_ok (r <- c ;; if negb (r =? 0) then ret (- EFAULT) else k).
Proof.
  intros Hc Hk s r s' H. unfold bind in H.
  destruct (c s) as [[r1 s1] |] eqn:E; [| discriminate].
  destruct (Hc _ _ _ E) as (evs1 & Ht1 & [Hno1 | (Hr1 & Hstop & Hn)]).
  - destruct (negb (r1 =? 0)).
    + injection H as <- <-. exists evs1. split; [exact Ht1 | now left].
    + exact (lock_safe_after_quiet _ _ _ _ _ Ht1 Hno1 (Hk _ _ _ H)).
  - subst r1. cbn in H. injection H as <- <-.
    exists evs1. split; [exact Ht1 |]. right. repeat split; assumption.
Qed.

(** [if (queue_lock()) return -EFAULT; k] *)
Lemma safe_lock_check (k : M Z) :
  safe lock_ok k ->
  safe lock_ok (r <- queue_lock lock_ok ;;
                if negb (r =? 0) then ret (- EFAULT) else k).
Proof.
  intros Hk s r s' H. unfold bind, queue_lock, mutex_lock_interruptible in H.
  destruct (lock_ok (lock_attempts s)) eqn:El; cbn [Z.eqb negb EINTR Z.opp] in H.
  - apply (lock_safe_after_quiet _ _ _ _ [EvLock true]) with (3 := Hk _ _ _ H).
    + reflexivity.
    + intros [Hin | []]. discriminate Hin.
  - injection H as <- <-. exists [interrupted]. split; [reflexivity |].
    right. split; [reflexivity |]. split.
    + exists []. split; [reflexivity | intros []].
    + exists (lock_attempts s). split; [reflexivity | exact El].
Qed.


Lemma safe_put_valid (n : Z) :
  safe lock_ok (put_valid_morsecode_into_queue lock_ok n).
Proof.
  unfold put_valid_morsecode_into_queue.
  destruct ((n =? ONES_IN_A_DOT) || (n =? ONES_IN_A_DASH)); [| apply safe_ret].
  apply safe_lock_check. apply safe_bind_quiet.
  - destruct (n =? ONES_IN_A_DOT);
      [| destruct (n =? ONES_IN_A_DASH)];
      try apply quiet_ret;
      (apply quiet_bind; [apply quiet_kfifo_put | intros; apply quiet_ret]).
  - intros _. apply safe_bind_quiet; [now apply quiet_emit |].
    intros _. apply safe_ret.
Qed.

Lemma safe_pulse (b : led_brightness) (k : M Z) :
  safe lock_ok k ->
  safe lock_ok (led_trigger_event b ;; msleep dottime ;; k).
Proof.
  intros Hk. apply safe_bind_quiet; [now apply quiet_emit |].
  intros _. apply safe_bind_quiet; [now apply quiet_emit |].
  intros _. exact Hk.
Qed.

Lemma safe_flash_morsecode_loop (fuel : nat) :
  forall m ones, safe lock_ok (flash_morsecode_loop dottime lock_ok fuel m ones).
Proof.
  induction fuel as [| fuel IH]; intros m ones; cbn [flash_morsecode_loop];
    destruct (m =? 0);
    try (apply safe_bind_check;
         [apply safe_put_valid | apply safe_pulse, safe_ret]).
  - intros s r s' H. discriminate H.
  - match goal with |- context [if ?c then _ else _] => destruct c end.
    + apply safe_pulse, IH.
    + apply safe_bind_check; [apply safe_put_valid | apply safe_pulse, IH].
Qed.

Lemma safe_flash_morsecode (m : Z) :
  safe lock_ok (flash_morsecode dottime lock_ok m).
Proof. apply safe_flash_morsecode_loop. Qed.

Lemma safe_process_morsecode (ch : ascii) (b : bool) :
  safe lock_ok (process_morsecode dottime lock_ok ch b).
Proof.
  assert (Hletter : forall idx,
             safe lock_ok
               (r <- (if b
                      then
                        r <- queue_lock lock_ok ;;
                        if negb (r =? 0) then ret (- EFAULT)
                        else
                          kfifo_put SEPARATOR_SYMBOL ;;
                          queue_unlock ;;
                          msleep ((INTER_LETTER_DOTTIMES - 1) * dottime) ;;
                          ret 0
                      else ret 0) ;;
                if negb (r =? 0) then ret (- EFAULT)
                else
                  r <- flash_morsecode dottime lock_ok
                         (nth idx letter_to_morsecode_bits_map 0) ;;
                  if negb (r =? 0) then ret (- EFAULT) else ret 0)).
  { intros idx. apply safe_bind_check.
    - destruct b; [| apply safe_ret].
      apply safe_lock_check.
      apply safe_bind_quiet; [apply quiet_kfifo_put | intros _].
      apply safe_bind_quiet; [now apply quiet_emit | intros _].
      apply safe_bind_quiet; [now apply quiet_emit | intros _].
      apply safe_ret.
    - apply safe_bind_check; [apply safe_flash_morsecode | apply safe_ret]. }
  unfold process_morsecode.
  destruct (is_lower ch); [apply Hletter |].
  destruct (is_upper ch); [apply Hletter |].
  destruct (is_space ch); [| apply safe_ret].
  apply safe_lock_check.
  apply safe_bind_quiet; [apply quiet_kfifo_put | intros _].
  apply safe_bind_quiet; [apply quiet_kfifo_put | intros _].
  apply safe_bind_quiet; [now apply quiet_emit | intros _].
  apply safe_bind_quiet; [now apply quiet_emit | intros _].
  apply safe_ret.
Qed.

Lemma safe_write_done (count : nat) : safe lock_ok (write_done count).
Proof.
  intros s r s' H. injection H as <- <-.
  exists []. split; [cbn; now rewrite app_nil_r | left; intros []].
Qed.

Lemma safe_my_write_loop (buff : user_buffer) (count : nat) (fuel : nat) :
  forall idx has,
    safe lock_ok (my_write_loop dottime lock_ok fuel buff count idx has).
Proof.
  induction fuel as [| fuel IH]; intros idx has; cbn [my_write_loop];
    destruct (count <=? idx)%nat; try apply safe_write_done.
  - intros s r s' H. discriminate H.
  - assert (Hrest : forall ch i,
               safe lock_ok
                 (if is_morsecode_char ch
                  then
                    r <- process_morsecode dottime lock_ok ch has ;;
                    if negb (r =? 0) then ret (- EFAULT)
                    else my_write_loop dottime lock_ok fuel buff count (S i) true
                  else my_write_loop dottime lock_ok fuel buff count (S i) has)).
    { intros ch i. destruct (is_morsecode_char ch); [| apply IH].
      apply safe_bind_check; [apply safe_process_morsecode | apply IH]. }
    destruct (buff idx) as [ch |]; [| apply safe_ret].
    destruct (is_space ch); [| apply Hrest].
    destruct (scan_to_letter (count - S idx) buff (S idx)) as [peek |];
      [| apply safe_ret].
    destruct (count <=? peek)%nat; [apply safe_write_done | apply Hrest].
Qed.

Lemma safe_my_write (buff : user_buffer) (count : nat) :
  safe lock_ok (my_write dottime lock_ok buff count).
Proof.
  unfold my_write.
  destruct (scan_to_letter count buff 0); [| apply safe_ret].
  apply safe_my_write_loop.
Qed.

Lemma safe_my_read (writable : bool) (count : nat) :
  safe lock_ok (r <- my_read lock_ok writable count ;; ret (fst r)).
Proof.
  assert (Hrest : quiet
            (empty <- kfifo_is_empty ;;
             (if negb empty then (kfifo_put NEWLINE ;; ret tt) else ret tt) ;;
             res <- kfifo_to_user writable count ;;
             let '(err, bytes_copied, bytes) := res in
             if negb (err =? 0) then
               queue_unlock ;;
               ret (- EFAULT, bytes)
             else
               queue_unlock ;;
               (fun s => Some (tt, add_pos (Z.of_nat bytes_copied) s)) ;;
               ret (Z.of_nat bytes_copied, bytes))).
  { apply quiet_bind.
    { intros s a s' H. injection H as <- <-. split; [reflexivity |].
      exists []. split; [now rewrite app_nil_r | intros []]. }
    intros empty. apply quiet_bind.
    { destruct (negb empty); [| apply quiet_ret].
      apply quiet_bind; [apply quiet_kfifo_put | intros; apply quiet_ret]. }
    intros _. apply quiet_bind.
    { intros s a s' H. unfold kfifo_to_user in H.
      match type of H with (if ?c then _ else _) = _ => destruct c end;
        injection H as <- <-; (split; [reflexivity |]);
        exists []; (split; [cbn; now rewrite app_nil_r | intros []]). }
    intros [[err bytes_copied] bytes].
    destruct (negb (err =? 0)).
    - apply quiet_bind; [now apply quiet_emit | intros; apply quiet_ret].
    - apply quiet_bind; [now apply quiet_emit | intros _].
      apply quiet_bind; [| intros; apply quiet_ret].
      intros s a s' H. injection H as <- <-. split; [reflexivity |].
      exists []. split; [cbn; now rewrite app_nil_r | intros []]. }
  intros s r s' H. unfold my_read, bind at 1 2 in H.
  unfold queue_lock, mutex_lock_interruptible in H.
  destruct (lock_ok (lock_attempts s)) eqn:El; cbn [Z.eqb negb EINTR Z.opp] in H.
  - match type of H with
    | match ?c ?s1 with _ => _ end = _ => destruct (c s1) as [[a s2] |] eqn:E
    end; [| discriminate].
    injection H as <- <-.
    destruct (Hrest _ _ _ E) as (_ & evs & Ht & Hno).
    exists ([EvLock true] ++ evs). split.
    + rewrite Ht. cbn. now rewrite <- app_assoc.
    + left. intros [Hin | Hin]; [discriminate Hin | now apply Hno].
  - injection H as <- <-. exists [interrupted]. split; [reflexivity |].
    right. split; [reflexivity |]. split.
    + exists []. split; [reflexivity | intros []].
    + exists (lock_attempts s). split; [reflexivity | exact El].
Qed.

Lemma safe_run (op : operation) : safe lock_ok (run dottime lock_ok op).
Proof.
  destruct op; cbn [run].
  - apply safe_put_valid.
  - apply safe_flash_morsecode.
  - apply safe_process_morsecode.
  - apply safe_my_read.
  - apply safe_my_write.
Qed.


Lemma put_valid_interrupted_queue (n : Z) (s s' : state) (r : Z) :
  put_valid_morsecode_into_queue lock_ok n s = Some (r, s') ->
  (exists evs, trace s' = trace s ++ evs /\ ~ In interrupted evs)
  \/ flashed_codes_queue s' = flashed_codes_queue s.
Proof.
  unfold put_valid_morsecode_into_queue. intros H.
  destruct ((n =? ONES_IN_A_DOT) || (n =? ONES_IN_A_DASH));
    [| injection H as <- <-; now right].
  unfold bind at 1, queue_lock, mutex_lock_interruptible in H.
  destruct (lock_ok (lock_attempts s)); cbn [Z.eqb negb EINTR Z.opp] in H.
  - left.
    assert (Hq : quiet
              ((if n =? ONES_IN_A_DOT
                then (kfifo_put DOT_SYMBOL ;; ret tt)
                else if n =? ONES_IN_A_DASH
                     then (kfifo_put DASH_SYMBOL ;; ret tt)
                     else ret tt) ;;
               queue_unlock ;;
               ret 0)).
    { apply quiet_bind.
      - destruct (n =? ONES_IN_A_DOT);
          [| destruct (n =? ONES_IN_A_DASH)];
          try apply quiet_ret;
          (apply quiet_bind; [apply quiet_kfifo_put | intros; apply quiet_ret]).
      - intros _. apply quiet_bind; [now apply quiet_emit |].
        intros; apply quiet_ret. }
    destruct (Hq _ _ _ H) as (_ & evs & Ht & Hno).
    exists ([EvLock true] ++ evs). split.
    + rewrite Ht. cbn. now rewrite <- app_assoc.
    + intros [Hin | Hin]; [discriminate Hin | now apply Hno].
  - injection H as <- <-. now right.
Qed.

(** C7: each of the operations that take the queue lock (the flush of a
    run, the flash of a letter, the processing of a character, a read, a
    write) returns, and whenever one of its acquisitions of the lock is
    interrupted it returns [-EFAULT] with the interrupted acquisition as
    the last thing it did: the acquisition is not tried again, and no
    symbol is put and no pulse emitted after it; an interrupted flush
    leaves the fifo as it was. *)
Theorem lock_failure_aborts (op : operation) (s : state)
  (Hvalid : valid op) :
  exists r s' evs,
    run dottime lock_ok op s = Some (r, s')
    /\ trace s' = trace s ++ evs
    /\ (In (EvLock false) evs ->
        r = - EFAULT
        /\ (exists pre, evs = pre ++ [EvLock false] /\ ~ In (EvLock false) pre)
        /\ (exists n, lock_attempts s' = S n /\ lock_ok n = false)
        /\ (forall n, op = OpFlush n ->
                      flashed_codes_queue s' = flashed_codes_queue s)).
Proof.
  destruct (total_run op Hvalid s) as (r & s' & Hrun).
  destruct (safe_run op s r s' Hrun) as (evs & Ht & Hcase).
  exists r, s', evs. split; [exact Hrun |]. split; [exact Ht |].
  intros Hfail.
  destruct Hcase as [Hno | (Hr & Hstop & Hn)]; [now elim Hno |].
  repeat split; try assumption.
  intros n ->. cbn [run] in Hrun.
  destruct (put_valid_interrupted_queue n s s' r Hrun)
    as [(evs1 & Ht1 & Hno1) | Hq]; [| exact Hq].
  assert (evs1 = evs) by (apply (app_inv_head (trace s)); congruence).
  subst evs1. now elim Hno1.
Qed.

End Properties.

(** * Concrete runs *)


Lemma put_valid_morsecode_into_queue_decodes_witness :
  exists s',
    put_valid_morsecode_into_queue always_acquired 3 init_state = Some (0, s')
    /\ flashed_codes_queue s' = [DASH_SYMBOL]
    /\ (3 <> 1 -> 3 <> 3 -> s' = init_state).
Proof.
  apply (put_valid_morsecode_into_queue_decodes always_acquired 3 init_state);
    intros _; reflexivity.
Defined.

Lemma flash_morsecode_letter_witness :
  (17 < 26)%nat
  /\ exists s',
       flash_morsecode 200 always_acquired 0xBA00 init_state = Some (0, s')
       /\ flashed_codes_queue s' = [DOT_SYMBOL; DASH_SYMBOL; DOT_SYMBOL].
Proof.
  split; [lia |].
  apply (flash_morsecode_letter 200 always_acquired 17 init_state).
  - lia.
  - intros n; reflexivity.
  - vm_compute. discriminate.
Defined.

Lemma my_read_newline_when_room_witness :
  (flashed_codes_queue (queue_state (chars ".-")) <> [] ->
   kfifo_is_full (flashed_codes_queue (queue_state (chars ".-"))) = false ->
   exists out s',
     my_read always_acquired true 10 (queue_state (chars ".-"))
     = Some ((Z.of_nat (List.length out), out), s')
     /\ out = firstn 10 (chars ".-" ++ [NEWLINE])
     /\ out ++ flashed_codes_queue s' = chars ".-" ++ [NEWLINE]
     /\ trace s' = [EvLock true; EvPut NEWLINE true; EvUnlock])
  /\ (flashed_codes_queue (queue_state (chars ".-")) = [] ->
      exists s',
        my_read always_acquired true 10 (queue_state (chars ".-"))
        = Some ((0, []), s')
        /\ flashed_codes_queue s' = []
        /\ trace s' = [EvLock true; EvUnlock]).
Proof.
  apply (my_read_newline_when_room always_acquired 10 (queue_state (chars ".-"))).
  reflexivity.
Defined.

Lemma my_read_full_queue_drops_newline_witness :
  exists out s',
    my_read always_acquired true 10 full_of_dots
    = Some ((Z.of_nat (List.length out), out), s')
    /\ out = firstn 10 (flashed_codes_queue full_of_dots)
    /\ flashed_codes_queue s' = skipn 10 (flashed_codes_queue full_of_dots)
    /\ trace s' = trace full_of_dots ++ [EvLock true; EvPut NEWLINE false; EvUnlock]
    /\ ((0 < 10)%nat -> out <> [])
    /\ (~ In NEWLINE (flashed_codes_queue full_of_dots) -> ~ In NEWLINE out).
Proof.
  apply (my_read_full_queue_drops_newline always_acquired 10 full_of_dots).
  - reflexivity.
  - vm_compute. reflexivity.
Defined.


Lemma lock_failure_aborts_witness :
  valid (OpWrite (user_string (chars "SOS")) 3)
  /\ exists r s' evs,
       run 200 third_interrupted (OpWrite (user_string (chars "SOS")) 3)
           init_state = Some (r, s')
       /\ trace s' = trace init_state ++ evs
       /\ (In (EvLock false) evs ->
           r = - EFAULT
           /\ (exists pre, evs = pre ++ [EvLock false]
                           /\ ~ In (EvLock false) pre)
           /\ (exists n, lock_attempts s' = S n /\ third_interrupted n = false)
           /\ (forall n, OpWrite (user_string (chars "SOS")) 3 = OpFlush n ->
                         flashed_codes_queue s'
                         = flashed_codes_queue init_state)).
Proof.
  split; [exact I |].
  apply (lock_failure_aborts 200 third_interrupted
           (OpWrite (user_string (chars "SOS")) 3) init_state).
  exact I.
Defined.

Lemma my_write_without_letters_witness :
  forallb (fun ch => negb (is_letter ch)) (chars " 1 2 ") = true
  /\ my_write 200 always_acquired (user_string (chars " 1 2 ")) 5 init_state
     = Some (5, add_pos 5 init_state)
  /\ flashed_codes_queue (add_pos 5 init_state) = []
  /\ trace (add_pos 5 init_state) = []
  /\ (flashed_codes_queue init_state = [] ->
      always_acquired (lock_attempts init_state) = true ->
      forall count, exists s'',
        my_read always_acquired true count (add_pos 5 init_state)
        = Some ((0, []), s'')
        /\ flashed_codes_queue s'' = []).
Proof.
  split; [reflexivity |].
  apply (my_write_without_letters 200 always_acquired (chars " 1 2 ") init_state).
  reflexivity.
Defined.

Lemma process_morsecode_case_insensitive_witness :
  is_upper "R" = true
  /\ nth (code "R" - code "A") letter_to_morsecode_bits_map 0
     = nth (code "r" - code "a") letter_to_morsecode_bits_map 0
  /\ process_morsecode 200 always_acquired "R" true init_state
     = process_morsecode 200 always_acquired "r" true init_state.
Proof.
  split; [reflexivity |].
  apply (process_morsecode_case_insensitive 200 always_acquired "R" true
                                            init_state).
  reflexivity.
Defined.

Lemma my_write_then_read_stream_witness :
  well_formed (chars "hi there") = true
  /\ exists s1 s2,
       my_write 200 always_acquired (user_string (chars "hi there")) 8 init_state
       = Some (8, s1)
       /\ my_read always_acquired true 100 s1
          = Some ((25, chars ".... ..   - .... . .-. ." ++ [NEWLINE]), s2)
       /\ flashed_codes_queue s2 = [].
Proof.
  split; [reflexivity |].
  apply (my_write_then_read_stream 200 always_acquired (chars "hi there") 100
                                   init_state).
  - intros n; reflexivity.
  - reflexivity.
  - reflexivity.
  - vm_compute. reflexivity.
  - vm_compute. lia.
Defined.

Lemma my_write_SOS_witness :
  exists s1 s2,
    my_write 200 always_acquired (user_string (chars "SOS")) 3 init_state
    = Some (3, s1)
    /\ flashed_codes_queue s1 = chars "... --- ..."
    /\ my_read always_acquired true 12 s1
       = Some ((12, chars "... --- ..." ++ [NEWLINE]), s2)
    /\ flashed_codes_queue s2 = [].
Proof.
  apply (my_write_SOS 200 always_acquired 12 init_state).
  - intros n; reflexivity.
  - reflexivity.
  - lia.
Defined.

(** ** Where the code departs from the specification *)

(** C1 fails on [hi there]: the stream read back has the symbols of a
    letter side by side and three separators at the word boundary, not two;
    it is not the stream the specification describes, with or without the
    final newline. *)
Lemma hi_there_word_gap_is_three_separators :
  well_formed (chars "hi there") = true
  /\ bytes_read (write_then_read 200 always_acquired (chars "hi there") 100
                                 init_state)
     = Some (chars ".... ..   - .... . .-. ." ++ [NEWLINE])
  /\ spec_stream (chars "hi there") = chars ". . . . . .  - . . . . . . - . ."
  /\ bytes_read (write_then_read 200 always_acquired (chars "hi there") 100
                                 init_state)
     <> Some (spec_stream (chars "hi there"))
  /\ bytes_read (write_then_read 200 always_acquired (chars "hi there") 100
                                 init_state)
     <> Some (spec_stream (chars "hi there") ++ [NEWLINE])
  /\ separator_runs (chars ".... ..   - .... . .-. ." ++ [NEWLINE])
     = [1; 3; 1; 1; 1; 1]%nat.
Proof.
  repeat split; try (vm_compute; reflexivity); vm_compute; discriminate.
Qed.

(** C3 fails: what [SOS] leaves in the fifo is [... --- ...], and what one
    read returns is that followed by a newline, not [. . . - - - . . .]. *)
Lemma SOS_symbols_are_not_separated :
  option_map (fun r => flashed_codes_queue (snd r))
             (my_write 200 always_acquired (user_string (chars "SOS")) 3
                       init_state)
  = Some (chars "... --- ...")
  /\ bytes_read (write_then_read 200 always_acquired (chars "SOS") 100
                                 init_state)
     = Some (chars "... --- ..." ++ [NEWLINE])
  /\ bytes_read (write_then_read 200 always_acquired (chars "SOS") 100
                                 init_state)
     <> Some (chars ". . . - - - . . .")
  /\ bytes_read (write_then_read 200 always_acquired (chars "SOS") 100
                                 init_state)
     <> Some (chars ". . . - - - . . ." ++ [NEWLINE]).
Proof.
  repeat split; try (vm_compute; reflexivity); vm_compute; discriminate.
Qed.

(** C5 fails on a full fifo: it is not empty, the read gets the lock and
    copies 10 bytes, yet no newline was appended: the bytes copied and the
    bytes left are as many as were queued, and none of them is a newline. *)
Lemma my_read_full_queue_appends_no_newline :
  kfifo_is_empty full_of_dots = Some (false, full_of_dots)
  /\ Z.of_nat (List.length (flashed_codes_queue full_of_dots)) = QUEUE_SIZE
  /\ match my_read always_acquired true 10 full_of_dots with
     | Some ((r, out), s') =>
         r = 10
         /\ out = repeat DOT_SYMBOL 10
         /\ Z.of_nat (List.length (out ++ flashed_codes_queue s')) = QUEUE_SIZE
         /\ count_occ ascii_dec (out ++ flashed_codes_queue s') NEWLINE = 0%nat
     | None => False
     end.
Proof.
  split; [reflexivity |]. split; [vm_compute; reflexivity |].
  vm_compute. repeat split.
Qed.


(** An interrupted third acquisition while [SOS] is written: two dots are
    queued, the write returns [-EFAULT], and the LED stays on. *)
Example write_SOS_third_lock_interrupted :
  option_map (fun r => (fst r, flashed_codes_queue (snd r),
                        last (trace (snd r)) EvUnlock,
                        last (removelast (removelast (trace (snd r)))) EvUnlock))
             (my_write 200 third_interrupted (user_string (chars "SOS")) 3
                       init_state)
  = Some (- EFAULT, chars "..", EvLock false, EvLed LED_FULL).
Proof. vm_compute. reflexivity. Qed.

(** * Further properties of the driver *)

Section FurtherProperties.

Variable dottime : Z.
Variable lock_ok : nat -> bool.

(** ** [my_write] as a sequence of [process_morsecode] calls *)

Lemma scan_to_letter_split (suf : list ascii) :
  forall pre,
  exists junk rest,
    suf = junk ++ rest
    /\ forallb (fun ch => negb (is_letter ch)) junk = true
    /\ (rest = [] \/ exists c r, rest = c :: r /\ is_letter c = true)
    /\ scan_to_letter (List.length suf) (user_string (pre ++ suf))
                      (List.length pre)
       = Some (List.length pre + List.length junk)%nat.
Proof.
  induction suf as [| ch suf IH]; intros pre.
  - exists [], []. cbn. rewrite Nat.add_0_r. repeat split. now left.
  - cbn [List.length scan_to_letter]. rewrite user_string_app.
    destruct (is_letter ch) eqn:Hl.
    + rewrite (is_letter_not_space ch Hl). cbn [negb andb].
      exists [], (ch :: suf). cbn. rewrite Nat.add_0_r. repeat split.
      right. now exists ch, suf.
    + rewrite andb_false_r.
      destruct (IH (pre ++ [ch])) as (junk & rest & Hs & Hj & Hr & Hscan).
      exists (ch :: junk), rest.
      replace (pre ++ ch :: suf) with ((pre ++ [ch]) ++ suf)
        by now rewrite <- app_assoc.
      replace (S (List.length pre)) with (List.length (pre ++ [ch]))
        by (rewrite length_app; cbn; lia).
      rewrite Hscan. repeat split.
      * now rewrite Hs.
      * cbn. now rewrite Hl, Hj.
      * exact Hr.
      * rewrite length_app. cbn. f_equal. lia.
Qed.

Lemma norm_letter (b : bool) (c : ascii) (r : list ascii) :
  is_letter c = true -> norm b (c :: r) = c :: norm false r.
Proof. intros H. cbn. now rewrite H. Qed.

Lemma norm_skip (junk tail : list ascii) :
  forallb (fun ch => negb (is_letter ch)) junk = true ->
  norm true (junk ++ tail) = norm true tail.
Proof.
  induction junk as [| ch junk IH]; intros H; [reflexivity |].
  cbn in H. apply andb_prop in H. destruct H as [Hch Hj].
  apply negb_true_iff in Hch. cbn. rewrite Hch. now apply IH.
Qed.

Lemma existsb_letter_junk (junk tail : list ascii) :
  forallb (fun ch => negb (is_letter ch)) junk = true ->
  existsb is_letter (junk ++ tail) = existsb is_letter tail.
Proof.
  induction junk as [| ch junk IH]; intros H; [reflexivity |].
  cbn in H. apply andb_prop in H. destruct H as [Hch Hj].
  apply negb_true_iff in Hch. cbn. rewrite Hch. now apply IH.
Qed.

Lemma bind_check_assoc (c P K D : M Z) (s : state) :
  (forall s1,
      K s1 = (r <- P ;; if negb (r =? 0) then ret (- EFAULT) else D) s1) ->
  (r <- c ;; if negb (r =? 0) then ret (- EFAULT) else K) s
  = (r <- (x <- c ;; if negb (x =? 0) then ret (- EFAULT) else P) ;;
     if negb (r =? 0) then ret (- EFAULT) else D) s.
Proof.
  intros HK. unfold bind.
  destruct (c s) as [[r s1] |]; [| reflexivity].
  destruct (negb (r =? 0)); [reflexivity |].
  rewrite HK. reflexivity.
Qed.

(** The main loop of [my_write] calls [process_morsecode] on the
    characters [norm] selects and then ends the write. *)
Lemma my_write_loop_process_chars (n : nat) :
  forall (suf pre : list ascii) (has : bool) (fuel : nat) (s : state),
    (List.length suf <= n)%nat ->
    (List.length suf <= fuel)%nat ->
    my_write_loop dottime lock_ok fuel (user_string (pre ++ suf))
                  (List.length (pre ++ suf)) (List.length pre) has s
    = (r <- process_chars dottime lock_ok has (norm false suf) ;;
       if negb (r =? 0) then ret (- EFAULT)
       else write_done (List.length (pre ++ suf))) s.
Proof.
  induction n as [| n IH]; intros suf pre has fuel s Hn Hfuel.
  - destruct suf; [| cbn in Hn; lia]. rewrite app_nil_r.
    destruct fuel; cbn [my_write_loop]; rewrite Nat.leb_refl; reflexivity.
  - destruct suf as [| ch rest].
    { rewrite app_nil_r.
      destruct fuel; cbn [my_write_loop]; rewrite Nat.leb_refl; reflexivity. }
    destruct fuel as [| fuel]; [cbn in Hfuel; lia |].
    cbn [List.length] in Hn, Hfuel.
    assert (Hcount : List.length (pre ++ ch :: rest)
                     = (List.length pre + S (List.length rest))%nat)
      by (rewrite length_app; reflexivity).
    assert (Hstep : pre ++ ch :: rest = (pre ++ [ch]) ++ rest)
      by now rewrite <- app_assoc.
    assert (Hlen : S (List.length pre) = List.length (pre ++ [ch]))
      by (rewrite length_app; cbn; lia).
    assert (Hnext : forall b s1,
               my_write_loop dottime lock_ok fuel (user_string (pre ++ ch :: rest))
                             (List.length (pre ++ ch :: rest))
                             (S (List.length pre)) b s1
               = (r <- process_chars dottime lock_ok b (norm false rest) ;;
                  if negb (r =? 0) then ret (- EFAULT)
                  else write_done (List.length (pre ++ ch :: rest))) s1).
    { intros b s1. rewrite Hstep, Hlen. apply IH; lia. }
    cbn [my_write_loop].
    replace (List.length (pre ++ ch :: rest) <=? List.length pre)%nat
      with false by (symmetry; apply Nat.leb_gt; lia).
    rewrite user_string_app.
    destruct (is_letter ch) eqn:Hl.
    + rewrite (is_letter_not_space ch Hl), (norm_letter _ _ _ Hl).
      unfold is_morsecode_char. rewrite Hl. cbn [orb process_chars].
      apply bind_check_assoc. intros s1. apply (Hnext true s1).
    + destruct (is_space ch) eqn:Hsp.
      * replace (List.length (pre ++ ch :: rest) - S (List.length pre))%nat
          with (List.length rest) by lia.
        destruct (scan_to_letter_split rest (pre ++ [ch]))
          as (junk & rest2 & Hs & Hj & Hr & Hscan).
        assert (Hscan' : scan_to_letter (List.length rest)
                                        (user_string (pre ++ ch :: rest))
                                        (S (List.length pre))
                         = Some (List.length (pre ++ [ch]) + List.length junk)%nat)
          by (rewrite Hstep, Hlen; exact Hscan).
        assert (He : existsb is_letter rest = existsb is_letter rest2)
          by (rewrite Hs; now apply existsb_letter_junk).
        assert (Hnm : norm true rest = norm true rest2)
          by (rewrite Hs; now apply norm_skip).
        rewrite Hscan'. cbn [norm]. rewrite Hl, Hsp, He, Hnm.
        destruct Hr as [-> | (c & r0 & -> & Hc)].
        -- replace (List.length (pre ++ ch :: rest)
                    <=? List.length (pre ++ [ch]) + List.length junk)%nat
             with true
             by (symmetry; apply Nat.leb_le; rewrite Hcount, Hs, !length_app;
                 cbn; lia).
           reflexivity.
        -- replace (List.length (pre ++ ch :: rest)
                    <=? List.length (pre ++ [ch]) + List.length junk)%nat
             with false
             by (symmetry; apply Nat.leb_gt; rewrite Hcount, Hs, !length_app;
                 cbn; lia).
           cbn [existsb]. rewrite Hc. cbn [orb].
           unfold is_morsecode_char. rewrite Hsp, orb_true_r.
           cbn [process_chars]. apply bind_check_assoc. intros s1.
           replace (S (List.length (pre ++ [ch]) + List.length junk - 1))
             with (List.length (pre ++ ch :: junk))
             by (rewrite !length_app; cbn; lia).
           replace (pre ++ ch :: rest) with ((pre ++ ch :: junk) ++ c :: r0)
             by (rewrite Hs, <- app_assoc; reflexivity).
           rewrite (norm_letter true _ _ Hc), <- (norm_letter false _ _ Hc).
           apply IH.
           ++ rewrite Hs, length_app in Hn. cbn [List.length] in *. lia.
           ++ rewrite Hs, length_app in Hfuel. cbn [List.length] in *. lia.
      * unfold is_morsecode_char. rewrite Hl, Hsp. cbn [orb norm].
        rewrite Hl, Hsp. apply (Hnext has s).
Qed.

Lemma my_write_process_chars (str : list ascii) (s : state) :
  my_write dottime lock_ok (user_string str) (List.length str) s
  = (r <- process_chars dottime lock_ok false (normalize str) ;;
     if negb (r =? 0) then ret (- EFAULT)
     else write_done (List.length str)) s.
Proof.
  unfold my_write.
  destruct (scan_to_letter_split str []) as (junk & rest & Hs & Hj & Hr & Hscan).
  cbn [app List.length Nat.add] in Hscan. rewrite Hscan.
  unfold normalize. rewrite Hs, (norm_skip _ _ Hj).
  assert (Hn : norm true rest = norm false rest).
  { destruct Hr as [-> | (c & r & -> & Hc)]; [reflexivity |].
    now rewrite !(norm_letter _ _ _ Hc). }
  rewrite Hn.
  apply (my_write_loop_process_chars (List.length rest));
    [lia | rewrite length_app; lia].
Qed.

(** ** Relations kept by every step of the producer side *)

Section StepInvariant.

Variable R : state -> state -> Prop.
Hypothesis R_refl : forall s, R s s.
Hypothesis R_trans : forall s1 s2 s3, R s1 s2 -> R s2 s3 -> R s1 s3.
Hypothesis R_led : forall b s, R s (log (EvLed b) s).
Hypothesis R_sleep : forall ms s, R s (log (EvSleep ms) s).
Hypothesis R_interrupted : forall s, R s (count_attempt (log (EvLock false) s)).
Hypothesis R_section :
  forall cs s s',
    Forall symbol cs -> put_section cs (locked s) = Some (tt, s') -> R s s'.

Lemma preserves_ret {A : Type} (a : A) : preserves R (ret a).
Proof. intros s a' s' H. injection H as <- <-. apply R_refl. Qed.

Lemma preserves_bind {A B : Type} (c : M A) (k : A -> M B) :
  preserves R c -> (forall a, preserves R (k a)) -> preserves R (bind c k).
Proof.
  intros Hc Hk s b s' H. unfold bind in H.
  destruct (c s) as [[a s1] |] eqn:E; [| discriminate].
  exact (R_trans _ _ _ (Hc _ _ _ E) (Hk a _ _ _ H)).
Qed.

Lemma preserves_led (b : led_brightness) : preserves R (led_trigger_event b).
Proof. intros s a s' H. injection H as <- <-. apply R_led. Qed.

Lemma preserves_msleep (ms : Z) : preserves R (msleep ms).
Proof. intros s a s' H. injection H as <- <-. apply R_sleep. Qed.

(** [if (queue_lock()) return -EFAULT;] followed by a critical section that
    puts [cs] and by code [k] that keeps [R]. *)
Lemma preserves_locked (cs : list ascii) (body : M unit) (k : M Z) :
  Forall symbol cs ->
  (forall s, body s = put_section cs s) ->
  preserves R k ->
  preserves R (r <- queue_lock lock_ok ;;
               if negb (r =? 0) then ret (- EFAULT) else (body ;; k)).
Proof.
  intros Hcs Hbody Hk s r s' H.
  unfold bind at 1, queue_lock, mutex_lock_interruptible in H.
  destruct (lock_ok (lock_attempts s)); cbn [Z.eqb negb EINTR Z.opp] in H.
  - fold (locked s) in H. unfold bind in H. rewrite Hbody in H.
    destruct (put_section cs (locked s)) as [[[] s1] |] eqn:E; [| discriminate].
    exact (R_trans _ _ _ (R_section _ _ _ Hcs E) (Hk _ _ _ H)).
  - injection H as <- <-. apply R_interrupted.
Qed.

Lemma preserves_put_valid (n : Z) :
  preserves R (put_valid_morsecode_into_queue lock_ok n).
Proof.
  unfold put_valid_morsecode_into_queue, queue_unlock.
  destruct ((n =? ONES_IN_A_DOT) || (n =? ONES_IN_A_DASH));
    [| apply preserves_ret].
  assert (Hshape : forall (pre : M unit) cs,
             Forall symbol cs ->
             (forall s, (pre ;; mutex_unlock) s = put_section cs s) ->
             preserves R
               (r <- queue_lock lock_ok ;;
                if negb (r =? 0) then ret (- EFAULT)
                else pre ;; mutex_unlock ;; ret 0)).
  { intros pre cs Hcs Hpre s r s' H.
    apply (preserves_locked cs (pre ;; mutex_unlock) (ret 0) Hcs Hpre
                            (preserves_ret 0) s r s').
    rewrite <- H. unfold bind.
    destruct (queue_lock lock_ok s) as [[r0 s0] |]; [| reflexivity].
    destruct (negb (r0 =? 0)); [reflexivity |].
    destruct (pre s0) as [[[] s1] |]; reflexivity. }
  destruct (n =? ONES_IN_A_DOT); [| destruct (n =? ONES_IN_A_DASH)].
  - apply (Hshape _ [DOT_SYMBOL]).
    + repeat constructor.
    + intros s. unfold put_section, kfifo_puts, bind.
      destruct (kfifo_put DOT_SYMBOL s) as [[r s1] |]; reflexivity.
  - apply (Hshape _ [DASH_SYMBOL]).
    + constructor; [right; left; reflexivity | constructor].
    + intros s. unfold put_section, kfifo_puts, bind.
      destruct (kfifo_put DASH_SYMBOL s) as [[r s1] |]; reflexivity.
  - apply (Hshape _ []); [constructor | reflexivity].
Qed.

Lemma preserves_checked (c k : M Z) :
  preserves R c -> preserves R k ->
  preserves R (r <- c ;; if negb (r =? 0) then ret (- EFAULT) else k).
Proof.
  intros Hc Hk. apply preserves_bind; [exact Hc | intros r].
  destruct (negb (r =? 0)); [apply preserves_ret | exact Hk].
Qed.

Lemma preserves_pulse (b : led_brightness) (k : M Z) :
  preserves R k ->
  preserves R (led_trigger_event b ;; msleep dottime ;; k).
Proof.
  intros Hk. apply preserves_bind; [apply preserves_led | intros _].
  apply preserves_bind; [apply preserves_msleep | intros _]. exact Hk.
Qed.

Lemma preserves_flash_morsecode_loop (fuel : nat) :
  forall m ones,
    preserves R (flash_morsecode_loop dottime lock_ok fuel m ones).
Proof.
  induction fuel as [| fuel IH]; intros m ones; cbn [flash_morsecode_loop];
    destruct (m =? 0);
    try (apply preserves_checked;
         [apply preserves_put_valid | apply preserves_pulse, preserves_ret]).
  - intros s r s' H. discriminate H.
  - match goal with |- context [if ?c then _ else _] => destruct c end.
    + apply preserves_pulse, IH.
    + apply preserves_checked;
        [apply preserves_put_valid | apply preserves_pulse, IH].
Qed.

Lemma preserves_process_morsecode (ch : ascii) (b : bool) :
  preserves R (process_morsecode dottime lock_ok ch b).
Proof.
  assert (Hsep : forall ms,
             preserves R
               (r <- queue_lock lock_ok ;;
                if negb (r =? 0) then ret (- EFAULT)
                else
                  kfifo_put SEPARATOR_SYMBOL ;;
                  queue_unlock ;;
                  msleep ms ;;
                  ret 0)).
  { intros ms s r s' H.
    apply (preserves_locked [SEPARATOR_SYMBOL]
             (kfifo_put SEPARATOR_SYMBOL ;; mutex_unlock)
             (msleep ms ;; ret 0)) with (s := s) (a := r).
    - constructor; [right; right; reflexivity | constructor].
    - intros s0. unfold put_section, kfifo_puts, bind.
      destruct (kfifo_put SEPARATOR_SYMBOL s0) as [[r0 s1] |]; reflexivity.
    - apply preserves_bind; [apply preserves_msleep | intros; apply preserves_ret].
    - rewrite <- H. unfold bind, queue_unlock.
      destruct (queue_lock lock_ok s) as [[r0 s0] |]; [| reflexivity].
      destruct (negb (r0 =? 0)); [reflexivity |].
      destruct (kfifo_put SEPARATOR_SYMBOL s0) as [[r1 s1] |]; reflexivity. }
  assert (Hletter : forall idx,
             preserves R
               (r <- (if b
                      then
                        r <- queue_lock lock_ok ;;
                        if negb (r =? 0) then ret (- EFAULT)
                        else
                          kfifo_put SEPARATOR_SYMBOL ;;
                          queue_unlock ;;
                          msleep ((INTER_LETTER_DOTTIMES - 1) * dottime) ;;
                          ret 0
                      else ret 0) ;;
                if negb (r =? 0) then ret (- EFAULT)
                else
                  r <- flash_morsecode dottime lock_ok
                         (nth idx letter_to_morsecode_bits_map 0) ;;
                  if negb (r =? 0) then ret (- EFAULT) else ret 0)).
  { intros idx. apply preserves_checked.
    - destruct b; [apply Hsep | apply preserves_ret].
    - apply preserves_checked;
        [apply preserves_flash_morsecode_loop | apply preserves_ret]. }
  unfold process_morsecode.
  destruct (is_lower ch); [apply Hletter |].
  destruct (is_upper ch); [apply Hletter |].
  destruct (is_space ch); [| apply preserves_ret].
  intros s r s' H.
  apply (preserves_locked [SEPARATOR_SYMBOL; SEPARATOR_SYMBOL]
           (kfifo_put SEPARATOR_SYMBOL ;; kfifo_put SEPARATOR_SYMBOL ;;
            mutex_unlock)
           (msleep ((INTER_WORD_DOTTIMES - INTER_LETTER_DOTTIMES) * dottime) ;;
            ret 0)) with (s := s) (a := r).
  - repeat constructor; right; right; reflexivity.
  - intros s0. unfold put_section, kfifo_puts, bind.
    destruct (kfifo_put SEPARATOR_SYMBOL s0) as [[r0 s1] |]; [| reflexivity].
    destruct (kfifo_put SEPARATOR_SYMBOL s1) as [[r1 s2] |]; reflexivity.
  - apply preserves_bind; [apply preserves_msleep | intros; apply preserves_ret].
  - rewrite <- H. unfold bind, queue_unlock.
    destruct (queue_lock lock_ok s) as [[r0 s0] |]; [| reflexivity].
    destruct (negb (r0 =? 0)); [reflexivity |].
    destruct (kfifo_put SEPARATOR_SYMBOL s0) as [[r1 s1] |]; [| reflexivity].
    destruct (kfifo_put SEPARATOR_SYMBOL s1) as [[r2 s2] |]; reflexivity.
Qed.

Lemma preserves_my_write_loop (buff : user_buffer) (count : nat) (fuel : nat) :
  (forall n s, R s (add_pos n s)) ->
  forall idx has,
    preserves R (my_write_loop dottime lock_ok fuel buff count idx has).
Proof.
  intros R_pos.
  assert (Hdone : preserves R (write_done count)).
  { intros s r s' H. injection H as <- <-. apply R_pos. }
  induction fuel as [| fuel IH]; intros idx has; cbn [my_write_loop];
    destruct (count <=? idx)%nat; try exact Hdone.
  - intros s r s' H. discriminate H.
  - assert (Hrest : forall ch i,
               preserves R
                 (if is_morsecode_char ch
                  then
                    r <- process_morsecode dottime lock_ok ch has ;;
                    if negb (r =? 0) then ret (- EFAULT)
                    else my_write_loop dottime lock_ok fuel buff count (S i) true
                  else my_write_loop dottime lock_ok fuel buff count (S i) has)).
    { intros ch i. destruct (is_morsecode_char ch); [| apply IH].
      apply preserves_checked; [apply preserves_process_morsecode | apply IH]. }
    destruct (buff idx) as [ch |]; [| apply preserves_ret].
    destruct (is_space ch); [| apply Hrest].
    destruct (scan_to_letter (count - S idx) buff (S idx)) as [peek |];
      [| apply preserves_ret].
    destruct (count <=? peek)%nat; [exact Hdone | apply Hrest].
Qed.

Lemma preserves_my_write (buff : user_buffer) (count : nat) :
  (forall n s, R s (add_pos n s)) ->
  preserves R (my_write dottime lock_ok buff count).
Proof.
  intros R_pos. unfold my_write.
  destruct (scan_to_letter count buff 0); [| apply preserves_ret].
  now apply preserves_my_write_loop.
Qed.

Lemma preserves_process_chars (l : list ascii) :
  forall has, preserves R (process_chars dottime lock_ok has l).
Proof.
  induction l as [| ch rest IH]; intros has; cbn [process_chars].
  - apply preserves_ret.
  - apply preserves_checked; [apply preserves_process_morsecode | apply IH].
Qed.


End StepInvariant.


(** ** The text that is processed *)

Lemma well_formed_cons_letter (c : ascii) (tail : list ascii) :
  is_letter c = true -> well_formed_tail tail = true ->
  well_formed (c :: tail) = true /\ well_formed_tail (c :: tail) = true.
Proof.
  intros Hc Ht.
  destruct (split_words_letter c tail (is_letter_not_space c Hc))
    as (w & ws & E1 & E2).
  unfold well_formed, well_formed_tail in *. rewrite E1 in Ht. rewrite E2.
  apply andb_prop in Ht. destruct Ht as [Hw Hws].
  cbn [forallb]. unfold letter_word at 1. cbn [List.length Nat.eqb negb forallb].
  rewrite Hc, Hw, Hws. split; reflexivity.
Qed.

Lemma well_formed_tail_cons_space (ch : ascii) (text : list ascii) :
  is_space ch = true -> well_formed text = true ->
  well_formed_tail (ch :: text) = true.
Proof.
  intros Hsp Ht. unfold well_formed_tail. cbn [split_words]. rewrite Hsp.
  exact Ht.
Qed.

Lemma norm_shape (suf : list ascii) :
  well_formed_tail (norm false suf) = true
  /\ (norm true suf = [] \/ well_formed (norm true suf) = true)
  /\ (existsb is_letter suf = true -> norm true suf <> []).
Proof.
  induction suf as [| ch rest (IH1 & IH2 & IH3)].
  - repeat split; [now left | discriminate].
  - cbn [norm existsb]. destruct (is_letter ch) eqn:Hl.
    + destruct (well_formed_cons_letter ch _ Hl IH1) as [Hw Ht].
      repeat split; [exact Ht | now right | discriminate].
    + cbn [orb]. split; [| split; assumption].
      destruct (is_space ch) eqn:Hsp; [| exact IH1].
      destruct (existsb is_letter rest) eqn:He; [| reflexivity].
      apply well_formed_tail_cons_space; [exact Hsp |].
      destruct IH2 as [Hnil | Hw]; [now elim (IH3 eq_refl) | exact Hw].
Qed.

Lemma norm_fixed (suf : list ascii) :
  well_formed_tail suf = true ->
  norm false suf = suf /\ (well_formed suf = true -> norm true suf = suf).
Proof.
  induction suf as [| ch rest IH]; intros Ht; [split; reflexivity |].
  destruct (well_formed_tail_rest ch rest Ht) as [Hrest Hch].
  destruct (IH Hrest) as [IH1 IH2].
  cbn [norm]. destruct (is_letter ch) eqn:Hl.
  - rewrite IH1. split; reflexivity.
  - destruct (is_space ch) eqn:Hsp; [| congruence].
    split.
    + destruct (well_formed_head rest Hch) as (c & r & Hr & Hc & _).
      rewrite (IH2 Hch). rewrite Hr at 1. cbn [existsb]. rewrite Hc.
      reflexivity.
    + intros Hw. destruct (well_formed_head _ Hw) as (c & r & Hr & Hc & _).
      injection Hr as <- <-. congruence.
Qed.

Lemma normalize_well_formed (str : list ascii) :
  well_formed str = true -> normalize str = str.
Proof.
  intros Hw. apply (norm_fixed str (well_formed_is_tail str Hw)), Hw.
Qed.

Lemma normalize_idempotent (str : list ascii) :
  normalize (normalize str) = normalize str.
Proof.
  destruct (norm_shape str) as (_ & [Hnil | Hw] & _).
  - unfold normalize. rewrite Hnil. reflexivity.
  - now apply normalize_well_formed.
Qed.

Lemma normalize_tail (str : list ascii) :
  well_formed_tail (normalize str) = true.
Proof.
  destruct (norm_shape str) as (_ & [Hnil | Hw] & _).
  - unfold normalize. rewrite Hnil. reflexivity.
  - now apply well_formed_is_tail.
Qed.

(** X4: [my_write] does to the fifo, the LED and the lock what it would do
    for the normalized text, whatever the lock does: junk in front, bytes
    that are neither letters nor spaces, repeated separators and anything
    behind the last letter change nothing but the count returned.  The
    normalized text is empty or well formed, and a well-formed text is its
    own normal form. *)
Theorem my_write_normalize (str : list ascii) (s : state) :
  let text := normalize str in
  (text = [] \/ well_formed text = true)
  /\ (well_formed str = true -> text = str)
  /\ exists r1 s1 r2 s2,
       my_write dottime lock_ok (user_string str) (List.length str) s
       = Some (r1, s1)
       /\ my_write dottime lock_ok (user_string text) (List.length text) s
          = Some (r2, s2)
       /\ flashed_codes_queue s1 = flashed_codes_queue s2
       /\ trace s1 = trace s2
       /\ lock_attempts s1 = lock_attempts s2
       /\ ((r1 = Z.of_nat (List.length str)
            /\ r2 = Z.of_nat (List.length text))
           \/ (r1 = - EFAULT /\ r2 = - EFAULT /\ f_pos s1 = f_pos s2)).
Proof.
  intros text. split; [apply norm_shape |].
  split; [apply normalize_well_formed |].
  pose proof (my_write_process_chars str s) as E1. fold text in E1.
  pose proof (my_write_process_chars text s) as E2.
  unfold text in E2 at 3. rewrite normalize_idempotent in E2. fold text in E2.
  rewrite E1, E2. unfold bind.
  destruct (process_chars dottime lock_ok false text s) as [[r0 s0] |] eqn:Ep.
  - destruct (negb (r0 =? 0)).
    + exists (- EFAULT), s0, (- EFAULT), s0.
      do 5 (split; [reflexivity |]). right. repeat split.
    + exists (Z.of_nat (List.length str)),
        (add_pos (Z.of_nat (List.length str)) s0),
        (Z.of_nat (List.length text)),
        (add_pos (Z.of_nat (List.length text)) s0).
      do 5 (split; [reflexivity |]). left. split; reflexivity.
  - destruct (total_my_write dottime lock_ok (user_string str)
                             (List.length str) s) as (r1 & s1 & H1).
    rewrite E1 in H1. unfold bind in H1. rewrite Ep in H1. discriminate.
Qed.


(** ** What a critical section does *)

Lemma lock_discipline_app (evs1 evs2 : list event) :
  forall held,
    lock_discipline held (evs1 ++ evs2)
    = match lock_discipline held evs1 with
      | Some held' => lock_discipline held' evs2
      | None => None
      end.
Proof.
  induction evs1 as [| e evs1 IH]; intros held; [reflexivity |].
  destruct e as [b | ms | acquired | | c stored], held; cbn;
    try reflexivity; apply IH.
Qed.

Lemma kfifo_puts_effect (cs : list ascii) :
  forall s0 s1,
    kfifo_puts cs s0 = Some (tt, s1) ->
    f_pos s1 = f_pos s0
    /\ lock_attempts s1 = lock_attempts s0
    /\ flashed_codes_queue s1 = fifo_puts (flashed_codes_queue s0) cs
    /\ exists puts,
         trace s1 = trace s0 ++ puts
         /\ lock_discipline true puts = Some true.
Proof.
  induction cs as [| c cs IH]; intros s0 s1 H.
  - injection H as <-. repeat split. exists []. split; [| reflexivity].
    now rewrite app_nil_r.
  - cbn [kfifo_puts] in H. unfold bind at 1 in H. unfold kfifo_put in H.
    destruct (kfifo_is_full (flashed_codes_queue s0)) eqn:Hfull;
      destruct (IH _ _ H) as (Hp & Hn & Hq & puts & Ht & Hd);
      cbn [f_pos lock_attempts flashed_codes_queue trace log set_queue]
        in Hp, Hn, Hq, Ht;
      (split; [exact Hp |]); (split; [exact Hn |]);
      (split; [rewrite Hq; cbn [fifo_puts fold_left]; now rewrite Hfull |]).
    + exists (EvPut c false :: puts). split; [| exact Hd].
      rewrite Ht, <- app_assoc. reflexivity.
    + exists (EvPut c true :: puts). split; [| exact Hd].
      rewrite Ht, <- app_assoc. reflexivity.
Qed.

Lemma put_section_effect (cs : list ascii) (s s' : state) :
  put_section cs (locked s) = Some (tt, s') ->
  f_pos s' = f_pos s
  /\ lock_attempts s' = S (lock_attempts s)
  /\ flashed_codes_queue s' = fifo_puts (flashed_codes_queue s) cs
  /\ exists evs,
       trace s' = trace s ++ evs /\ lock_discipline false evs = Some false.
Proof.
  unfold put_section, bind. intros H.
  destruct (kfifo_puts cs (locked s)) as [[[] s1] |] eqn:E; [| discriminate].
  injection H as <-.
  destruct (kfifo_puts_effect cs _ _ E) as (Hp & Hn & Hq & puts & Ht & Hd).
  cbn in Hp, Hn, Hq, Ht. cbn [f_pos lock_attempts flashed_codes_queue trace log].
  repeat split; try assumption.
  exists ([EvLock true] ++ puts ++ [EvUnlock]). split.
  - rewrite Ht, <- !app_assoc. reflexivity.
  - cbn [app lock_discipline]. rewrite lock_discipline_app, Hd. reflexivity.
Qed.

Lemma fifo_puts_prefix (l : list ascii) :
  forall q,
    fifo_puts q l
    = q ++ firstn (Z.to_nat (QUEUE_SIZE - Z.of_nat (List.length q))) l.
Proof.
  induction l as [| c l IH]; intros q.
  - now rewrite firstn_nil, app_nil_r.
  - cbn [fifo_puts fold_left]. destruct (kfifo_is_full q) eqn:Hfull.
    + fold (fifo_puts q l). rewrite IH.
      apply kfifo_is_full_true in Hfull.
      replace (Z.to_nat (QUEUE_SIZE - Z.of_nat (List.length q))) with 0%nat
        by lia.
      reflexivity.
    + fold (fifo_puts (q ++ [c]) l). rewrite IH.
      apply kfifo_is_full_false in Hfull.
      rewrite length_app. cbn [List.length].
      replace (Z.to_nat (QUEUE_SIZE - Z.of_nat (List.length q)))
        with (S (Z.to_nat (QUEUE_SIZE - Z.of_nat (List.length q + 1))))
        by lia.
      cbn [firstn]. now rewrite <- app_assoc.
Qed.

Lemma process_chars_keeps_pos (l : list ascii) (has : bool) :
  preserves (fun s s' => f_pos s' = f_pos s)
            (process_chars dottime lock_ok has l).
Proof.
  apply preserves_process_chars; try reflexivity.
  - intros s1 s2 s3 H12 H23. congruence.
  - intros cs s s' _ H. now destruct (put_section_effect cs s s' H).
Qed.

Section EveryLockAcquired.

Hypothesis Hok : forall n, lock_ok n = true.

Lemma process_chars_queue (l : list ascii) :
  forall has s,
    regular l = true ->
    exists s',
      process_chars dottime lock_ok has l s = Some (0, s')
      /\ flashed_codes_queue s'
         = fifo_puts (flashed_codes_queue s) (char_stream has l).
Proof.
  induction l as [| ch rest IH]; intros has s Hreg.
  - exists s. split; reflexivity.
  - cbn [regular] in Hreg. apply andb_prop in Hreg. destruct Hreg as [Hch Hrest].
    cbn [process_chars char_stream]. rewrite fifo_puts_app.
    destruct (is_space ch) eqn:Hsp.
    + destruct (process_morsecode_space dottime lock_ok Hok ch has s Hsp)
        as (s1 & Hp & Hq1).
      rewrite (bind_eq _ _ _ _ _ Hp). cbn [Z.eqb negb].
      destruct (IH true s1 Hrest) as (s' & Hw & Hq).
      exists s'. split; [exact Hw |]. now rewrite Hq, Hq1.
    + destruct (process_morsecode_letter dottime lock_ok Hok ch has s Hch)
        as (s1 & Hp & Hq1).
      rewrite (bind_eq _ _ _ _ _ Hp). cbn [Z.eqb negb].
      destruct (IH true s1 Hrest) as (s' & Hw & Hq).
      exists s'. split; [exact Hw |]. now rewrite Hq, Hq1.
Qed.

Lemma my_write_text (str : list ascii) (s : state) :
  exists s0,
    process_chars dottime lock_ok false (normalize str) s = Some (0, s0)
    /\ my_write dottime lock_ok (user_string str) (List.length str) s
       = Some (Z.of_nat (List.length str),
               add_pos (Z.of_nat (List.length str)) s0)
    /\ flashed_codes_queue s0
       = fifo_puts (flashed_codes_queue s) (queued_stream (normalize str))
    /\ f_pos s0 = f_pos s.
Proof.
  pose proof (normalize_tail str) as Htail.
  destruct (process_chars_queue (normalize str) false s
              (well_formed_tail_regular _ Htail)) as (s0 & Hp & Hq).
  exists s0. split; [exact Hp |]. split; [| split].
  - rewrite my_write_process_chars, (bind_eq _ _ _ _ _ Hp). reflexivity.
  - rewrite Hq, (char_stream_words _ false Htail).
    destruct (norm_shape str) as (_ & [Hnil | Hw] & _); fold (normalize str) in *.
    + rewrite Hnil. reflexivity.
    + destruct (well_formed_head _ Hw) as (c & r & Hr & Hc & _).
      rewrite Hr at 1. cbn [leading_separator].
      now rewrite (is_letter_not_space c Hc).
  - exact (process_chars_keeps_pos _ _ _ _ _ Hp).
Qed.

End EveryLockAcquired.

(** X5: with every lock acquired, a [my_write] of any bytes returns the
    byte count, advances the file offset by it, and appends to the fifo the
    stream of the normalized text, cut where the fifo is full: symbols that
    do not fit are dropped without any error. *)
Theorem my_write_any_text (str : list ascii) (s : state)
  (Hok : forall n, lock_ok n = true) :
  exists s',
    my_write dottime lock_ok (user_string str) (List.length str) s
    = Some (Z.of_nat (List.length str), s')
    /\ flashed_codes_queue s'
       = flashed_codes_queue s
           ++ firstn (Z.to_nat (QUEUE_SIZE
                                - Z.of_nat (List.length (flashed_codes_queue s))))
                     (queued_stream (normalize str))
    /\ f_pos s' = f_pos s + Z.of_nat (List.length str).
Proof.
  destruct (my_write_text Hok str s) as (s0 & _ & Hw & Hq & Hp).
  exists (add_pos (Z.of_nat (List.length str)) s0).
  split; [exact Hw |]. cbn [flashed_codes_queue f_pos add_pos]. split.
  - rewrite Hq. apply fifo_puts_prefix.
  - now rewrite Hp.
Qed.

(** X6: two writes in a row, with every lock acquired and room in the
    fifo, queue the stream of the first text directly followed by the
    stream of the second: no separator is put between the last letter of
    one write and the first letter of the next. *)
Theorem my_write_twice (str1 str2 : list ascii) (s : state)
  (Hok : forall n, lock_ok n = true)
  (Hroom : Z.of_nat (List.length (flashed_codes_queue s))
           + Z.of_nat (List.length (queued_stream (normalize str1)))
           + Z.of_nat (List.length (queued_stream (normalize str2)))
           <= QUEUE_SIZE) :
  exists s1 s2,
    my_write dottime lock_ok (user_string str1) (List.length str1) s
    = Some (Z.of_nat (List.length str1), s1)
    /\ my_write dottime lock_ok (user_string str2) (List.length str2) s1
       = Some (Z.of_nat (List.length str2), s2)
    /\ flashed_codes_queue s2
       = flashed_codes_queue s
           ++ queued_stream (normalize str1) ++ queued_stream (normalize str2).
Proof.
  destruct (my_write_text Hok str1 s) as (s0 & _ & Hw1 & Hq1 & _).
  destruct (my_write_text Hok str2 (add_pos (Z.of_nat (List.length str1)) s0))
    as (s0' & _ & Hw2 & Hq2 & _).
  eexists; eexists. split; [exact Hw1 |]. split; [exact Hw2 |].
  cbn [flashed_codes_queue add_pos] in Hq2 |- *.
  rewrite Hq2, Hq1, <- fifo_puts_app. apply fifo_puts_room.
  rewrite length_app. lia.
Qed.


(** ** The locking discipline *)

Lemma disciplined_refl (s : state) : disciplined s s.
Proof. exists []. split; [now rewrite app_nil_r | reflexivity]. Qed.

Lemma disciplined_trans (s1 s2 s3 : state) :
  disciplined s1 s2 -> disciplined s2 s3 -> disciplined s1 s3.
Proof.
  intros (e1 & Ht1 & Hd1) (e2 & Ht2 & Hd2). exists (e1 ++ e2). split.
  - now rewrite Ht2, Ht1, app_assoc.
  - now rewrite lock_discipline_app, Hd1.
Qed.

Lemma disciplined_step (e : event) (s : state) :
  lock_discipline false [e] = Some false -> disciplined s (log e s).
Proof. intros H. exists [e]. split; [reflexivity | exact H]. Qed.

Lemma disciplined_producer (op : operation) :
  producer op -> preserves disciplined (run dottime lock_ok op).
Proof.
  assert (Hsec : forall cs s s',
             Forall symbol cs -> put_section cs (locked s) = Some (tt, s') ->
             disciplined s s').
  { intros cs s s' _ H. now destruct (put_section_effect cs s s' H) as (_ & _ & _ & He). }
  assert (Hint : forall s, disciplined s (count_attempt (log (EvLock false) s))).
  { intros s. exists [EvLock false]. split; reflexivity. }
  assert (Hled : forall b s, disciplined s (log (EvLed b) s))
    by (intros; now apply disciplined_step).
  assert (Hsl : forall ms s, disciplined s (log (EvSleep ms) s))
    by (intros; now apply disciplined_step).
  destruct op; cbn [run producer]; intros Hp; try contradiction.
  - now apply preserves_put_valid; try apply disciplined_trans;
      try apply disciplined_refl.
  - now apply preserves_flash_morsecode_loop; try apply disciplined_trans;
      try apply disciplined_refl.
  - now apply preserves_process_morsecode; try apply disciplined_trans;
      try apply disciplined_refl.
  - apply preserves_my_write; try apply disciplined_trans;
      try apply disciplined_refl; try assumption.
    intros n s. exists []. split; [cbn; now rewrite app_nil_r | reflexivity].
Qed.

Lemma disciplined_my_read (writable : bool) (count : nat) :
  preserves disciplined (my_read lock_ok writable count).
Proof.
  intros [q tr k pos] r s' H.
  unfold my_read, bind, queue_lock, mutex_lock_interruptible, kfifo_is_empty,
    kfifo_put, kfifo_to_user, queue_unlock, mutex_unlock, emit, ret in H.
  cbn [lock_attempts flashed_codes_queue count_attempt log trace f_pos] in H.
  destruct (lock_ok k); cbn [Z.eqb negb EINTR Z.opp] in H.
  - destruct q as [| c q]; cbn [negb] in H.
    + destruct writable, count; cbn in H; injection H as <- <-;
        (eexists; split; [cbn; rewrite <- ?app_assoc; reflexivity | reflexivity]).
    + destruct writable, count;
        cbn -[firstn skipn Z.of_nat kfifo_is_full] in H;
        destruct (kfifo_is_full (c :: q));
        cbn -[firstn skipn Z.of_nat] in H; injection H as <- <-;
        (eexists; split; [cbn; rewrite <- ?app_assoc; reflexivity | reflexivity]).
  - injection H as <- <-. exists [EvLock false]. split; reflexivity.
Qed.

(** X7: every operation returns with the mutex free, whatever its outcome
    and whatever the lock did; while it ran, the fifo was put to only under
    the mutex, and the LED was switched and the caller slept only without
    it. *)
Theorem lock_discipline_kept (op : operation) (s : state)
  (Hvalid : valid op) :
  exists r s' evs,
    run dottime lock_ok op s = Some (r, s')
    /\ trace s' = trace s ++ evs
    /\ lock_discipline false evs = Some false.
Proof.
  destruct (total_run dottime lock_ok op Hvalid s) as (r & s' & Hrun).
  assert (Hd : disciplined s s').
  { destruct op as [n | m | ch b | writable count | buff count].
    1-3, 5: refine (disciplined_producer _ _ s r s' Hrun); exact I.
    cbn [run] in Hrun. unfold bind in Hrun.
    destruct (my_read lock_ok writable count s) as [[a s1] |] eqn:E;
      [| discriminate].
    injection Hrun as <- <-.
    exact (disciplined_my_read _ _ _ _ _ E). }
  destruct Hd as (evs & Ht & Hdisc).
  exists r, s', evs. repeat split; assumption.
Qed.

(** ** The producer side only appends *)

Lemma appended_refl (s : state) : appended s s.
Proof. exists []. split; [now rewrite app_nil_r | constructor]. Qed.

Lemma appended_trans (s1 s2 s3 : state) :
  appended s1 s2 -> appended s2 s3 -> appended s1 s3.
Proof.
  intros (l1 & Hq1 & Hs1) (l2 & Hq2 & Hs2). exists (l1 ++ l2). split.
  - now rewrite Hq2, Hq1, app_assoc.
  - apply Forall_app. split; assumption.
Qed.

Lemma appended_section (cs : list ascii) (s s' : state) :
  Forall symbol cs -> put_section cs (locked s) = Some (tt, s') ->
  appended s s'.
Proof.
  intros Hcs H. destruct (put_section_effect cs s s' H) as (_ & _ & Hq & _).
  rewrite fifo_puts_prefix in Hq.
  eexists. split; [exact Hq |].
  rewrite <- (firstn_skipn
                (Z.to_nat (QUEUE_SIZE - Z.of_nat (List.length (flashed_codes_queue s))))
                cs) in Hcs.
  apply Forall_app in Hcs. apply Hcs.
Qed.

(** X8: whatever the lock does, the flush of a run, the flash of a letter,
    the processing of a character and a write never remove or reorder what
    is queued: they leave the fifo as it was with some symbols appended,
    each of them a dot, a dash or a separator. *)
Theorem producer_appends_symbols (op : operation) (s : state)
  (Hvalid : valid op) (Hproducer : producer op) :
  exists r s' l,
    run dottime lock_ok op s = Some (r, s')
    /\ flashed_codes_queue s' = flashed_codes_queue s ++ l
    /\ Forall (fun c => c = DOT_SYMBOL \/ c = DASH_SYMBOL
                        \/ c = SEPARATOR_SYMBOL) l.
Proof.
  destruct (total_run dottime lock_ok op Hvalid s) as (r & s' & Hrun).
  assert (Ha : appended s s').
  { assert (Hstep : forall e s0, appended s0 (log e s0))
      by (intros; exists []; split; [cbn; now rewrite app_nil_r | constructor]).
    assert (Hint : forall s0, appended s0 (count_attempt (log (EvLock false) s0)))
      by (intros; exists []; split; [cbn; now rewrite app_nil_r | constructor]).
    assert (Hpos : forall n s0, appended s0 (add_pos n s0))
      by (intros; exists []; split; [cbn; now rewrite app_nil_r | constructor]).
    destruct op; cbn [run producer] in *; try contradiction.
    - revert Hrun. apply preserves_put_valid;
        first [ exact appended_refl | exact appended_trans | exact Hint
              | exact appended_section | exact Hpos | intros; apply Hstep ].
    - revert Hrun. apply preserves_flash_morsecode_loop;
        first [ exact appended_refl | exact appended_trans | exact Hint
              | exact appended_section | exact Hpos | intros; apply Hstep ].
    - revert Hrun. apply preserves_process_morsecode;
        first [ exact appended_refl | exact appended_trans | exact Hint
              | exact appended_section | exact Hpos | intros; apply Hstep ].
    - revert Hrun. apply preserves_my_write;
        first [ exact appended_refl | exact appended_trans | exact Hint
              | exact appended_section | exact Hpos | intros; apply Hstep ]. }
  destruct Ha as (l & Hq & Hl).
  exists r, s', l. repeat split; assumption.
Qed.


(** ** The pulses of a letter *)

Lemma pulses_app (evs1 evs2 : list event) :
  pulses (evs1 ++ evs2) = pulses evs1 ++ pulses evs2.
Proof. apply filter_app. Qed.

Lemma kfifo_puts_pulses (cs : list ascii) :
  forall s0 s1,
    kfifo_puts cs s0 = Some (tt, s1) ->
    pulses (trace s1) = pulses (trace s0).
Proof.
  induction cs as [| c cs IH]; intros s0 s1 H.
  - injection H as <-. reflexivity.
  - cbn [kfifo_puts] in H. unfold bind at 1 in H. unfold kfifo_put in H.
    destruct (kfifo_is_full (flashed_codes_queue s0));
      rewrite (IH _ _ H); cbn [trace log set_queue];
      rewrite pulses_app; cbn; now rewrite app_nil_r.
Qed.

Lemma put_section_pulses (cs : list ascii) (s s' : state) :
  put_section cs (locked s) = Some (tt, s') ->
  pulses (trace s') = pulses (trace s).
Proof.
  unfold put_section, bind. intros H.
  destruct (kfifo_puts cs (locked s)) as [[[] s1] |] eqn:E; [| discriminate].
  injection H as <-. cbn [trace log]. rewrite pulses_app.
  rewrite (kfifo_puts_pulses _ _ _ E). cbn [locked trace log count_attempt].
  rewrite pulses_app. cbn. now rewrite !app_nil_r.
Qed.

Lemma put_valid_pulses (n : Z) :
  preserves (fun s s' => pulses (trace s') = pulses (trace s))
            (put_valid_morsecode_into_queue lock_ok n).
Proof.
  apply preserves_put_valid.
  - reflexivity.
  - intros s1 s2 s3 H12 H23. congruence.
  - intros s. cbn [trace log count_attempt]. rewrite pulses_app. cbn.
    now rewrite app_nil_r.
  - intros cs s s' _ H. exact (put_section_pulses cs s s' H).
Qed.

Lemma strip_zeros_repeat_false (n : nat) : strip_zeros (repeat false n) = [].
Proof. induction n as [| n IH]; [reflexivity |]. cbn. now rewrite IH. Qed.

Lemma strip_zeros_cons (b : bool) (rest : list bool) :
  strip_zeros (b :: rest) <> [] ->
  strip_zeros (b :: rest) = b :: strip_zeros rest.
Proof.
  cbn [strip_zeros]. destruct (strip_zeros rest); [| reflexivity].
  destruct b; [reflexivity | congruence].
Qed.

Lemma shl1_zero (m : Z) :
  0 <= m < 65536 -> shl1 m = 0 -> Z.testbit m 15 = false -> m = 0.
Proof.
  intros Hm Hs Hb. unfold shl1 in Hs. change USHORT_MODULUS with 65536 in Hs.
  rewrite Z.shiftl_mul_pow2 in Hs by lia. change (2 ^ 1) with 2 in Hs.
  apply Z.mod_divide in Hs; [| lia]. destruct Hs as [k Hk].
  assert (Hk' : k = 0 \/ k = 1) by lia.
  destruct Hk' as [-> | ->]; [lia |].
  assert (m = 32768) by lia. subst m. discriminate Hb.
Qed.

Lemma aligned_strip_zeros (fuel : nat) :
  forall j,
    (fuel <= 16)%nat -> 0 <= j < 2 ^ Z.of_nat fuel ->
    strip_zeros (top_bits fuel (2 ^ (16 - Z.of_nat fuel) * j)) = [] ->
    2 ^ (16 - Z.of_nat fuel) * j = 0.
Proof.
  induction fuel as [| fuel IH]; intros j Hf Hj Hstrip.
  - assert (j = 0) by (cbn in Hj; lia). subst j. apply Z.mul_0_r.
  - pose proof (aligned_range (S fuel) j Hf Hj) as Hrange.
    rewrite top_bits_succ in Hstrip by lia.
    rewrite (shl1_aligned fuel j) in Hstrip by lia.
    assert (Hj' : 0 <= j mod 2 ^ Z.of_nat fuel < 2 ^ Z.of_nat fuel).
    { apply Z.mod_pos_bound. apply Z.pow_pos_nonneg; lia. }
    cbn [strip_zeros] in Hstrip.
    destruct (strip_zeros
                (top_bits fuel (2 ^ (16 - Z.of_nat fuel)
                                * (j mod 2 ^ Z.of_nat fuel)))) eqn:E;
      [| discriminate].
    destruct (Z.testbit (2 ^ (16 - Z.of_nat (S fuel)) * j) 15) eqn:Hb;
      [discriminate |].
    apply (shl1_zero _ Hrange); [| exact Hb].
    rewrite (shl1_aligned fuel j) by lia.
    apply IH; [lia | exact Hj' | exact E].
Qed.

(** A flash that returns 0 has switched the LED and slept once for each
    bit up to the last 1 bit, then switched it off and slept once more. *)
Lemma flash_morsecode_loop_pulses (fuel : nat) :
  forall (j ones : Z) (s s' : state),
    (fuel <= 16)%nat -> 0 <= j < 2 ^ Z.of_nat fuel ->
    let m := 2 ^ (16 - Z.of_nat fuel) * j in
    flash_morsecode_loop dottime lock_ok fuel m ones s = Some (0, s') ->
    pulses (trace s')
    = pulses (trace s)
        ++ flash_pulses dottime (strip_zeros (top_bits fuel m)).
Proof.
  assert (Hexit : forall ones s s',
             (r <- put_valid_morsecode_into_queue lock_ok ones ;;
              if negb (r =? 0) then ret (- EFAULT)
              else
                led_trigger_event LED_OFF ;;
                msleep dottime ;;
                ret 0) s = Some (0, s') ->
             pulses (trace s')
             = pulses (trace s) ++ flash_pulses dottime []).
  { intros ones s s' H. unfold bind at 1 in H.
    destruct (put_valid_morsecode_into_queue lock_ok ones s)
      as [[r s1] |] eqn:E; [| discriminate].
    destruct (negb (r =? 0)); [discriminate |].
    injection H as <-. cbn [trace log]. rewrite !pulses_app.
    rewrite (put_valid_pulses _ _ _ _ E). cbn. now rewrite <- app_assoc. }
  induction fuel as [| fuel IH]; intros j ones s s' Hf Hj m H.
  - assert (j = 0) by (cbn in Hj; lia). subst j m.
    rewrite Z.mul_0_r in *. now apply Hexit in H.
  - destruct (Z.eq_dec m 0) as [Hz | Hnz].
    + rewrite Hz in *. rewrite top_bits_zero, strip_zeros_repeat_false.
      cbn [flash_morsecode_loop Z.eqb] in H. now apply Hexit in H.
    + pose proof (aligned_range (S fuel) j Hf Hj) as Hrange. fold m in Hrange.
      assert (Hne : strip_zeros (top_bits (S fuel) m) <> []).
      { intros E. apply Hnz. unfold m in *. now apply aligned_strip_zeros. }
      rewrite top_bits_succ in Hne |- * by lia.
      rewrite (strip_zeros_cons _ _ Hne).
      cbn [flash_morsecode_loop] in H.
      replace (m =? 0) with false in H by (symmetry; now apply Z.eqb_neq).
      rewrite (leftmost_bit_testbit m Hrange) in H.
      assert (Hj' : 0 <= j mod 2 ^ Z.of_nat fuel < 2 ^ Z.of_nat fuel).
      { apply Z.mod_pos_bound. apply Z.pow_pos_nonneg; lia. }
      assert (Hs : shl1 m = 2 ^ (16 - Z.of_nat fuel) * (j mod 2 ^ Z.of_nat fuel))
        by (unfold m; apply shl1_aligned; lia).
      clearbody m. rewrite Hs in *.
      unfold flash_pulses. cbn [flat_map]. rewrite <- !app_assoc.
      destruct (Z.testbit m 15).
      * unfold bind at 1 2 in H. cbn [led_trigger_event msleep emit] in H.
        apply (IH _ _ _ _ ltac:(lia) Hj') in H. rewrite H.
        cbn [trace log]. rewrite !pulses_app. unfold flash_pulses.
        cbn. rewrite <- !app_assoc. reflexivity.
      * unfold bind at 1 in H.
        destruct (put_valid_morsecode_into_queue lock_ok ones s)
          as [[r s1] |] eqn:E; [| discriminate].
        destruct (negb (r =? 0)); [discriminate |].
        unfold bind at 1 2 in H. cbn [led_trigger_event msleep emit] in H.
        apply (IH _ _ _ _ ltac:(lia) Hj') in H. rewrite H.
        cbn [trace log]. rewrite !pulses_app.
        rewrite (put_valid_pulses _ _ _ _ E). unfold flash_pulses.
        cbn. rewrite <- !app_assoc. reflexivity.
Qed.


(** ** The pulses of a text *)

Lemma separator_pulses (ms : Z) (s s' : state) :
  (r <- queue_lock lock_ok ;;
   if negb (r =? 0) then ret (- EFAULT)
   else
     kfifo_put SEPARATOR_SYMBOL ;;
     queue_unlock ;;
     msleep ms ;;
     ret 0) s = Some (0, s') ->
  pulses (trace s') = pulses (trace s) ++ [EvSleep ms].
Proof.
  intros H.
  unfold bind, queue_lock, mutex_lock_interruptible, kfifo_put, queue_unlock,
    mutex_unlock, msleep, emit, ret in H.
  destruct (lock_ok (lock_attempts s)); cbn [Z.eqb negb EINTR Z.opp] in H;
    [| discriminate].
  cbn [flashed_codes_queue count_attempt log] in H.
  destruct (kfifo_is_full (flashed_codes_queue s)); injection H as <-;
    cbn [trace log set_queue count_attempt]; rewrite !pulses_app; cbn;
    now rewrite !app_nil_r.
Qed.

Lemma word_gap_pulses (ms : Z) (s s' : state) :
  (r <- queue_lock lock_ok ;;
   if negb (r =? 0) then ret (- EFAULT)
   else
     kfifo_put SEPARATOR_SYMBOL ;;
     kfifo_put SEPARATOR_SYMBOL ;;
     queue_unlock ;;
     msleep ms ;;
     ret 0) s = Some (0, s') ->
  pulses (trace s') = pulses (trace s) ++ [EvSleep ms].
Proof.
  intros H.
  unfold bind, queue_lock, mutex_lock_interruptible, kfifo_put, queue_unlock,
    mutex_unlock, msleep, emit, ret in H.
  destruct (lock_ok (lock_attempts s)); cbn [Z.eqb negb EINTR Z.opp] in H;
    [| discriminate].
  cbn [flashed_codes_queue count_attempt log] in H.
  destruct (kfifo_is_full (flashed_codes_queue s));
    cbn [flashed_codes_queue count_attempt log set_queue] in H;
    match type of H with context [if ?b then _ else _] => destruct b end;
    injection H as <-;
    cbn [trace log set_queue count_attempt]; rewrite !pulses_app; cbn;
    now rewrite !app_nil_r.
Qed.

Lemma flash_morsecode_pulses_of (m : Z) (s s' : state) :
  0 <= m < 65536 ->
  flash_morsecode dottime lock_ok m s = Some (0, s') ->
  pulses (trace s')
  = pulses (trace s) ++ flash_pulses dottime (significant_bits m).
Proof.
  intros Hm H. unfold flash_morsecode in H.
  change (Z.to_nat (SIZEOF_UNSIGNED_SHORT * BITS_IN_A_BYTE)) with 16%nat in H.
  pose proof (flash_morsecode_loop_pulses 16 m 0 s s' ltac:(lia)) as Hl.
  change (2 ^ Z.of_nat 16) with 65536 in Hl.
  change (2 ^ (16 - Z.of_nat 16)) with 1 in Hl.
  rewrite Z.mul_1_l in Hl. exact (Hl Hm H).
Qed.

Lemma process_morsecode_pulses (ch : ascii) (b : bool) (s s' : state) :
  is_morsecode_char ch = true ->
  process_morsecode dottime lock_ok ch b s = Some (0, s') ->
  pulses (trace s') = pulses (trace s) ++ char_pulses dottime b [ch].
Proof.
  intros Hmc H. cbn [char_pulses]. rewrite app_nil_r.
  assert (Hletter :
            (r <- (if b
                   then
                     r <- queue_lock lock_ok ;;
                     if negb (r =? 0) then ret (- EFAULT)
                     else
                       kfifo_put SEPARATOR_SYMBOL ;;
                       queue_unlock ;;
                       msleep ((INTER_LETTER_DOTTIMES - 1) * dottime) ;;
                       ret 0
                   else ret 0) ;;
             if negb (r =? 0) then ret (- EFAULT)
             else
               r <- flash_morsecode dottime lock_ok
                      (nth (alphabet_index ch) letter_to_morsecode_bits_map 0) ;;
               if negb (r =? 0) then ret (- EFAULT) else ret 0) s
            = Some (0, s') ->
            pulses (trace s')
            = pulses (trace s)
                ++ (if b then [EvSleep ((INTER_LETTER_DOTTIMES - 1) * dottime)]
                    else [])
                ++ flash_pulses dottime
                     (significant_bits
                        (nth (alphabet_index ch) letter_to_morsecode_bits_map 0))).
  { clear H. intros H. unfold bind at 1 in H.
    match type of H with
    | match ?c s with _ => _ end = _ => destruct (c s) as [[r1 s1] |] eqn:E1
    end; [| discriminate].
    destruct (Z.eqb_spec r1 0) as [-> | Hr1]; cbn [negb] in H;
      [| discriminate].
    unfold bind at 1 in H.
    destruct (flash_morsecode dottime lock_ok
                (nth (alphabet_index ch) letter_to_morsecode_bits_map 0) s1)
      as [[r2 s2] |] eqn:E2; [| discriminate].
    destruct (Z.eqb_spec r2 0) as [-> | Hr2]; cbn [negb] in H;
      [| discriminate].
    injection H as <-.
    rewrite (flash_morsecode_pulses_of _ _ _ (letter_table_range _) E2).
    rewrite app_assoc. f_equal.
    destruct b.
    - exact (separator_pulses _ _ _ E1).
    - injection E1 as <-. now rewrite app_nil_r. }
  unfold process_morsecode, alphabet_index in *.
  destruct (is_lower ch) eqn:El.
  - assert (Hsp : is_space ch = false)
      by (apply is_letter_not_space; unfold is_letter; now rewrite El).
    rewrite Hsp. now apply Hletter.
  - destruct (is_upper ch) eqn:Eu.
    + assert (Hsp : is_space ch = false)
        by (apply is_letter_not_space; unfold is_letter; now rewrite El, Eu).
      rewrite Hsp. now apply Hletter.
    + unfold is_morsecode_char, is_letter in Hmc. rewrite El, Eu in Hmc.
      cbn in Hmc. rewrite Hmc in *. exact (word_gap_pulses _ _ _ H).
Qed.

Lemma regular_morsecode_char (ch : ascii) (rest : list ascii) :
  regular (ch :: rest) = true ->
  is_morsecode_char ch = true /\ regular rest = true.
Proof.
  cbn [regular]. intros H. apply andb_prop in H. destruct H as [Hch Hrest].
  split; [| exact Hrest]. unfold is_morsecode_char.
  destruct (is_space ch); [apply orb_true_r | now rewrite Hch].
Qed.

Lemma process_chars_pulses (l : list ascii) :
  forall has s s',
    regular l = true ->
    process_chars dottime lock_ok has l s = Some (0, s') ->
    pulses (trace s') = pulses (trace s) ++ char_pulses dottime has l.
Proof.
  induction l as [| ch rest IH]; intros has s s' Hreg H.
  - injection H as <-. cbn. now rewrite app_nil_r.
  - destruct (regular_morsecode_char ch rest Hreg) as [Hmc Hrest].
    cbn [process_chars] in H. unfold bind at 1 in H.
    destruct (process_morsecode dottime lock_ok ch has s)
      as [[r1 s1] |] eqn:E1; [| discriminate].
    destruct (Z.eqb_spec r1 0) as [-> | Hr1]; cbn [negb] in H;
      [| discriminate].
    rewrite (IH _ _ _ Hrest H), (process_morsecode_pulses _ _ _ _ Hmc E1).
    cbn [char_pulses]. rewrite app_nil_r, <- app_assoc. reflexivity.
Qed.


(** ** From pulses to Morse timing *)

Lemma timeline_pulses (evs : list event) :
  forall led, timeline dottime led (pulses evs) = timeline dottime led evs.
Proof.
  induction evs as [| e evs IH]; intros led; [reflexivity |].
  destruct e; cbn; rewrite ?IH; reflexivity.
Qed.

Lemma timeline_sleep (k : Z) (led : led_brightness) (rest : list event) :
  0 < dottime -> 0 <= k ->
  timeline dottime led (EvSleep (k * dottime) :: rest)
  = repeat (lit led) (Z.to_nat k) ++ timeline dottime led rest.
Proof.
  intros Hd Hk. cbn [timeline]. rewrite Z.div_mul by lia. reflexivity.
Qed.

Lemma timeline_flash (bits : list bool) (rest : list event) :
  0 < dottime ->
  forall led,
    timeline dottime led (flash_pulses dottime bits ++ rest)
    = bits ++ [false] ++ timeline dottime LED_OFF rest.
Proof.
  intros Hd. unfold flash_pulses.
  induction bits as [| b bits IH]; intros led.
  - cbn [flat_map app timeline]. rewrite Z.div_same by lia. reflexivity.
  - cbn [flat_map bit_pulse app timeline]. rewrite Z.div_same by lia.
    rewrite IH. destruct b; reflexivity.
Qed.

Lemma intercalate_cons {A : Type} (sep l : list A) (ls : list (list A)) :
  intercalate sep (l :: ls)
  = l ++ match ls with [] => [] | _ => sep ++ intercalate sep ls end.
Proof. destruct ls; cbn [intercalate]; [now rewrite app_nil_r | reflexivity]. Qed.

Lemma letter_table_timeline (ch : ascii) :
  is_letter ch = true ->
  significant_bits (nth (alphabet_index ch) letter_to_morsecode_bits_map 0)
  = letter_timeline ch.
Proof.
  intros H. unfold letter_timeline, morse.
  pose proof (alphabet_index_bound ch H) as Hi.
  generalize dependent (alphabet_index ch). intros i Hi.
  do 26 (destruct i as [| i]; [vm_compute; reflexivity |]). lia.
Qed.

Lemma char_pulses_timeline (l : list ascii) :
  0 < dottime ->
  forall has led,
    regular l = true ->
    (led = LED_OFF \/ exists c r, l = c :: r /\ is_letter c = true /\ has = false) ->
    timeline dottime led (char_pulses dottime has l) = char_timeline has l.
Proof.
  intros Hd. induction l as [| ch rest IH]; intros has led Hreg Hled;
    [reflexivity |].
  cbn [regular] in Hreg. apply andb_prop in Hreg. destruct Hreg as [Hch Hrest].
  cbn [char_pulses char_timeline].
  destruct (is_space ch) eqn:Hsp.
  - destruct Hled as [-> | (c & r & E & Hc & _)].
    + change (INTER_WORD_DOTTIMES - INTER_LETTER_DOTTIMES) with 4.
      cbn [app]. rewrite timeline_sleep by lia.
      rewrite (IH true LED_OFF Hrest (or_introl eq_refl)). reflexivity.
    + injection E as <- <-. rewrite (is_letter_not_space _ Hc) in Hsp.
      discriminate.
  - rewrite (letter_table_timeline ch Hch), <- !app_assoc.
    destruct has.
    + destruct Hled as [-> | (c & r & _ & _ & Hf)]; [| discriminate].
      change (INTER_LETTER_DOTTIMES - 1) with 2.
      cbn [app]. rewrite timeline_sleep by lia.
      rewrite timeline_flash by exact Hd.
      rewrite (IH true LED_OFF Hrest (or_introl eq_refl)). reflexivity.
    + cbn [app]. rewrite timeline_flash by exact Hd.
      rewrite (IH true LED_OFF Hrest (or_introl eq_refl)). reflexivity.
Qed.

Lemma words_timeline_letter (c : ascii) (rest : list ascii) :
  is_letter c = true -> well_formed_tail rest = true ->
  words_timeline (c :: rest)
  = letter_timeline c ++ letter_gap rest ++ words_timeline rest.
Proof.
  intros Hc Hrest. unfold words_timeline.
  destruct (split_words_letter c rest (is_letter_not_space c Hc))
    as (w & ws & E1 & E2).
  rewrite E1, E2. cbn [map]. rewrite !intercalate_cons.
  unfold well_formed_tail in Hrest. rewrite E1 in Hrest.
  apply andb_prop in Hrest. destruct Hrest as [Hw _].
  unfold word_timeline at 1. cbn [map]. rewrite intercalate_cons.
  rewrite <- !app_assoc. f_equal.
  destruct (first_word_head rest w ws E1 Hw)
    as [[-> Hlead] | (c' & w' & r & -> & -> & Hc' & _)].
  - assert (Hgap : letter_gap rest = []).
    { destruct rest as [| x r]; [reflexivity |]. cbn in Hlead |- *.
      destruct (is_space x); [reflexivity | discriminate]. }
    rewrite Hgap. reflexivity.
  - cbn [letter_gap]. rewrite (is_letter_not_space _ Hc').
    cbn [map]. rewrite <- !app_assoc. reflexivity.
Qed.

Lemma words_timeline_space (ch : ascii) (rest : list ascii) :
  is_space ch = true ->
  words_timeline (ch :: rest) = repeat false 7 ++ words_timeline rest.
Proof.
  intros Hsp. unfold words_timeline. cbn [split_words]. rewrite Hsp.
  cbn [map]. rewrite intercalate_cons.
  destruct (split_words rest) as [| w ws] eqn:E;
    [now apply split_words_not_nil in E |].
  reflexivity.
Qed.

Lemma char_timeline_words (suf : list ascii) :
  well_formed_tail suf = true ->
  [false] ++ char_timeline true suf
  = letter_gap suf ++ words_timeline suf ++ [false].
Proof.
  induction suf as [| ch rest IH]; intros H; [reflexivity |].
  destruct (well_formed_tail_rest ch rest H) as [Hrest Hch].
  cbn [char_timeline letter_gap].
  destruct (is_space ch) eqn:Hsp.
  - rewrite (words_timeline_space _ _ Hsp).
    destruct (well_formed_head rest Hch) as (c & r & Hr & Hc & _).
    change ([false] ++ repeat false 4 ++ char_timeline true rest)
      with (repeat false 4 ++ [false] ++ char_timeline true rest).
    rewrite (IH Hrest). rewrite Hr at 1. cbn [letter_gap].
    rewrite (is_letter_not_space _ Hc). reflexivity.
  - rewrite (words_timeline_letter _ _ Hch Hrest), <- !app_assoc.
    change ([false] ++ repeat false 2 ++ letter_timeline ch ++ [false]
              ++ char_timeline true rest)
      with (repeat false 3 ++ letter_timeline ch
              ++ ([false] ++ char_timeline true rest)).
    rewrite (IH Hrest), <- ?app_assoc. reflexivity.
Qed.

Lemma char_timeline_text (text : list ascii) :
  well_formed text = true ->
  char_timeline false text = text_timeline text.
Proof.
  intros Hw. destruct (well_formed_head text Hw) as (c & r & -> & Hc & _).
  pose proof (well_formed_is_tail _ Hw) as Ht.
  destruct (well_formed_tail_rest c r Ht) as [Hr _].
  cbn [char_timeline text_timeline]. rewrite (is_letter_not_space _ Hc).
  fold (words_timeline (c :: r)).
  rewrite (words_timeline_letter _ _ Hc Hr), <- ?app_assoc. cbn [app].
  f_equal. exact (char_timeline_words r Hr).
Qed.


(** ** Statements about whole operations *)

(** X2: with every lock acquired, [flash_morsecode] on any 16-bit pattern
    returns 0 and queues, for each maximal run of 1 bits from the most
    significant bit down, a dot if the run has length 1 and a dash if it
    has length 3; runs of any other length queue nothing.  Symbols that
    find the fifo full are dropped. *)
Theorem flash_morsecode_decodes_runs (m : Z) (s : state)
  (Hm : 0 <= m < 65536)
  (Hok : forall n, lock_ok n = true) :
  exists s',
    flash_morsecode dottime lock_ok m s = Some (0, s')
    /\ flashed_codes_queue s'
       = flashed_codes_queue s
           ++ firstn (Z.to_nat (QUEUE_SIZE
                                - Z.of_nat (List.length (flashed_codes_queue s))))
                     (flat_map run_symbol (runs (pattern_bits m))).
Proof.
  destruct (flash_morsecode_queue dottime lock_ok Hok m s Hm) as (s' & Hf & Hq).
  exists s'. split; [exact Hf |]. rewrite Hq. apply fifo_puts_prefix.
Qed.

(** X3: with every lock acquired, [flash_morsecode] on any 16-bit pattern
    switches the LED and sleeps one dot time for each bit up to the last
    1 bit (on for a 1, off for a 0), then switches it off and sleeps one
    dot time more; the 0 bits behind the last 1 bit take no time. *)
Theorem flash_morsecode_pulses (m : Z) (s : state) (led : led_brightness)
  (Hm : 0 <= m < 65536)
  (Hok : forall n, lock_ok n = true)
  (Hdot : 0 < dottime) :
  exists s' evs,
    flash_morsecode dottime lock_ok m s = Some (0, s')
    /\ trace s' = trace s ++ evs
    /\ pulses evs
       = flat_map (fun b : bool =>
                     [EvLed (if b then LED_FULL else LED_OFF); EvSleep dottime])
                  (significant_bits m)
           ++ [EvLed LED_OFF; EvSleep dottime]
    /\ timeline dottime led evs = significant_bits m ++ [false].
Proof.
  destruct (flash_morsecode_queue dottime lock_ok Hok m s Hm) as (s' & Hf & _).
  destruct (safe_flash_morsecode dottime lock_ok m s 0 s' Hf) as (evs & Ht & _).
  pose proof (flash_morsecode_pulses_of m s s' Hm Hf) as Hp.
  rewrite Ht, pulses_app in Hp. apply app_inv_head in Hp.
  exists s', evs. split; [exact Hf |]. split; [exact Ht |].
  split; [exact Hp |].
  rewrite <- timeline_pulses, Hp.
  rewrite <- (app_nil_r (flash_pulses dottime (significant_bits m))).
  rewrite timeline_flash by exact Hdot. cbn. reflexivity.
Qed.

(** X9: with every lock acquired and a positive dot time, a [my_write] of
    any bytes drives the LED with Morse timing for the normalized text: a
    dot is one dot time of light and a dash three, the symbols of a letter
    are one dark dot time apart, the letters of a word three
    ([INTER_LETTER_DOTTIMES]) and the words seven ([INTER_WORD_DOTTIMES]);
    one dark dot time ends the text.  A buffer without letters takes no
    time at all. *)
Theorem my_write_timing (str : list ascii) (s : state) (led : led_brightness)
  (Hok : forall n, lock_ok n = true)
  (Hdot : 0 < dottime) :
  exists s' evs,
    my_write dottime lock_ok (user_string str) (List.length str) s
    = Some (Z.of_nat (List.length str), s')
    /\ trace s' = trace s ++ evs
    /\ timeline dottime led evs = text_timeline (normalize str).
Proof.
  destruct (my_write_text Hok str s) as (s0 & Hp & Hw & _ & _).
  destruct (safe_my_write dottime lock_ok _ _ _ _ _ Hw) as (evs & Ht & _).
  exists (add_pos (Z.of_nat (List.length str)) s0), evs.
  split; [exact Hw |]. split; [exact Ht |].
  pose proof (well_formed_tail_regular _ (normalize_tail str)) as Hreg.
  pose proof (process_chars_pulses _ _ _ _ Hreg Hp) as Hpulses.
  cbn [trace add_pos] in Ht. rewrite Ht, pulses_app in Hpulses.
  apply app_inv_head in Hpulses.
  rewrite <- timeline_pulses, Hpulses.
  destruct (norm_shape str) as (_ & [Hnil | Hwf] & _); fold (normalize str) in *.
  - rewrite Hnil. reflexivity.
  - rewrite char_pulses_timeline; [now apply char_timeline_text | exact Hdot | exact Hreg |].
    destruct (well_formed_head _ Hwf) as (c & r & Hr & Hc & _).
    right. exists c, r. repeat split; assumption.
Qed.

(** X1: whatever value the module parameter has, [my_init] leaves a dot
    time between 1 and 2000 ms: the value given if it is in that range,
    200 otherwise; it empties the fifo and returns what [misc_register]
    returned. *)
Theorem my_init_validates_dottime (d ret_register : Z) (s : state) :
  let '(r, d', s') := my_init d ret_register s in
  r = ret_register
  /\ MIN_DOT_TIME <= d' <= MAX_DOT_TIME
  /\ (MIN_DOT_TIME <= d <= MAX_DOT_TIME -> d' = d)
  /\ (~ MIN_DOT_TIME <= d <= MAX_DOT_TIME -> d' = DEFAULT_DOT_TIME)
  /\ my_init_dottime d' = d'
  /\ flashed_codes_queue s' = [].
Proof.
  unfold my_init, my_init_dottime, MIN_DOT_TIME, MAX_DOT_TIME, DEFAULT_DOT_TIME.
  destruct (Z.ltb_spec d 1), (Z.gtb_spec d 2000); cbn [orb];
    repeat split; cbn; try lia;
    try (intros; lia).
  destruct (Z.ltb_spec d 1), (Z.gtb_spec d 2000); cbn [orb]; lia.
Qed.


(** X10: reading one byte at a time never drains the fifo.  With every
    lock acquired, [n] reads of one byte from a fifo that is neither empty
    nor full return the first [n] bytes of the queued bytes followed by
    newlines without end, and leave the fifo exactly as long as it was:
    each read takes one byte and puts one newline. *)
Theorem one_byte_reads_never_drain (n : nat) (s : state)
  (Hok : forall k, lock_ok k = true)
  (Hne : flashed_codes_queue s <> [])
  (Hroom : kfifo_is_full (flashed_codes_queue s) = false) :
  exists out s',
    my_reads lock_ok 1 n s = Some (out, s')
    /\ out ++ flashed_codes_queue s'
       = flashed_codes_queue s ++ repeat NEWLINE n
    /\ List.length out = n
    /\ List.length (flashed_codes_queue s')
       = List.length (flashed_codes_queue s).
Proof.
  revert s Hne Hroom. induction n as [| n IH]; intros s Hne Hroom.
  - exists [], s. cbn. now rewrite app_nil_r.
  - destruct (my_read_acquired lock_ok 1 s (Hok _)) as (s1 & Hr & Hq & _).
    rewrite (queue_before_copy_room _ Hne Hroom) in Hr, Hq.
    destruct (flashed_codes_queue s) as [| c q] eqn:Eq; [congruence |].
    cbn [app List.length Nat.min firstn skipn] in Hr, Hq.
    assert (Hlen : List.length (flashed_codes_queue s1) = S (List.length q))
      by (rewrite Hq, length_app; cbn; lia).
    assert (Hne1 : flashed_codes_queue s1 <> []).
    { intros E. rewrite E in Hlen. discriminate. }
    assert (Hroom1 : kfifo_is_full (flashed_codes_queue s1) = false).
    { apply kfifo_is_full_false. apply kfifo_is_full_false in Hroom.
      rewrite Hlen. cbn [List.length] in Hroom. exact Hroom. }
    destruct (IH s1 Hne1 Hroom1) as (out & s' & Hrs & Ho & Hlo & Hls).
    exists (c :: out), s'. cbn [my_reads].
    rewrite (bind_eq _ _ _ _ _ Hr), (bind_eq _ _ _ _ _ Hrs).
    split; [reflexivity |]. split; [| split].
    + cbn [app snd]. rewrite Ho, Hq, <- app_assoc. reflexivity.
    + cbn. now rewrite Hlo.
    + rewrite Hls, Hlen. reflexivity.
Qed.

(** X11: if [copy_from_user] faults while [my_write] is still looking for
    the first letter, the write returns [-EFAULT] and has done nothing: no
    lock taken, nothing queued, no pulse, the file offset as it was. *)
Theorem my_write_fault_before_first_letter
  (buff : user_buffer) (count i : nat) (s : state)
  (Hi : (i < count)%nat)
  (Hfault : buff i = None)
  (Hjunk : forall j, (j < i)%nat ->
                     exists ch, buff j = Some ch /\ is_letter ch = false) :
  my_write dottime lock_ok buff count s = Some (- EFAULT, s).
Proof.
  unfold my_write.
  assert (Hscan : forall n idx,
             (idx <= i)%nat -> (i < idx + n)%nat ->
             scan_to_letter n buff idx = None).
  { induction n as [| n IH]; intros idx Hle Hlt; [lia |].
    cbn [scan_to_letter].
    destruct (Nat.eq_dec idx i) as [-> | Hneq].
    - now rewrite Hfault.
    - destruct (Hjunk idx ltac:(lia)) as (ch & -> & Hl).
      rewrite Hl, andb_false_r. apply IH; lia. }
  rewrite (Hscan count 0%nat) by lia. reflexivity.
Qed.


(** ** A write fails only when interrupted *)

Lemma foi_ret0 : fails_only_interrupted (ret 0).
Proof.
  intros s r s' H. injection H as <- <-.
  exists []. split; [now rewrite app_nil_r | now left].
Qed.

Lemma foi_bind_quiet {A : Type} (c : M A) (k : A -> M Z) :
  quiet c -> (forall a, fails_only_interrupted (k a)) ->
  fails_only_interrupted (bind c k).
Proof.
  intros Hc Hk s r s' H. unfold bind in H.
  destruct (c s) as [[a s1] |] eqn:E; [| discriminate].
  destruct (Hc _ _ _ E) as (_ & evs1 & Ht1 & _).
  destruct (Hk a _ _ _ H) as (evs2 & Ht2 & Hcase).
  exists (evs1 ++ evs2). split; [now rewrite Ht2, Ht1, app_assoc |].
  destruct Hcase as [-> | [-> Hin]]; [now left | right].
  split; [reflexivity | apply in_or_app; now right].
Qed.

Lemma foi_checked (c k : M Z) :
  fails_only_interrupted c -> fails_only_interrupted k ->
  fails_only_interrupted
    (r <- c ;; if negb (r =? 0) then ret (- EFAULT) else k).
Proof.
  intros Hc Hk s r s' H. unfold bind in H.
  destruct (c s) as [[r1 s1] |] eqn:E; [| discriminate].
  destruct (Hc _ _ _ E) as (evs1 & Ht1 & [-> | [-> Hin]]).
  - cbn [Z.eqb negb] in H.
    destruct (Hk _ _ _ H) as (evs2 & Ht2 & Hcase).
    exists (evs1 ++ evs2). split; [now rewrite Ht2, Ht1, app_assoc |].
    destruct Hcase as [-> | [-> Hin]]; [now left | right].
    split; [reflexivity | apply in_or_app; now right].
  - cbn in H. injection H as <- <-.
    exists evs1. split; [exact Ht1 | right; now split].
Qed.

Lemma foi_lock_checked (k : M Z) :
  fails_only_interrupted k ->
  fails_only_interrupted
    (r <- queue_lock lock_ok ;;
     if negb (r =? 0) then ret (- EFAULT) else k).
Proof.
  intros Hk s r s' H. unfold bind, queue_lock, mutex_lock_interruptible in H.
  destruct (lock_ok (lock_attempts s)); cbn [Z.eqb negb EINTR Z.opp] in H.
  - destruct (Hk _ _ _ H) as (evs2 & Ht2 & Hcase).
    exists ([EvLock true] ++ evs2). split.
    + rewrite Ht2. cbn [trace log count_attempt]. now rewrite <- app_assoc.
    + destruct Hcase as [-> | [-> Hin]]; [now left | right].
      split; [reflexivity | now right].
  - injection H as <- <-. exists [interrupted]. split; [reflexivity |].
    right. split; [reflexivity | now left].
Qed.

Lemma foi_put_valid (n : Z) :
  fails_only_interrupted (put_valid_morsecode_into_queue lock_ok n).
Proof.
  unfold put_valid_morsecode_into_queue.
  destruct ((n =? ONES_IN_A_DOT) || (n =? ONES_IN_A_DASH)); [| apply foi_ret0].
  apply foi_lock_checked. apply foi_bind_quiet.
  - destruct (n =? ONES_IN_A_DOT);
      [| destruct (n =? ONES_IN_A_DASH)];
      try apply quiet_ret;
      (apply quiet_bind; [apply quiet_kfifo_put | intros; apply quiet_ret]).
  - intros _. apply foi_bind_quiet; [now apply quiet_emit |].
    intros _. apply foi_ret0.
Qed.

Lemma foi_pulse (b : led_brightness) (ms : Z) (k : M Z) :
  fails_only_interrupted k ->
  fails_only_interrupted (led_trigger_event b ;; msleep ms ;; k).
Proof.
  intros Hk. apply foi_bind_quiet; [now apply quiet_emit |].
  intros _. apply foi_bind_quiet; [now apply quiet_emit |].
  intros _. exact Hk.
Qed.

Lemma foi_flash_morsecode_loop (fuel : nat) :
  forall m ones,
    fails_only_interrupted (flash_morsecode_loop dottime lock_ok fuel m ones).
Proof.
  induction fuel as [| fuel IH]; intros m ones; cbn [flash_morsecode_loop];
    destruct (m =? 0);
    try (apply foi_checked;
         [apply foi_put_valid | apply foi_pulse, foi_ret0]).
  - intros s r s' H. discriminate H.
  - match goal with |- context [if ?c then _ else _] => destruct c end.
    + apply foi_pulse, IH.
    + apply foi_checked; [apply foi_put_valid | apply foi_pulse, IH].
Qed.

Lemma foi_process_morsecode (ch : ascii) (b : bool) :
  fails_only_interrupted (process_morsecode dottime lock_ok ch b).
Proof.
  assert (Hletter : forall idx,
             fails_only_interrupted
               (r <- (if b
                      then
                        r <- queue_lock lock_ok ;;
                        if negb (r =? 0) then ret (- EFAULT)
                        else
                          kfifo_put SEPARATOR_SYMBOL ;;
                          queue_unlock ;;
                          msleep ((INTER_LETTER_DOTTIMES - 1) * dottime) ;;
                          ret 0
                      else ret 0) ;;
                if negb (r =? 0) then ret (- EFAULT)
                else
                  r <- flash_morsecode dottime lock_ok
                         (nth idx letter_to_morsecode_bits_map 0) ;;
                  if negb (r =? 0) then ret (- EFAULT) else ret 0)).
  { intros idx. apply foi_checked.
    - destruct b; [| apply foi_ret0].
      apply foi_lock_checked.
      apply foi_bind_quiet; [apply quiet_kfifo_put | intros _].
      apply foi_bind_quiet; [now apply quiet_emit | intros _].
      apply foi_bind_quiet; [now apply quiet_emit | intros _].
      apply foi_ret0.
    - apply foi_checked; [apply foi_flash_morsecode_loop | apply foi_ret0]. }
  unfold process_morsecode.
  destruct (is_lower ch); [apply Hletter |].
  destruct (is_upper ch); [apply Hletter |].
  destruct (is_space ch); [| apply foi_ret0].
  apply foi_lock_checked.
  apply foi_bind_quiet; [apply quiet_kfifo_put | intros _].
  apply foi_bind_quiet; [apply quiet_kfifo_put | intros _].
  apply foi_bind_quiet; [now apply quiet_emit | intros _].
  apply foi_bind_quiet; [now apply quiet_emit | intros _].
  apply foi_ret0.
Qed.

Lemma foi_process_chars (l : list ascii) :
  forall has, fails_only_interrupted (process_chars dottime lock_ok has l).
Proof.
  induction l as [| ch rest IH]; intros has; cbn [process_chars].
  - apply foi_ret0.
  - apply foi_checked; [apply foi_process_morsecode | apply IH].
Qed.

(** X12: a [my_write] of readable memory returns either the byte count or
    [-EFAULT], and it returns [-EFAULT] exactly when one of its
    acquisitions of the lock was interrupted; the file offset advances by
    the byte count in the first case and stays where it was in the
    second. *)
Theorem my_write_fails_only_interrupted (str : list ascii) (s : state) :
  exists r s' evs,
    my_write dottime lock_ok (user_string str) (List.length str) s
    = Some (r, s')
    /\ trace s' = trace s ++ evs
    /\ ((r = Z.of_nat (List.length str)
         /\ ~ In (EvLock false) evs
         /\ f_pos s' = f_pos s + Z.of_nat (List.length str))
        \/ (r = - EFAULT
            /\ In (EvLock false) evs
            /\ f_pos s' = f_pos s)).
Proof.
  destruct (total_my_write dottime lock_ok (user_string str)
                           (List.length str) s) as (r & s' & Hw).
  pose proof Hw as Hw'. rewrite my_write_process_chars in Hw'.
  unfold bind in Hw'.
  destruct (process_chars dottime lock_ok false (normalize str) s)
    as [[r0 s0] |] eqn:Ep; [| discriminate].
  destruct (foi_process_chars _ _ _ _ _ Ep) as (evs & Ht & Hcase).
  pose proof (process_chars_keeps_pos _ _ _ _ _ Ep) as Hpos.
  exists r, s', evs. split; [exact Hw |].
  destruct Hcase as [-> | [-> Hin]]; cbn in Hw'; injection Hw' as <- <-.
  - split; [exact Ht |]. left. split; [reflexivity |]. split.
    + destruct (safe_my_write dottime lock_ok _ _ _ _ _ Hw)
        as (evs' & Ht' & [Hno | (Hr & _)]).
      * cbn [trace add_pos] in Ht'.
        assert (evs' = evs) by (apply (app_inv_head (trace s)); congruence).
        now subst evs'.
      * unfold EFAULT in Hr. lia.
    + cbn [f_pos add_pos]. now rewrite Hpos.
  - split; [exact Ht |]. right. repeat split; assumption.
Qed.


(** X13: a [my_read] into memory that cannot be written returns [-EFAULT]
    and copies nothing, but it has already put its newline: on a fifo that
    was neither empty nor full, the queued bytes are all still there with
    one newline behind them; the mutex is released and the file offset is
    as it was. *)
Theorem my_read_unwritable (count : nat) (s : state)
  (Hlock : lock_ok (lock_attempts s) = true)
  (Hcount : (0 < count)%nat)
  (Hne : flashed_codes_queue s <> [])
  (Hroom : kfifo_is_full (flashed_codes_queue s) = false) :
  exists s',
    my_read lock_ok false count s = Some ((- EFAULT, []), s')
    /\ flashed_codes_queue s' = flashed_codes_queue s ++ [NEWLINE]
    /\ trace s' = trace s ++ [EvLock true; EvPut NEWLINE true; EvUnlock]
    /\ f_pos s' = f_pos s.
Proof.
  unfold my_read.
  rewrite (bind_eq _ _ _ _ _ (queue_lock_acquired lock_ok s Hlock)).
  cbn [Z.eqb negb].
  destruct s as [q tr k pos]. cbn [flashed_codes_queue trace f_pos] in *.
  destruct q as [| c q]; [congruence |].
  destruct count as [| count]; [lia |].
  unfold bind, kfifo_is_empty, kfifo_put, kfifo_to_user.
  cbn [flashed_codes_queue count_attempt log negb].
  rewrite Hroom.
  cbn -[firstn skipn Z.of_nat].
  eexists. split; [reflexivity |].
  cbn. rewrite <- !app_assoc. repeat split.
Qed.

(** X14: with every lock acquired, a [my_write] to an empty fifo of bytes
    whose stream is shorter than the capacity of the fifo (fewer than
    32768 symbols, so that stream and newline both fit), followed by a
    [my_read] into a buffer larger than the stream, returns the stream of
    the normalized text and one newline, or nothing at all when the bytes
    hold no letter; the fifo is empty afterwards. *)
Theorem write_then_read_any_text (str : list ascii) (count : nat) (s : state)
  (Hok : forall n, lock_ok n = true)
  (Hempty : flashed_codes_queue s = [])
  (Hroom : Z.of_nat (List.length (queued_stream (normalize str))) < QUEUE_SIZE)
  (Hcount : (List.length (queued_stream (normalize str)) < count)%nat) :
  exists out s',
    write_then_read dottime lock_ok str count s
    = Some ((Z.of_nat (List.length out), out), s')
    /\ out = match queued_stream (normalize str) with
             | [] => []
             | stream => stream ++ [NEWLINE]
             end
    /\ flashed_codes_queue s' = [].
Proof.
  destruct (my_write_text Hok str s) as (s0 & _ & Hw & Hq & _).
  unfold write_then_read. rewrite (bind_eq _ _ _ _ _ Hw).
  set (s1 := add_pos (Z.of_nat (List.length str)) s0).
  assert (Hq1 : flashed_codes_queue s1 = queued_stream (normalize str)).
  { cbn [s1 flashed_codes_queue add_pos]. rewrite Hq, Hempty.
    rewrite fifo_puts_room by (cbn [List.length]; lia). reflexivity. }
  destruct (my_read_acquired lock_ok count s1 (Hok _)) as (s' & Hr & Hq' & _).
  rewrite Hq1 in Hr, Hq'.
  destruct (queued_stream (normalize str)) as [| c stream] eqn:Es.
  - cbn in Hr, Hq'. rewrite Nat.min_0_r in Hr, Hq'. cbn in Hr, Hq'.
    exists [], s'. repeat split; assumption.
  - rewrite queue_before_copy_room in Hr, Hq'
      by (try discriminate; apply kfifo_is_full_false; exact Hroom).
    assert (Hmin : Nat.min count (List.length ((c :: stream) ++ [NEWLINE]))
                   = List.length ((c :: stream) ++ [NEWLINE])).
    { apply Nat.min_r. rewrite length_app. cbn [List.length] in *. lia. }
    rewrite Hmin in Hr, Hq'. rewrite firstn_all in Hr. rewrite skipn_all in Hq'.
    exists ((c :: stream) ++ [NEWLINE]), s'. repeat split; assumption.
Qed.


(** ** The words of the normalized text *)

Lemma is_morsecode_char_letter (ch : ascii) :
  is_letter ch = true -> is_morsecode_char ch = true.
Proof. intros H. unfold is_morsecode_char. now rewrite H. Qed.

Lemma norm_no_letter (suf : list ascii) :
  existsb is_letter suf = false -> norm true suf = [].
Proof.
  induction suf as [| ch rest IH]; intros H; [reflexivity |].
  cbn in H. apply orb_false_elim in H. destruct H as [Hch Hrest].
  cbn. rewrite Hch. now apply IH.
Qed.

Lemma norm_words (suf : list ascii) :
  (exists w ws ws',
      split_words (norm false suf) = w :: ws
      /\ split_words (filter is_morsecode_char suf) = w :: ws'
      /\ filter nonempty ws = filter nonempty ws')
  /\ filter nonempty (split_words (norm true suf))
     = filter nonempty (split_words (filter is_morsecode_char suf)).
Proof.
  induction suf as [| ch rest ((w & ws & ws' & E1 & E2 & E3) & IH2)].
  - split; [| reflexivity]. exists [], [], []. repeat split.
  - cbn [norm filter]. destruct (is_letter ch) eqn:Hl.
    + rewrite (is_morsecode_char_letter ch Hl).
      pose proof (is_letter_not_space ch Hl) as Hsp.
      cbn [split_words]. rewrite Hsp, E1, E2. split.
      * exists (ch :: w), ws, ws'. repeat split. exact E3.
      * cbn [filter nonempty List.length Nat.eqb negb]. now rewrite E3.
    + assert (Hmc : is_morsecode_char ch = is_space ch)
        by (unfold is_morsecode_char; now rewrite Hl).
      rewrite Hmc.
      destruct (is_space ch) eqn:Hsp.
      * cbn [split_words]. rewrite Hsp. split.
        -- destruct (existsb is_letter rest) eqn:He.
           ++ cbn [split_words]. rewrite Hsp.
              exists [], (split_words (norm true rest)),
                (split_words (filter is_morsecode_char rest)).
              repeat split. exact IH2.
           ++ exists [], [], (split_words (filter is_morsecode_char rest)).
              repeat split. rewrite <- IH2, (norm_no_letter rest He).
              reflexivity.
        -- cbn [filter nonempty List.length Nat.eqb negb]. exact IH2.
      * split; [| exact IH2]. exists w, ws, ws'. repeat split; assumption.
Qed.

Lemma filter_letter_words (ws : list (list ascii)) :
  forallb letter_word ws = true -> filter nonempty ws = ws.
Proof.
  induction ws as [| w ws IH]; intros H; [reflexivity |].
  cbn in H. apply andb_prop in H. destruct H as [Hw Hws].
  unfold letter_word in Hw. apply andb_prop in Hw. destruct Hw as [Hne _].
  cbn [filter]. unfold nonempty at 1. rewrite Hne. now rewrite IH.
Qed.

Lemma queued_stream_words_of (str : list ascii) :
  queued_stream (normalize str)
  = join [SEPARATOR_SYMBOL; SEPARATOR_SYMBOL; SEPARATOR_SYMBOL]
         (map word_stream (words_of str)).
Proof.
  unfold words_of. destruct (norm_words str) as (_ & <-).
  fold (normalize str).
  destruct (norm_shape str) as (_ & [Hnil | Hwf] & _); fold (normalize str) in *.
  - rewrite Hnil. reflexivity.
  - unfold queued_stream. now rewrite (filter_letter_words _ Hwf).
Qed.

(** X15: with every lock acquired and room in the fifo, a [my_write] of
    any bytes queues the Morse code of the words of the buffer: the bytes
    that are neither letters nor spaces count for nothing, the words are
    the non-empty runs of letters between spaces, the codes of the letters
    of a word are one separator apart and the words three. *)
Theorem my_write_queues_words (str : list ascii) (s : state)
  (Hok : forall n, lock_ok n = true)
  (Hroom : Z.of_nat (List.length (flashed_codes_queue s))
           + Z.of_nat (List.length (queued_stream (normalize str)))
           <= QUEUE_SIZE) :
  exists s',
    my_write dottime lock_ok (user_string str) (List.length str) s
    = Some (Z.of_nat (List.length str), s')
    /\ flashed_codes_queue s'
       = flashed_codes_queue s
           ++ join [SEPARATOR_SYMBOL; SEPARATOR_SYMBOL; SEPARATOR_SYMBOL]
                   (map (fun w => join [SEPARATOR_SYMBOL] (map morse w))
                        (filter nonempty
                                (split_words (filter is_morsecode_char str)))).
Proof.
  destruct (my_write_text Hok str s) as (s0 & _ & Hw & Hq & _).
  exists (add_pos (Z.of_nat (List.length str)) s0).
  split; [exact Hw |]. cbn [flashed_codes_queue add_pos].
  rewrite Hq, fifo_puts_room by exact Hroom.
  f_equal. apply queued_stream_words_of.
Qed.


End FurtherProperties.

(** ** Concrete runs of the further properties *)

Lemma flash_morsecode_decodes_runs_witness :
  0 <= 0xEC00 < 65536
  /\ runs (pattern_bits 0xEC00) = [3; 2]%nat
  /\ exists s',
       flash_morsecode 200 always_acquired 0xEC00 init_state = Some (0, s')
       /\ flashed_codes_queue s' = [DASH_SYMBOL].
Proof.
  split; [lia |]. split; [reflexivity |].
  apply (flash_morsecode_decodes_runs 200 always_acquired 0xEC00 init_state).
  - lia.
  - intros n; reflexivity.
Defined.

Lemma flash_morsecode_pulses_witness :
  significant_bits 0xA000 = [true; false; true]
  /\ exists s' evs,
       flash_morsecode 200 always_acquired 0xA000 init_state = Some (0, s')
       /\ trace s' = trace init_state ++ evs
       /\ pulses evs
          = [EvLed LED_FULL; EvSleep 200; EvLed LED_OFF; EvSleep 200;
             EvLed LED_FULL; EvSleep 200; EvLed LED_OFF; EvSleep 200]
       /\ timeline 200 LED_FULL evs = [true; false; true; false].
Proof.
  split; [reflexivity |].
  apply (flash_morsecode_pulses 200 always_acquired 0xA000 init_state LED_FULL).
  - lia.
  - intros n; reflexivity.
  - lia.
Defined.

Lemma my_write_any_text_witness :
  normalize (chars " 1so  s! ") = chars "so s"
  /\ exists s',
       my_write 200 always_acquired (user_string (chars " 1so  s! ")) 9
                init_state = Some (9, s')
       /\ flashed_codes_queue s' = chars "... ---   ..."
       /\ f_pos s' = 9.
Proof.
  split; [reflexivity |].
  apply (my_write_any_text 200 always_acquired (chars " 1so  s! ") init_state).
  intros n; reflexivity.
Defined.

Lemma my_write_twice_witness :
  exists s1 s2,
    my_write 200 always_acquired (user_string (chars "a")) 1 init_state
    = Some (1, s1)
    /\ my_write 200 always_acquired (user_string (chars "b")) 1 s1
       = Some (1, s2)
    /\ flashed_codes_queue s2 = chars ".--...".
Proof.
  apply (my_write_twice 200 always_acquired (chars "a") (chars "b") init_state).
  - intros n; reflexivity.
  - vm_compute. discriminate.
Defined.

Lemma lock_discipline_kept_witness :
  valid (OpWrite (user_string (chars "SOS")) 3)
  /\ exists r s' evs,
       run 200 third_interrupted (OpWrite (user_string (chars "SOS")) 3)
           init_state = Some (r, s')
       /\ trace s' = trace init_state ++ evs
       /\ lock_discipline false evs = Some false.
Proof.
  split; [exact I |].
  apply (lock_discipline_kept 200 third_interrupted
           (OpWrite (user_string (chars "SOS")) 3) init_state).
  exact I.
Defined.

Lemma producer_appends_symbols_witness :
  valid (OpProcess " " true) /\ producer (OpProcess " " true)
  /\ exists r s' l,
       run 200 always_acquired (OpProcess " " true) (queue_state (chars ".-"))
       = Some (r, s')
       /\ flashed_codes_queue s'
          = flashed_codes_queue (queue_state (chars ".-")) ++ l
       /\ Forall (fun c => c = DOT_SYMBOL \/ c = DASH_SYMBOL
                           \/ c = SEPARATOR_SYMBOL) l.
Proof.
  split; [exact I |]. split; [exact I |].
  apply (producer_appends_symbols 200 always_acquired (OpProcess " " true)
           (queue_state (chars ".-"))); exact I.
Defined.

Lemma my_write_timing_witness :
  text_timeline (normalize (chars "a e"))
  = [true; false; true; true; true;
     false; false; false; false; false; false; false;
     true; false]
  /\ exists s' evs,
       my_write 200 always_acquired (user_string (chars "a e")) 3 init_state
       = Some (3, s')
       /\ trace s' = trace init_state ++ evs
       /\ timeline 200 LED_OFF evs = text_timeline (normalize (chars "a e")).
Proof.
  split; [reflexivity |].
  apply (my_write_timing 200 always_acquired (chars "a e") init_state LED_OFF).
  - intros n; reflexivity.
  - lia.
Defined.

Lemma one_byte_reads_never_drain_witness :
  exists out s',
    my_reads always_acquired 1 5 (queue_state (chars ".-")) = Some (out, s')
    /\ out ++ flashed_codes_queue s' = chars ".-" ++ repeat NEWLINE 5
    /\ List.length out = 5%nat
    /\ List.length (flashed_codes_queue s') = 2%nat.
Proof.
  apply (one_byte_reads_never_drain always_acquired 5 (queue_state (chars ".-"))).
  - intros k; reflexivity.
  - discriminate.
  - reflexivity.
Defined.

(** A buffer of two spaces whose third byte cannot be read. *)
Lemma my_write_fault_before_first_letter_witness :
  my_write 200 always_acquired
           (fun i => if (i <? 2)%nat then Some " "%char else None) 5 init_state
  = Some (- EFAULT, init_state).
Proof.
  apply (my_write_fault_before_first_letter 200 always_acquired
           (fun i => if (i <? 2)%nat then Some " "%char else None) 5 2
           init_state).
  - lia.
  - reflexivity.
  - intros j Hj. exists " "%char.
    destruct j as [| [| j]]; [split; reflexivity | split; reflexivity | lia].
Defined.

Lemma my_read_unwritable_witness :
  exists s',
    my_read always_acquired false 10 (queue_state (chars ".-"))
    = Some ((- EFAULT, []), s')
    /\ flashed_codes_queue s' = chars ".-" ++ [NEWLINE]
    /\ trace s' = [EvLock true; EvPut NEWLINE true; EvUnlock]
    /\ f_pos s' = 0.
Proof.
  apply (my_read_unwritable always_acquired 10 (queue_state (chars ".-"))).
  - reflexivity.
  - lia.
  - discriminate.
  - reflexivity.
Defined.

Lemma write_then_read_any_text_witness :
  exists out s',
    write_then_read 200 always_acquired (chars " 1so  s! ") 100 init_state
    = Some ((Z.of_nat (List.length out), out), s')
    /\ out = chars "... ---   ..." ++ [NEWLINE]
    /\ flashed_codes_queue s' = [].
Proof.
  apply (write_then_read_any_text 200 always_acquired (chars " 1so  s! ") 100
           init_state).
  - intros n; reflexivity.
  - reflexivity.
  - vm_compute. reflexivity.
  - vm_compute. lia.
Defined.

Lemma my_write_queues_words_witness :
  filter nonempty (split_words (filter is_morsecode_char (chars " 1so  s! ")))
  = [chars "so"; chars "s"]
  /\ exists s',
       my_write 200 always_acquired (user_string (chars " 1so  s! ")) 9
                init_state = Some (9, s')
       /\ flashed_codes_queue s' = chars "... ---   ...".
Proof.
  split; [reflexivity |].
  apply (my_write_queues_words 200 always_acquired (chars " 1so  s! ")
                               init_state).
  - intros n; reflexivity.
  - vm_compute. discriminate.
Defined.
